(** * A shallow embedding of the Huffman file compressor (huffman.c, huffman2.c)

    The two C files are translated function by function.  Stateful code is
    written with explicit state passing; code that can leave the defined
    behaviour of C (a NULL dereference, an access outside an array, a read of
    a cell that was never written) or that loops runs in the [run] monad
    below, so that "the call returns" is a statement that can be proved.

    Conventions of the embedding:
    - [uint64_t] values are [Z] with the wrap-around modulo 2^64 written out;
    - [int] indices and counters, which stay far below 2^31 in this program,
      are [nat];
    - [unsigned char] file contents are [Byte.byte];
    - a [HuffmanNode *] is a value of [HuffmanNode]: [NULL] or a node;
    - an array is a list; an array that C leaves uninitialised is a list of
      [option] cells, [None] standing for a cell not yet written;
    - a file is the list of its bytes; [fopen], [fwrite] and [malloc] are
      taken to succeed, so the branches that only report their failure are
      not part of the model; [free], [fclose] and the menu of [main] have no
      counterpart;
    - a loop whose exit is not a bound on a counter takes an iteration budget
      ("fuel") and ends in [NoFuel] when it runs out; the budgets the callers
      pass are proved to suffice. *)

From Stdlib Require Import ZArith Lia QArith Qpower Permutation.
From Stdlib.Strings Require Import Byte Ascii.
From stdpp Require Import base option list strings.

Local Open Scope Z_scope.

(** ** Outcomes of a call *)

Inductive run (A : Type) : Type :=
  | Done (a : A)   (* the call returns [a] *)
  | Fault          (* undefined behaviour: NULL dereference, bad array access *)
  | NoFuel.        (* the iteration budget of a loop ran out *)
Arguments Done {A} a.
Arguments Fault {A}.
Arguments NoFuel {A}.

#[global] Instance run_ret : MRet run := @Done.
#[global] Instance run_bind : MBind run := λ A B f m,
  match m with
  | Done a => f a
  | Fault => Fault
  | NoFuel => NoFuel
  end.

(** [for (int i = lo; i < lo + count; ++i) body] over a loop state. *)
Fixpoint for_range {S : Type} (lo count : nat) (body : nat → S → run S) (s : S)
    : run S :=
  match count with
  | O => Done s
  | Datatypes.S count' => s' ← body lo s; for_range (Datatypes.S lo) count' body s'
  end.

(** Checked array accesses. *)
Definition load {A : Type} (a : list A) (i : nat) : run A :=
  match a !! i with
  | Some x => Done x
  | None => Fault
  end.

Definition store {A : Type} (a : list A) (i : nat) (x : A) : run (list A) :=
  if decide (i < length a)%nat then Done (<[i := x]> a) else Fault.

(** Reading a cell that may not have been written yet. *)
Definition cell {A : Type} (a : list (option A)) (i : nat) : run A :=
  c ← load a i;
  match c with
  | Some x => Done x
  | None => Fault
  end.

(** ** Machine integers and bytes *)

Definition u64 (x : Z) : Z := x mod 2 ^ 64.

Definition byte_to_Z (b : byte) : Z := Z.of_N (Byte.to_N b).
Definition Z_to_byte (z : Z) : byte :=
  default "000"%byte (Byte.of_N (Z.to_N (z mod 256))).
Definition byte_index (b : byte) : nat := N.to_nat (Byte.to_N b).
Definition nat_to_byte (i : nat) : byte := Z_to_byte (Z.of_nat i).

(** The header is written with [fwrite] straight from memory, so its layout
    is the byte order of the host. *)
Inductive byte_order : Type := LittleEndian | BigEndian.

Fixpoint le_bytes (n : nat) (x : Z) : list byte :=
  match n with
  | O => []
  | S n' => Z_to_byte (x mod 256) :: le_bytes n' (x / 256)
  end.

Fixpoint le_value (bs : list byte) : Z :=
  match bs with
  | [] => 0
  | b :: bs' => byte_to_Z b + 256 * le_value bs'
  end.

Definition u64_bytes (host : byte_order) (x : Z) : list byte :=
  match host with
  | LittleEndian => le_bytes 8 x
  | BigEndian => rev (le_bytes 8 x)
  end.

Definition u64_value (host : byte_order) (bs : list byte) : Z :=
  match host with
  | LittleEndian => le_value bs
  | BigEndian => le_value (rev bs)
  end.

(** [fwrite(items, sizeof(uint64_t), n, fp)]: the file grows by the items. *)
Definition fwrite_u64 (host : byte_order) (items : list Z) (fp : list byte)
    : list byte :=
  fp ++ concat (u64_bytes host <$> items).

(** [fread(buf, sizeof(uint64_t), count, fp)]: the complete items read (their
    number is what [fread] returns) and the unread rest of the stream. *)
Fixpoint fread_u64 (host : byte_order) (count : nat) (fp : list byte)
    : list Z * list byte :=
  match count with
  | O => ([], fp)
  | S count' =>
      if decide (8 ≤ length fp)%nat then
        let '(items, rest) := fread_u64 host count' (drop 8 fp) in
        (u64_value host (take 8 fp) :: items, rest)
      else ([], [])
  end.

(** ** Data structures shared by the two files *)

Inductive HuffmanNode : Type :=
  | NULL
  | Node (ch : byte) (freq : Z) (left right : HuffmanNode).

Definition is_null (p : HuffmanNode) : bool :=
  match p with NULL => true | Node _ _ _ _ => false end.

(** Field reads and writes through a pointer. *)
Definition get_ch (p : HuffmanNode) : run byte :=
  match p with NULL => Fault | Node c _ _ _ => Done c end.
Definition get_freq (p : HuffmanNode) : run Z :=
  match p with NULL => Fault | Node _ f _ _ => Done f end.
Definition get_left (p : HuffmanNode) : run HuffmanNode :=
  match p with NULL => Fault | Node _ _ l _ => Done l end.
Definition get_right (p : HuffmanNode) : run HuffmanNode :=
  match p with NULL => Fault | Node _ _ _ r => Done r end.
Definition set_left (p l : HuffmanNode) : run HuffmanNode :=
  match p with NULL => Fault | Node c f _ r => Done (Node c f l r) end.
Definition set_right (p r : HuffmanNode) : run HuffmanNode :=
  match p with NULL => Fault | Node c f l _ => Done (Node c f l r) end.

Record MinHeap : Type := mkHeap {
  data : list (option HuffmanNode);  (* the [capacity] cells of the array *)
  capacity : nat;
  size : nat
}.

Definition with_data (h : MinHeap) (d : list (option HuffmanNode)) : MinHeap :=
  {| data := d; capacity := capacity h; size := size h |}.

Record BitWriter : Type := mkWriter {
  bw_fp : list byte;       (* the bytes written to the file so far *)
  bw_buffer : Z;
  bw_bit_count : Z
}.

Record BitReader : Type := mkReader {
  br_fp : list byte;       (* the unread rest of the file *)
  br_buffer : Z;
  br_bit_count : Z
}.

(** What a call of [compress_file] or [decompress_file] leaves behind: the
    returned [int], the output file ([None] when it was never opened) and the
    lines printed on [stderr].  A message stands for the [fprintf] at one
    place of the code; the two files word some of them differently
    (huffman.c's text is quoted). *)
Inductive message : Type :=
  | EmptyInput            (* "Input file is empty. Nothing to compress." *)
  | TreeBuildFailed       (* huffman2.c only: "Failed to build Huffman tree" *)
  | NoCodeFor (uc : byte) (* "Error: no code for character %u" *)
  | CannotReadSize        (* "Error: cannot read original size from header" *)
  | CannotReadTable       (* "Error: cannot read frequency table from header" *)
  | TreeRebuildFailed     (* "Error rebuilding Huffman tree" *)
  | UnexpectedEOF.        (* "Unexpected end of compressed file" *)

Record result : Type := mkResult {
  ret : Z;
  output : option (list byte);
  stderr : list message
}.

(** A C string is the list of its characters, the closing NUL left out. *)
Abbreviation cstring := (list ascii).

(** The C string in a [char] buffer: the characters before the first NUL. *)
Fixpoint strdup (buffer : list (option ascii)) : run cstring :=
  match buffer with
  | [] => Fault
  | None :: _ => Fault
  | Some c :: rest =>
      if decide (c = "000"%char) then Done []
      else s ← strdup rest; Done (c :: s)
  end.

(** ** huffman.c *)

Module Huffman.

Definition create_node (ch : byte) (freq : Z) : HuffmanNode :=
  Node ch freq NULL NULL.

Definition heap_create (capacity : nat) : MinHeap :=
  {| data := replicate capacity None; capacity := capacity; size := 0 |}.

Definition heap_swap (d : list (option HuffmanNode)) (a b : nat)
    : run (list (option HuffmanNode)) :=
  tmp ← cell d a;
  vb ← cell d b;
  d ← store d a (Some vb);
  store d b (Some tmp).

Fixpoint heapify_up_loop (fuel : nat) (h : MinHeap) (idx : nat) : run MinHeap :=
  if decide (0 < idx)%nat then
    match fuel with
    | O => NoFuel
    | S fuel' =>
        let parent := ((idx - 1) / 2)%nat in
        p ← cell (data h) parent; pf ← get_freq p;
        c ← cell (data h) idx; cf ← get_freq c;
        if decide (pf ≤ cf) then Done h
        else
          d ← heap_swap (data h) parent idx;
          heapify_up_loop fuel' (with_data h d) parent
    end
  else Done h.

(** The index at least halves in every iteration. *)
Definition heapify_up (h : MinHeap) (idx : nat) : run MinHeap :=
  heapify_up_loop idx h idx.

(** One [if (child < h->size && data[child]->freq < data[smallest]->freq)]. *)
Definition pick_smaller (h : MinHeap) (child smallest : nat) : run nat :=
  if decide (child < size h)%nat then
    c ← cell (data h) child; cf ← get_freq c;
    s ← cell (data h) smallest; sf ← get_freq s;
    Done (if decide (cf < sf) then child else smallest)
  else Done smallest.

Fixpoint heapify_down_loop (fuel : nat) (h : MinHeap) (idx : nat) : run MinHeap :=
  match fuel with
  | O => NoFuel
  | S fuel' =>
      let left := (idx * 2 + 1)%nat in
      let right := (idx * 2 + 2)%nat in
      let smallest := idx in
      smallest ← pick_smaller h left smallest;
      smallest ← pick_smaller h right smallest;
      if decide (smallest = idx) then Done h
      else
        d ← heap_swap (data h) idx smallest;
        heapify_down_loop fuel' (with_data h d) smallest
  end.

(** Every iteration but the last moves to an index that is larger and below
    [size]. *)
Definition heapify_down (h : MinHeap) (idx : nat) : run MinHeap :=
  heapify_down_loop (S (size h)) h idx.

Definition heap_insert (h : MinHeap) (node : HuffmanNode) : run MinHeap :=
  let h :=
    if decide (capacity h ≤ size h)%nat then
      let newCap := (capacity h * 2)%nat in
      {| data := data h ++ replicate (newCap - capacity h) None;
         capacity := newCap; size := size h |}
    else h in
  d ← store (data h) (size h) (Some node);
  h ← heapify_up (with_data h d) (size h);
  Done {| data := data h; capacity := capacity h; size := S (size h) |}.

Definition heap_extract_min (h : MinHeap) : run (HuffmanNode * MinHeap) :=
  if decide (size h = 0)%nat then Done (NULL, h)
  else
    min ← cell (data h) 0;
    last ← cell (data h) (size h - 1);
    d ← store (data h) 0 (Some last);
    let h := {| data := d; capacity := capacity h; size := (size h - 1)%nat |} in
    h ← heapify_down h 0;
    Done (min, h).

(** The [while (heap->size > 1)] loop of [build_huffman_tree]. *)
Fixpoint merge_loop (fuel : nat) (heap : MinHeap) : run MinHeap :=
  if decide (1 < size heap)%nat then
    match fuel with
    | O => NoFuel
    | S fuel' =>
        '(left', heap) ← heap_extract_min heap;
        '(right', heap) ← heap_extract_min heap;
        lf ← get_freq left'; rf ← get_freq right';
        let parent := create_node "000"%byte (u64 (lf + rf)) in
        parent ← set_left parent left';
        parent ← set_right parent right';
        heap ← heap_insert heap parent;
        merge_loop fuel' heap
    end
  else Done heap.

Definition build_huffman_tree (frequencies : list Z) : run HuffmanNode :=
  uniqueCount ← for_range 0 256 (λ i uniqueCount,
      f ← load frequencies i;
      Done (if decide (0 < f) then S uniqueCount else uniqueCount)) O;
  if decide (uniqueCount = 0)%nat then Done NULL
  else
    let heap := heap_create (uniqueCount * 2 + 4) in
    heap ← for_range 0 256 (λ i heap,
        f ← load frequencies i;
        if decide (0 < f) then heap_insert heap (create_node (nat_to_byte i) f)
        else Done heap) heap;
    if decide (size heap = 1)%nat then
      '(single, _) ← heap_extract_min heap;
      Done single
    else
      (* each round takes two nodes out and puts one back *)
      heap ← merge_loop (size heap) heap;
      '(root, _) ← heap_extract_min heap;
      Done root.

(** [generate_codes_recursive] writes the path into [buffer] and the codes
    into [codes]; both arrays are handed back. *)
Fixpoint generate_codes_recursive (node : HuffmanNode)
    (buffer : list (option ascii)) (depth : nat) (codes : list (option cstring))
    : run (list (option ascii) * list (option cstring)) :=
  match node with
  | NULL => Done (buffer, codes)
  | Node ch _ left' right' =>
      if is_null left' && is_null right' then
        buffer ← store buffer depth (Some "000"%char);
        bits ← strdup buffer;
        codes ← store codes (byte_index ch) (Some bits);
        Done (buffer, codes)
      else
        '(buffer, codes) ←
          (if is_null left' then Done (buffer, codes)
           else
             buffer ← store buffer depth (Some "0"%char);
             generate_codes_recursive left' buffer (depth + 1) codes);
        if is_null right' then Done (buffer, codes)
        else
          buffer ← store buffer depth (Some "1"%char);
          generate_codes_recursive right' buffer (depth + 1) codes
  end.

(** [codes] is the caller's array of 256 entries, [None] for a NULL [bits]. *)
Definition generate_codes (root : HuffmanNode) (codes : list (option cstring))
    : run (list (option cstring)) :=
  let buffer : list (option ascii) := replicate 512 None in
  codes ← for_range 0 256 (λ i codes, store codes i None) codes;
  match root with
  | NULL => Done codes
  | Node ch _ left' right' =>
      if is_null left' && is_null right' then
        buffer ← store buffer 0 (Some "0"%char);
        buffer ← store buffer 1 (Some "000"%char);
        bits ← strdup buffer;
        store codes (byte_index ch) (Some bits)
      else
        '(_, codes) ← generate_codes_recursive root buffer 0 codes;
        Done codes
  end.

Definition bitwriter_create (fp : list byte) : BitWriter :=
  {| bw_fp := fp; bw_buffer := 0; bw_bit_count := 0 |}.

Definition bitwriter_write_bit (bw : BitWriter) (bit : Z) : BitWriter :=
  let buffer :=
    Z.lor (bw_buffer bw) (Z.shiftl (Z.land bit 1) (7 - bw_bit_count bw))
      mod 256 in
  let bit_count := bw_bit_count bw + 1 in
  if decide (bit_count = 8) then
    {| bw_fp := bw_fp bw ++ [Z_to_byte buffer]; bw_buffer := 0; bw_bit_count := 0 |}
  else {| bw_fp := bw_fp bw; bw_buffer := buffer; bw_bit_count := bit_count |}.

Fixpoint bitwriter_write_bits_from_string (bw : BitWriter) (bits : cstring)
    : BitWriter :=
  match bits with
  | [] => bw
  | p :: rest =>
      bitwriter_write_bits_from_string
        (bitwriter_write_bit bw (if decide (p = "1"%char) then 1 else 0)) rest
  end.

(** Returns the file: the writer itself is freed. *)
Definition bitwriter_flush (bw : BitWriter) : list byte :=
  if decide (0 < bw_bit_count bw) then bw_fp bw ++ [Z_to_byte (bw_buffer bw)]
  else bw_fp bw.

Definition bitreader_create (fp : list byte) : BitReader :=
  {| br_fp := fp; br_buffer := 0; br_bit_count := 0 |}.

(** [None] for the return value 0, [Some bit] for 1 with [*out_bit = bit]. *)
Definition bitreader_read_bit (br : BitReader) : BitReader * option Z :=
  let fetched :=
    if decide (br_bit_count br = 0) then
      match br_fp br with
      | [] => None
      | b :: rest =>
          Some {| br_fp := rest; br_buffer := byte_to_Z b; br_bit_count := 8 |}
      end
    else Some br in
  match fetched with
  | None => (br, None)
  | Some br =>
      let pos := br_bit_count br - 1 in
      let bit := Z.land (Z.shiftr (br_buffer br) (7 - pos)) 1 in
      ({| br_fp := br_fp br; br_buffer := br_buffer br;
          br_bit_count := br_bit_count br - 1 |}, Some bit)
  end.

(** First pass of [compress_file]: one [fgetc] per byte of the input. *)
Fixpoint count_pass (input : list byte) (frequencies : list Z) (total_chars : Z)
    : run (list Z * Z) :=
  match input with
  | [] => Done (frequencies, total_chars)
  | c :: rest =>
      f ← load frequencies (byte_index c);
      frequencies ← store frequencies (byte_index c) (u64 (f + 1));
      count_pass rest frequencies (u64 (total_chars + 1))
  end.

(** Second pass: [inl uc] when the loop stops at a byte without a code. *)
Fixpoint encode_pass (input : list byte) (codes : list (option cstring))
    (bw : BitWriter) : run (BitWriter * option byte) :=
  match input with
  | [] => Done (bw, None)
  | uc :: rest =>
      bits ← load codes (byte_index uc);
      match bits with
      | None => Done (bw, Some uc)
      | Some bits =>
          encode_pass rest codes (bitwriter_write_bits_from_string bw bits)
      end
  end.

Definition compress_file (host : byte_order) (input : list byte) : run result :=
  let frequencies := replicate 256 0 in
  '(frequencies, total_chars) ← count_pass input frequencies 0;
  root ← build_huffman_tree frequencies;
  if is_null root then
    Done {| ret := 0; output := None; stderr := [EmptyInput] |}
  else
    codes ← generate_codes root (replicate 256 None);
    let out := fwrite_u64 host [total_chars] [] in
    let out := fwrite_u64 host frequencies out in
    let bw := bitwriter_create out in
    '(bw, stopped) ← encode_pass input codes bw;
    match stopped with
    | Some uc =>
        Done {| ret := 0; output := Some (bitwriter_flush bw);
                stderr := [NoCodeFor uc] |}
    | None =>
        Done {| ret := 1; output := Some (bitwriter_flush bw); stderr := [] |}
    end.

(** The decoding loop of [decompress_file]; it hands back [written], the
    output file and what was printed.  Every iteration that does not leave
    the loop takes one bit from the reader. *)
Fixpoint decode_loop (fuel : nat) (br : BitReader) (root node : HuffmanNode)
    (written total_chars : Z) (out : list byte)
    : run (Z * list byte * list message) :=
  if decide (written < total_chars) then
    match fuel with
    | O => NoFuel
    | S fuel' =>
        match bitreader_read_bit br with
        | (_, None) => Done (written, out, [UnexpectedEOF])
        | (br, Some bit) =>
            node ← (if decide (bit = 0) then get_left node else get_right node);
            l ← get_left node; r ← get_right node;
            if is_null l && is_null r then
              ch ← get_ch node;
              decode_loop fuel' br root root (u64 (written + 1)) total_chars
                (out ++ [ch])
            else decode_loop fuel' br root node written total_chars out
        end
    end
  else Done (written, out, []).

Definition decompress_file (host : byte_order) (input : list byte) : run result :=
  match fread_u64 host 1 input with
  | ([total_chars], input) =>
      let '(frequencies, input) := fread_u64 host 256 input in
      if decide (length frequencies ≠ 256%nat) then
        Done {| ret := 0; output := None; stderr := [CannotReadTable] |}
      else
        root ← build_huffman_tree frequencies;
        if is_null root && bool_decide (0 < total_chars) then
          Done {| ret := 0; output := None; stderr := [TreeRebuildFailed] |}
        else
          '(uniqueCount, onlyChar) ← for_range 0 256 (λ i '(uniqueCount, onlyChar),
              f ← load frequencies i;
              Done (if decide (0 < f) then (S uniqueCount, nat_to_byte i)
                    else (uniqueCount, onlyChar))) (O, "000"%byte);
          if decide (uniqueCount = 1)%nat then
            Done {| ret := 1;
                    output := Some (replicate (Z.to_nat total_chars) onlyChar);
                    stderr := [] |}
          else
            let br := bitreader_create input in
            '(written, out, printed) ←
              decode_loop (S (8 * length input)) br root root 0 total_chars [];
            Done {| ret := if decide (written = total_chars) then 1 else 0;
                    output := Some out; stderr := printed |}
  | _ => Done {| ret := 0; output := None; stderr := [CannotReadSize] |}
  end.

End Huffman.

(** ** huffman2.c *)

Module Huffman2.

Definition node_create (ch : byte) (freq : Z) : HuffmanNode :=
  Node ch freq NULL NULL.

Definition heap_create (capacity : nat) : MinHeap :=
  {| data := replicate capacity None; capacity := capacity; size := 0 |}.

Definition heap_swap (d : list (option HuffmanNode)) (a b : nat)
    : run (list (option HuffmanNode)) :=
  tmp ← cell d a;
  vb ← cell d b;
  d ← store d a (Some vb);
  store d b (Some tmp).

Fixpoint heapify_up_loop (fuel : nat) (h : MinHeap) (idx : nat) : run MinHeap :=
  if decide (0 < idx)%nat then
    match fuel with
    | O => NoFuel
    | S fuel' =>
        let parent := ((idx - 1) / 2)%nat in
        p ← cell (data h) parent; pf ← get_freq p;
        c ← cell (data h) idx; cf ← get_freq c;
        if decide (pf ≤ cf) then Done h
        else
          d ← heap_swap (data h) parent idx;
          heapify_up_loop fuel' (with_data h d) parent
    end
  else Done h.

(** The index at least halves in every iteration. *)
Definition heapify_up (h : MinHeap) (idx : nat) : run MinHeap :=
  heapify_up_loop idx h idx.

(** One [if (child < h->size && data[child]->freq < data[smallest]->freq)]. *)
Definition pick_smaller (h : MinHeap) (child smallest : nat) : run nat :=
  if decide (child < size h)%nat then
    c ← cell (data h) child; cf ← get_freq c;
    s ← cell (data h) smallest; sf ← get_freq s;
    Done (if decide (cf < sf) then child else smallest)
  else Done smallest.

Fixpoint heapify_down_loop (fuel : nat) (h : MinHeap) (idx : nat) : run MinHeap :=
  match fuel with
  | O => NoFuel
  | S fuel' =>
      let left := (idx * 2 + 1)%nat in
      let right := (idx * 2 + 2)%nat in
      let smallest := idx in
      smallest ← pick_smaller h left smallest;
      smallest ← pick_smaller h right smallest;
      if decide (smallest = idx) then Done h
      else
        d ← heap_swap (data h) idx smallest;
        heapify_down_loop fuel' (with_data h d) smallest
  end.

(** Every iteration but the last moves to an index that is larger and below
    [size]. *)
Definition heapify_down (h : MinHeap) (idx : nat) : run MinHeap :=
  heapify_down_loop (S (size h)) h idx.

Definition heap_insert (h : MinHeap) (node : HuffmanNode) : run MinHeap :=
  let h :=
    if decide (capacity h ≤ size h)%nat then
      let newcap := (capacity h * 2)%nat in
      let newcap := if decide (newcap < 16)%nat then 16%nat else newcap in
      {| data := data h ++ replicate (newcap - capacity h) None;
         capacity := newcap; size := size h |}
    else h in
  d ← store (data h) (size h) (Some node);
  let h := {| data := d; capacity := capacity h; size := S (size h) |} in
  heapify_up h (size h - 1).

Definition heap_extract_min (h : MinHeap) : run (HuffmanNode * MinHeap) :=
  if decide (size h = 0)%nat then Done (NULL, h)
  else
    min ← cell (data h) 0;
    let h := {| data := data h; capacity := capacity h; size := (size h - 1)%nat |} in
    last ← cell (data h) (size h);
    d ← store (data h) 0 (Some last);
    let h := with_data h d in
    h ← heapify_down h 0;
    Done (min, h).

(** The [while (heap->size > 1)] loop of [build_huffman_tree]. *)
Fixpoint merge_loop (fuel : nat) (heap : MinHeap) : run MinHeap :=
  if decide (1 < size heap)%nat then
    match fuel with
    | O => NoFuel
    | S fuel' =>
        '(a, heap) ← heap_extract_min heap;
        '(b, heap) ← heap_extract_min heap;
        af ← get_freq a; bf ← get_freq b;
        let parent := node_create "000"%byte (u64 (af + bf)) in
        parent ← set_left parent a;
        parent ← set_right parent b;
        heap ← heap_insert heap parent;
        merge_loop fuel' heap
    end
  else Done heap.

Definition build_huffman_tree (freq : list Z) : run HuffmanNode :=
  unique ← for_range 0 256 (λ i unique,
      f ← load freq i;
      Done (if decide (0 < f) then S unique else unique)) O;
  if decide (unique = 0)%nat then Done NULL
  else
    let heap := heap_create (unique * 2 + 4) in
    heap ← for_range 0 256 (λ i heap,
        f ← load freq i;
        if decide (0 < f) then heap_insert heap (node_create (nat_to_byte i) f)
        else Done heap) heap;
    if decide (size heap = 1)%nat then
      '(single, _) ← heap_extract_min heap;
      Done single
    else
      (* each round takes two nodes out and puts one back *)
      heap ← merge_loop (size heap) heap;
      '(root, _) ← heap_extract_min heap;
      Done root.

(** [generate_codes_recursive] writes the path into [buf] and the codes
    into [codes]; both arrays are handed back. *)
Fixpoint generate_codes_recursive (node : HuffmanNode)
    (buf : list (option ascii)) (depth : nat) (codes : list (option cstring))
    : run (list (option ascii) * list (option cstring)) :=
  match node with
  | NULL => Done (buf, codes)
  | Node ch _ left' right' =>
      if is_null left' && is_null right' then
        buf ← store buf depth (Some "000"%char);
        bits ← strdup buf;
        codes ← store codes (byte_index ch) (Some bits);
        Done (buf, codes)
      else
        '(buf, codes) ←
          (if is_null left' then Done (buf, codes)
           else
             buf ← store buf depth (Some "0"%char);
             generate_codes_recursive left' buf (depth + 1) codes);
        if is_null right' then Done (buf, codes)
        else
          buf ← store buf depth (Some "1"%char);
          generate_codes_recursive right' buf (depth + 1) codes
  end.

(** [codes] is the caller's array of 256 entries, [None] for a NULL [bits]. *)
Definition generate_codes (root : HuffmanNode) (codes : list (option cstring))
    : run (list (option cstring)) :=
  codes ← for_range 0 256 (λ i codes, store codes i None) codes;
  match root with
  | NULL => Done codes
  | Node ch _ left' right' =>
      if is_null left' && is_null right' then
        store codes (byte_index ch) (Some ["0"%char])
      else
        let buf : list (option ascii) := replicate 512 None in
        '(_, codes) ← generate_codes_recursive root buf 0 codes;
        Done codes
  end.

Definition bitwriter_create (fp : list byte) : BitWriter :=
  {| bw_fp := fp; bw_buffer := 0; bw_bit_count := 0 |}.

Definition bitwriter_write_bit (bw : BitWriter) (bit : Z) : BitWriter :=
  let buffer :=
    Z.lor (bw_buffer bw) (Z.shiftl (Z.land bit 1) (7 - bw_bit_count bw))
      mod 256 in
  let bit_count := bw_bit_count bw + 1 in
  if decide (bit_count = 8) then
    {| bw_fp := bw_fp bw ++ [Z_to_byte buffer]; bw_buffer := 0; bw_bit_count := 0 |}
  else {| bw_fp := bw_fp bw; bw_buffer := buffer; bw_bit_count := bit_count |}.

Fixpoint bitwriter_write_bits_from_string (bw : BitWriter) (bits : cstring)
    : BitWriter :=
  match bits with
  | [] => bw
  | p :: rest =>
      bitwriter_write_bits_from_string
        (bitwriter_write_bit bw (if decide (p = "1"%char) then 1 else 0)) rest
  end.

(** Returns the file: the writer itself is freed. *)
Definition bitwriter_flush (bw : BitWriter) : list byte :=
  if decide (0 < bw_bit_count bw) then bw_fp bw ++ [Z_to_byte (bw_buffer bw)]
  else bw_fp bw.

Definition bitreader_create (fp : list byte) : BitReader :=
  {| br_fp := fp; br_buffer := 0; br_bit_count := 0 |}.

(** [None] for the return value 0, [Some bit] for 1 with [*out_bit = bit]. *)
Definition bitreader_read_bit (br : BitReader) : BitReader * option Z :=
  let fetched :=
    if decide (br_bit_count br = 0) then
      match br_fp br with
      | [] => None
      | b :: rest =>
          Some {| br_fp := rest; br_buffer := byte_to_Z b; br_bit_count := 8 |}
      end
    else Some br in
  match fetched with
  | None => (br, None)
  | Some br =>
      let pos := br_bit_count br - 1 in
      let bit := Z.land (Z.shiftr (br_buffer br) (7 - pos)) 1 in
      ({| br_fp := br_fp br; br_buffer := br_buffer br;
          br_bit_count := br_bit_count br - 1 |}, Some bit)
  end.

(** First pass of [compress_file]: one [fgetc] per byte of the input. *)
Fixpoint count_pass (input : list byte) (frequencies : list Z) (total : Z)
    : run (list Z * Z) :=
  match input with
  | [] => Done (frequencies, total)
  | ch :: rest =>
      f ← load frequencies (byte_index ch);
      frequencies ← store frequencies (byte_index ch) (u64 (f + 1));
      count_pass rest frequencies (u64 (total + 1))
  end.

(** Second pass: [inl uc] when the loop stops at a byte without a code. *)
Fixpoint encode_pass (input : list byte) (codes : list (option cstring))
    (bw : BitWriter) : run (BitWriter * option byte) :=
  match input with
  | [] => Done (bw, None)
  | uc :: rest =>
      bits ← load codes (byte_index uc);
      match bits with
      | None => Done (bw, Some uc)
      | Some bits =>
          encode_pass rest codes (bitwriter_write_bits_from_string bw bits)
      end
  end.

Definition compress_file (host : byte_order) (input : list byte) : run result :=
  let frequencies := replicate 256 0 in
  '(frequencies, total) ← count_pass input frequencies 0;
  if decide (total = 0) then
    Done {| ret := 0; output := None; stderr := [EmptyInput] |}
  else
  root ← build_huffman_tree frequencies;
  if is_null root then
    Done {| ret := 0; output := None; stderr := [TreeBuildFailed] |}
  else
    codes ← generate_codes root (replicate 256 None);
    let out := fwrite_u64 host [total] [] in
    let out := fwrite_u64 host frequencies out in
    let bw := bitwriter_create out in
    '(bw, stopped) ← encode_pass input codes bw;
    match stopped with
    | Some uc =>
        Done {| ret := 0; output := Some (bitwriter_flush bw);
                stderr := [NoCodeFor uc] |}
    | None =>
        Done {| ret := 1; output := Some (bitwriter_flush bw); stderr := [] |}
    end.

(** The decoding loop of [decompress_file]; it hands back [written], the
    output file and what was printed.  Every iteration that does not leave
    the loop takes one bit from the reader. *)
Fixpoint decode_loop (fuel : nat) (br : BitReader) (root cur : HuffmanNode)
    (written total : Z) (out : list byte)
    : run (Z * list byte * list message) :=
  if decide (written < total) then
    match fuel with
    | O => NoFuel
    | S fuel' =>
        match bitreader_read_bit br with
        | (_, None) => Done (written, out, [UnexpectedEOF])
        | (br, Some bit) =>
            cur ← (if decide (bit = 0) then get_left cur else get_right cur);
            l ← get_left cur; r ← get_right cur;
            if is_null l && is_null r then
              ch ← get_ch cur;
              decode_loop fuel' br root root (u64 (written + 1)) total
                (out ++ [ch])
            else decode_loop fuel' br root cur written total out
        end
    end
  else Done (written, out, []).

Definition decompress_file (host : byte_order) (input : list byte) : run result :=
  match fread_u64 host 1 input with
  | ([total], input) =>
      let '(frequencies, input) := fread_u64 host 256 input in
      if decide (length frequencies ≠ 256%nat) then
        Done {| ret := 0; output := None; stderr := [CannotReadTable] |}
      else
        root ← build_huffman_tree frequencies;
        if is_null root && bool_decide (0 < total) then
          Done {| ret := 0; output := None; stderr := [TreeRebuildFailed] |}
        else
          '(unique, onlyChar) ← for_range 0 256 (λ i '(unique, onlyChar),
              f ← load frequencies i;
              Done (if decide (0 < f) then (S unique, nat_to_byte i)
                    else (unique, onlyChar))) (O, "000"%byte);
          if decide (unique = 1)%nat then
            Done {| ret := 1;
                    output := Some (replicate (Z.to_nat total) onlyChar);
                    stderr := [] |}
          else
            let br := bitreader_create input in
            '(written, out, printed) ←
              decode_loop (S (8 * length input)) br root root 0 total [];
            Done {| ret := if decide (written = total) then 1 else 0;
                    output := Some out; stderr := printed |}
  | _ => Done {| ret := 0; output := None; stderr := [CannotReadSize] |}
  end.

(** A line of standard output.  A line stands for the [printf] at one place
    of the code; the number and the code are what the format is filled with. *)
Inductive stdout_line : Type :=
  | CodesHeading                              (* "Huffman Codes (byte -> code):" *)
  | PrintableCode (i : nat) (bits : cstring)  (* "'%c' (ASCII %d) : %s" *)
  | HexCode (i : nat) (bits : cstring)        (* "0x%02X (ASCII %d) : %s" *)
  | FileIsEmpty.                              (* "File is empty." *)

(** The line of [print_codes] for entry [i] of the table. *)
Definition code_line (i : nat) (bits : cstring) : stdout_line :=
  if decide (32 ≤ i ∧ i ≤ 126)%nat then PrintableCode i bits else HexCode i bits.

Definition print_codes (codes : list (option cstring)) : run (list stdout_line) :=
  for_range 0 256 (λ i out,
      bits ← load codes i;
      match bits with
      | Some bits => Done (out ++ [code_line i bits])
      | None => Done out
      end) [CodesHeading].

(** What [build_and_show_codes_for_input] leaves behind: the message on
    [stderr] when the file cannot be opened, or the lines on [stdout]. *)
Inductive shown : Type :=
  | CannotOpenInput                 (* "Cannot open '%s' to build codes" *)
  | Printed (out : list stdout_line).

(** [input] is [None] for a path that [fopen] cannot open. *)
Definition build_and_show_codes_for_input (input : option (list byte))
    : run shown :=
  match input with
  | None => Done CannotOpenInput
  | Some input =>
      let freq := replicate 256 0 in
      '(freq, total) ← count_pass input freq 0;
      if decide (total = 0) then Done (Printed [FileIsEmpty])
      else
        root ← build_huffman_tree freq;
        codes ← generate_codes root (replicate 256 None);
        out ← print_codes codes;
        Done (Printed out)
  end.

End Huffman2.

(** * Notions used in the statements and in the proofs *)

(** ** Heaps and trees *)

Definition nonnull (p : HuffmanNode) : Prop := p ≠ NULL.

(** The first [size] cells of the array hold the nodes of [l], none NULL. *)
Definition heap_holds (h : MinHeap) (l : list HuffmanNode) : Prop :=
  size h = length l ∧ Forall nonnull l ∧ length (data h) = capacity h ∧
  ∃ rest, data h = (Some <$> l) ++ rest.

(** [frequencies[i]], zero outside the table. *)
Definition entry (frequencies : list Z) (i : nat) : Z :=
  default 0 (frequencies !! i).

(** The byte values below [n] whose count is not zero, in increasing order. *)
Definition symbols_below (frequencies : list Z) (n : nat) : list nat :=
  filter (λ i, 0 < entry frequencies i) (seq 0 n).

(** The test [!node->left && !node->right]. *)
Definition is_leaf (p : HuffmanNode) : bool :=
  match p with
  | Node _ _ NULL NULL => true
  | _ => false
  end.

(** Every node has two children or none. *)
Inductive full : HuffmanNode → Prop :=
  | full_leaf ch f : full (Node ch f NULL NULL)
  | full_node ch f l r : full l → full r → full (Node ch f l r).

(** The bytes at the leaves, from left to right. *)
Fixpoint leaf_chars (p : HuffmanNode) : list byte :=
  match p with
  | NULL => []
  | Node ch _ l r =>
      if is_null l && is_null r then [ch] else leaf_chars l ++ leaf_chars r
  end.

(** The leaf [create_node] makes for byte [i]. *)
Definition leaf_of (frequencies : list Z) (i : nat) : HuffmanNode :=
  Node (nat_to_byte i) (entry frequencies i) NULL NULL.

(** ** Code tables *)

(** The leaves of a tree from left to right, each with the path that leads to
    it, written after [path]. *)
Fixpoint code_paths (p : HuffmanNode) (path : cstring) : list (byte * cstring) :=
  match p with
  | NULL => []
  | Node ch _ l r =>
      if is_null l && is_null r then [(ch, path)]
      else code_paths l (path ++ ["0"%char]) ++ code_paths r (path ++ ["1"%char])
  end.

(** The table after the paths of [kv] have been stored in it, in order. *)
Definition assign (codes : list (option cstring)) (kv : list (byte * cstring))
    : list (option cstring) :=
  foldl (λ codes '(ch, s), <[byte_index ch := Some s]> codes) codes kv.

Fixpoint height (p : HuffmanNode) : nat :=
  match p with
  | NULL => 0
  | Node _ _ l r =>
      if is_null l && is_null r then 0 else S (height l `max` height r)
  end.

Definition not_nul (c : ascii) : Prop := c ≠ "000"%char.

(** [2^-length(code)]. *)
Definition bits_weight (s : cstring) : Q := (2 ^ (- Z.of_nat (length s)))%Q.

Definition code_weight (c : option cstring) : Q :=
  match c with
  | Some s => bits_weight s
  | None => 0%Q
  end.

(** The sum of [2^-length(code)] over the entries of the table that hold a
    code. *)
Definition kraft_sum (codes : list (option cstring)) : Q :=
  foldr (λ c acc, (code_weight c + acc)%Q) 0%Q codes.

Definition paths_weight (kv : list (byte * cstring)) : Q :=
  foldr (λ e acc, (bits_weight e.2 + acc)%Q) 0%Q kv.

(** ** Headers, counts and streams *)

(** The values of a [uint64_t]. *)
Definition in_u64 (x : Z) : Prop := 0 ≤ x < 2 ^ 64.

#[global] Instance in_u64_dec (x : Z) : Decision (in_u64 x).
Proof. unfold in_u64. apply _. Defined.

#[global] Instance byte_eq_dec : EqDecision byte := Byte.byte_eq_dec.

(** How often [v] occurs in [input]. *)
Fixpoint occurrences (v : byte) (input : list byte) : nat :=
  match input with
  | [] => 0
  | c :: rest => (if decide (c = v) then 1 else 0) + occurrences v rest
  end.

(** The sum of the counters of a table, as an integer. *)
Definition table_sum (frequencies : list Z) : Z := foldr Z.add 0 frequencies.

(** The bits the reader can still hand out. *)
Definition bits_left (br : BitReader) : nat :=
  (8 * length (br_fp br) + Z.to_nat (br_bit_count br))%nat.

(** A node the decoder can step down from. *)
Definition inner (p : HuffmanNode) : Prop := full p ∧ is_leaf p = false.

(** The two fields of a header of 2056 bytes. *)
Definition header_total (host : byte_order) (blob : list byte) : Z :=
  u64_value host (take 8 blob).

Definition header_table (host : byte_order) (blob : list byte) : list Z :=
  (fread_u64 host 256 (drop 8 blob)).1.

(** What [decompress_file] does once both [fread] calls have succeeded. *)
Definition decode_body (total_chars : Z) (frequencies : list Z)
    (input : list byte) : run result :=
  root ← Huffman.build_huffman_tree frequencies;
  if is_null root && bool_decide (0 < total_chars) then
    Done {| ret := 0; output := None; stderr := [TreeRebuildFailed] |}
  else
    '(uniqueCount, onlyChar) ← for_range 0 256 (λ i '(uniqueCount, onlyChar),
        f ← load frequencies i;
        Done (if decide (0 < f) then (S uniqueCount, nat_to_byte i)
              else (uniqueCount, onlyChar))) (O, "000"%byte);
    if decide (uniqueCount = 1)%nat then
      Done {| ret := 1;
              output := Some (replicate (Z.to_nat total_chars) onlyChar);
              stderr := [] |}
    else
      let br := Huffman.bitreader_create input in
      '(written, out, printed) ←
        Huffman.decode_loop (S (8 * length input)) br root root 0 total_chars [];
      Done {| ret := if decide (written = total_chars) then 1 else 0;
              output := Some out; stderr := printed |}.

(** The failure of a header read: nothing written, one of the two header
    messages printed. *)
Definition is_truncated_header (r : result) : Prop :=
  ret r = 0 ∧ output r = None
  ∧ (stderr r = [CannotReadSize] ∨ stderr r = [CannotReadTable]).

(** The header [compress_file] writes: the count, then the table. *)
Definition blob_header (host : byte_order) (total : Z) (f : list Z) : list byte :=
  fwrite_u64 host f (fwrite_u64 host [total] []).

(** ** Bit order *)

(** A bit as the character of a code and as the [int] handed to the writer. *)
Definition bit_char (b : bool) : ascii := if b then "1"%char else "0"%char.
Definition bit_value (b : bool) : Z := if b then 1 else 0.

(** The value of up to eight bits, the first one weighing [weight]. *)
Fixpoint msb_value (bits : list bool) (weight : Z) : Z :=
  match bits with
  | [] => 0
  | b :: bits' => bit_value b * weight + msb_value bits' (weight / 2)
  end.

Definition msb_byte (bits : list bool) : byte := Z_to_byte (msb_value bits 128).

(** Bits packed eight to a byte, the first bit in the most significant
    position, the last byte filled up with zeros. *)
Fixpoint pack_msb (s : list bool) : list byte :=
  match s with
  | [] => []
  | b0 :: b1 :: b2 :: b3 :: b4 :: b5 :: b6 :: b7 :: rest =>
      msb_byte [b0; b1; b2; b3; b4; b5; b6; b7] :: pack_msb rest
  | _ => [msb_byte s]
  end.

(** The bits of a byte from the least significant one up. *)
Definition lsb_bits_of (x : Z) : list Z :=
  (λ i, Z.land (Z.shiftr x i) 1) <$> [0; 1; 2; 3; 4; 5; 6; 7].

Definition lsb_bits (b : byte) : list Z := lsb_bits_of (byte_to_Z b).

(** What [n] calls of [bitreader_read_bit] hand out, up to the first 0. *)
Fixpoint read_bits (n : nat) (br : BitReader) : list Z :=
  match n with
  | O => []
  | S n' =>
      match Huffman.bitreader_read_bit br with
      | (br', Some bit) => bit :: read_bits n' br'
      | (_, None) => []
      end
  end.

(** The bits still to come out of a reader. *)
Definition pending (br : BitReader) : list Z :=
  drop (8 - Z.to_nat (br_bit_count br)) (lsb_bits_of (br_buffer br))
  ++ (br_fp br ≫= lsb_bits).

(** ** Sample inputs *)

Definition sample_ab : list byte := ["a"; "b"]%byte.
Definition sample_abracadabra : list byte :=
  ["a"; "b"; "r"; "a"; "c"; "a"; "d"; "a"; "b"; "r"; "a"]%byte.

(** The table of "abracadabra": a:5, b:2, c:1, d:1, r:2. *)
Definition sample_table : list Z :=
  <[97%nat := 5]> (<[98%nat := 2]> (<[99%nat := 1]> (<[100%nat := 1]>
    (<[114%nat := 2]> (replicate 256 0))))).

Definition sample_single_table : list Z := <[65%nat := 4]> (replicate 256 0).

(** The file a call wrote, empty when it wrote none. *)
Definition output_of (r : run result) : list byte :=
  match r with
  | Done r => default [] (output r)
  | _ => []
  end.

(** ** The order of the heap *)

(** [node->freq], 0 for NULL. *)
Definition weight (p : HuffmanNode) : Z :=
  match p with NULL => 0 | Node _ f _ _ => f end.

(** Cell [c] is a child of cell [i] in the array layout of the heap. *)
Definition child (i c : nat) : Prop := c = (2 * i + 1)%nat ∨ c = (2 * i + 2)%nat.

(** No node weighs less than its parent. *)
Definition heap_ordered (l : list HuffmanNode) : Prop :=
  ∀ i c x y, child i c → l !! i = Some x → l !! c = Some y → weight x ≤ weight y.

(** The order with one cell left out of account: the cell may weigh less than
    its parent (on the way up) or more than its children (on the way down),
    while its parent does not weigh more than its children. *)
Definition ordered_but_above (l : list HuffmanNode) (idx : nat) : Prop :=
  (∀ i c x y, child i c → c ≠ idx →
     l !! i = Some x → l !! c = Some y → weight x ≤ weight y)
  ∧ (∀ p c x y, child p idx → child idx c →
     l !! p = Some x → l !! c = Some y → weight x ≤ weight y).

Definition ordered_but_below (l : list HuffmanNode) (idx : nat) : Prop :=
  (∀ i c x y, child i c → i ≠ idx →
     l !! i = Some x → l !! c = Some y → weight x ≤ weight y)
  ∧ (∀ p c x y, child p idx → child idx c →
     l !! p = Some x → l !! c = Some y → weight x ≤ weight y).

(** ** Huffman's rule *)

(** What a file costs when its symbols, given with their counts, are coded
    at the given depths: the sum of count times depth. *)
Definition spend (a : list (Z * nat)) : Z :=
  foldr (λ e acc, e.1 * Z.of_nat e.2 + acc) 0 a.

(** The Kraft sum of a list of depths, scaled by [2^H]. *)
Definition kraft_at (H : nat) (ds : list nat) : Z :=
  foldr (λ d acc, 2 ^ Z.of_nat (H - d) + acc) 0 ds.

(** The depths of the leaves of some full tree of height at most [H]. *)
Definition complete (H : nat) (ds : list nat) : Prop :=
  Forall (λ d, (d ≤ H)%nat) ds ∧ kraft_at H ds = 2 ^ Z.of_nat H.

(** Huffman's rule on a bag of weights: take two least weights out, put their
    sum back, until one weight is left; the sums add up to the cost. *)
Inductive greedy : list Z → Z → Prop :=
  | greedy_one w : greedy [w] 0
  | greedy_step ws a b rest c :
      ws ≡ₚ a :: b :: rest →
      (∀ x, x ∈ ws → a ≤ x) → (∀ x, x ∈ rest → b ≤ x) →
      greedy ((a + b) :: rest) c →
      greedy ws (a + b + c).

(** ** Counts and weighted path length of a tree *)

(** The leaves of a tree from left to right, each with its count. *)
Fixpoint leaf_counts (p : HuffmanNode) : list (byte * Z) :=
  match p with
  | NULL => []
  | Node ch f l r =>
      if is_null l && is_null r then [(ch, f)] else leaf_counts l ++ leaf_counts r
  end.

(** The count of every leaf with the depth of the leaf, for a root at depth
    [d]. *)
Fixpoint depths_from (p : HuffmanNode) (d : nat) : list (Z * nat) :=
  match p with
  | NULL => []
  | Node _ f l r =>
      if is_null l && is_null r then [(f, d)]
      else depths_from l (S d) ++ depths_from r (S d)
  end.

(** The weighted path length of a tree: the number of code bits a file with
    the counts at the leaves takes. *)
Definition path_cost (p : HuffmanNode) : Z := spend (depths_from p 0).

(** Every inner node carries the sum of the counts of its two children. *)
Fixpoint summed (p : HuffmanNode) : Prop :=
  match p with
  | NULL => True
  | Node _ f l r =>
      if is_null l && is_null r then True
      else f = weight l + weight r ∧ summed l ∧ summed r
  end.

(** ** Code words and bit streams *)

(** The bit a character of a code stands for: 1 for '1', 0 for any other. *)
Definition char_bit (c : ascii) : bool := bool_decide (c = "1"%char).

(** The code of a byte in a table, empty where the table has none. *)
Definition code_of (codes : list (option cstring)) (c : byte) : cstring :=
  match codes !! byte_index c with
  | Some (Some s) => s
  | _ => []
  end.

(** The codes of the bytes of a file, one after the other. *)
Definition code_bits (codes : list (option cstring)) (input : list byte)
    : cstring :=
  input ≫= code_of codes.

(** A bit sequence as it comes back when every byte it was packed into with
    [pack_msb] is taken apart from its least significant bit: each group of
    eight in reverse, the last group filled up with zeros first. *)
Fixpoint lsb_view (s : list bool) : list bool :=
  match s with
  | [] => []
  | b0 :: b1 :: b2 :: b3 :: b4 :: b5 :: b6 :: b7 :: rest =>
      [b7; b6; b5; b4; b3; b2; b1; b0] ++ lsb_view rest
  | _ => reverse (s ++ replicate (8 - length s) false)
  end.

(** The bits a file takes under a list of code words, when [count] tells how
    often each byte occurs in it. *)
Definition codes_cost (count : byte → Z) (kv : list (byte * cstring)) : Z :=
  foldr (λ e acc, count e.1 * Z.of_nat (length e.2) + acc) 0 kv.

(** * Proofs *)

#[local] Arguments Nat.div : simpl never.
#[local] Arguments Nat.modulo : simpl never.
#[local] Arguments u64 : simpl never.

(** One step of a call whose first part has returned. *)
Ltac run_step := cbn [mbind run_bind].

(** ** Array accesses and loops *)

Lemma load_lookup {A} (a : list A) (i : nat) (x : A) :
  a !! i = Some x → load a i = Done x.
Proof. intros H. unfold load. by rewrite H. Qed.

Lemma store_lt {A} (a : list A) (i : nat) (x : A) :
  (i < length a)%nat → store a i x = Done (<[i := x]> a).
Proof. intros H. unfold store. by rewrite decide_True. Qed.

Lemma cell_lookup {A} (a : list (option A)) (i : nat) (x : A) :
  a !! i = Some (Some x) → cell a i = Done x.
Proof. intros H. unfold cell. by rewrite (load_lookup _ _ _ H). Qed.

Lemma cell_live {A} (l : list A) (rest : list (option A)) (i : nat) (x : A) :
  l !! i = Some x → cell ((Some <$> l) ++ rest) i = Done x.
Proof.
  intros H. apply cell_lookup.
  rewrite lookup_app_l.
  - by rewrite list_lookup_fmap, H.
  - rewrite length_fmap. by eapply lookup_lt_Some.
Qed.

Lemma store_live {A} (l : list A) (rest : list (option A)) (i : nat) (x : A) :
  (i < length l)%nat →
  store ((Some <$> l) ++ rest) i (Some x) = Done ((Some <$> <[i := x]> l) ++ rest).
Proof.
  intros H. rewrite store_lt.
  - rewrite insert_app_l by (by rewrite length_fmap).
    by rewrite list_fmap_insert.
  - rewrite length_app, length_fmap. lia.
Qed.

Lemma for_range_inv {S} (I : nat → S → Prop) (body : nat → S → run S)
    (count lo : nat) (s : S) :
  I lo s →
  (∀ i s, (lo ≤ i < lo + count)%nat → I i s →
     ∃ s', body i s = Done s' ∧ I (Datatypes.S i) s') →
  ∃ s', for_range lo count body s = Done s' ∧ I (lo + count)%nat s'.
Proof.
  revert lo s. induction count as [|count IH]; intros lo s H0 Hstep.
  - exists s. split; [done|]. by rewrite Nat.add_0_r.
  - destruct (Hstep lo s) as (s1 & Hb & H1); [lia|done|].
    destruct (IH (Datatypes.S lo) s1) as (s2 & Hr & H2); [done| |].
    + intros i s' Hi. apply Hstep. lia.
    + exists s2. simpl. rewrite Hb. simpl. split; [done|].
      by replace (lo + Datatypes.S count)%nat with (Datatypes.S lo + count)%nat by lia.
Qed.

(** ** Exchanging two cells permutes the array *)

Lemma insert_cons_perm {A} (l : list A) (i : nat) (x y : A) :
  l !! i = Some y → y :: <[i := x]> l ≡ₚ x :: l.
Proof.
  revert i. induction l as [|z l IH]; intros [|i] H; simplify_eq/=.
  - apply perm_swap.
  - etrans; [apply perm_swap|]. etrans; [|apply perm_swap].
    constructor. by apply IH.
Qed.

Lemma swap_perm {A} (l : list A) (a b : nat) (x y : A) :
  l !! a = Some x → l !! b = Some y → <[b := x]> (<[a := y]> l) ≡ₚ l.
Proof.
  revert a b. induction l as [|z l IH]; intros [|a] [|b] Ha Hb; simplify_eq/=.
  - done.
  - by apply insert_cons_perm.
  - by apply insert_cons_perm.
  - constructor. by apply IH.
Qed.

Lemma get_freq_nonnull p : nonnull p → ∃ f, get_freq p = Done f.
Proof. destruct p; [done|]. eauto. Qed.

Lemma heap_swap_live (l : list HuffmanNode) rest a b x y :
  l !! a = Some x → l !! b = Some y →
  Huffman.heap_swap ((Some <$> l) ++ rest) a b
  = Done ((Some <$> <[b := x]> (<[a := y]> l)) ++ rest).
Proof.
  intros Ha Hb. unfold Huffman.heap_swap.
  rewrite (cell_live _ _ _ _ Ha), (cell_live _ _ _ _ Hb). simpl.
  rewrite store_live by (by eapply lookup_lt_Some). simpl.
  rewrite store_live; [done|]. rewrite length_insert. by eapply lookup_lt_Some.
Qed.

Lemma with_data_id h : with_data h (data h) = h.
Proof. by destruct h. Qed.

Lemma half_lt (idx : nat) : (0 < idx)%nat → ((idx - 1) / 2 < idx)%nat.
Proof. intros H. apply Nat.Div0.div_lt_upper_bound. lia. Qed.

Lemma heapify_up_loop_live fuel h idx l rest :
  data h = (Some <$> l) ++ rest → Forall nonnull l →
  (idx < length l)%nat → (idx ≤ fuel)%nat →
  ∃ l', Huffman.heapify_up_loop fuel h idx
        = Done (with_data h ((Some <$> l') ++ rest)) ∧ l' ≡ₚ l.
Proof.
  revert h idx l. induction fuel as [|fuel IH]; intros h idx l Hd Hnn Hidx Hfuel.
  - assert (idx = 0)%nat as -> by lia. exists l. simpl.
    rewrite <- Hd, with_data_id. done.
  - simpl. destruct (decide (0 < idx)%nat) as [Hpos|Hz].
    2:{ exists l. rewrite <- Hd, with_data_id. done. }
    pose proof (half_lt idx Hpos) as Hpar.
    destruct (lookup_lt_is_Some_2 l ((idx - 1) / 2)) as [p Hp]; [lia|].
    destruct (lookup_lt_is_Some_2 l idx) as [c Hc]; [lia|].
    destruct (get_freq_nonnull p) as [pf Hpf].
    { eapply Forall_lookup_1; eauto. }
    destruct (get_freq_nonnull c) as [cf Hcf].
    { eapply Forall_lookup_1; eauto. }
    rewrite Hd, (cell_live _ _ _ _ Hp), (cell_live _ _ _ _ Hc). simpl.
    rewrite Hpf, Hcf. simpl.
    destruct (decide (pf ≤ cf)).
    { exists l. rewrite <- Hd, with_data_id. done. }
    rewrite (heap_swap_live _ _ _ _ _ _ Hp Hc). simpl.
    pose proof (swap_perm l _ _ _ _ Hp Hc) as Hperm.
    destruct (IH (with_data h ((Some <$> <[idx:=p]> (<[((idx - 1) / 2)%nat:=c]> l)) ++ rest))
                ((idx - 1) / 2)%nat (<[idx:=p]> (<[((idx - 1) / 2)%nat:=c]> l)))
      as (l' & Hl' & Hp'); [done| | | |].
    + by rewrite Hperm.
    + rewrite !length_insert. lia.
    + lia.
    + exists l'. rewrite Hl'. split; [done|]. by rewrite Hp'.
Qed.

Lemma pick_smaller_live h l rest child smallest :
  data h = (Some <$> l) ++ rest → Forall nonnull l → (size h ≤ length l)%nat →
  ((child < size h)%nat → (smallest < length l)%nat) →
  ∃ s, Huffman.pick_smaller h child smallest = Done s
       ∧ (s = smallest ∨ (s = child ∧ (child < size h)%nat)).
Proof.
  intros Hd Hnn Hsz Hsm. unfold Huffman.pick_smaller.
  destruct (decide (child < size h)%nat) as [Hc|]; [|eauto].
  destruct (lookup_lt_is_Some_2 l child) as [c Hlc]; [lia|].
  destruct (lookup_lt_is_Some_2 l smallest) as [s Hls]; [auto|].
  destruct (get_freq_nonnull c) as [cf Hcf]; [by eapply Forall_lookup_1|].
  destruct (get_freq_nonnull s) as [sf Hsf]; [by eapply Forall_lookup_1|].
  rewrite Hd, (cell_live _ _ _ _ Hlc), (cell_live _ _ _ _ Hls). simpl.
  rewrite Hcf, Hsf. simpl.
  destruct (decide (cf < sf)); eauto.
Qed.

Lemma heapify_down_loop_live fuel h idx l rest :
  data h = (Some <$> l) ++ rest → Forall nonnull l → (size h ≤ length l)%nat →
  (size h - idx < fuel)%nat →
  ∃ l', Huffman.heapify_down_loop fuel h idx
        = Done (with_data h ((Some <$> l') ++ rest)) ∧ l' ≡ₚ l.
Proof.
  revert h idx l. induction fuel as [|fuel IH]; intros h idx l Hd Hnn Hsz Hfuel.
  { lia. }
  simpl.
  destruct (pick_smaller_live h l rest (idx * 2 + 1) idx) as (s1 & -> & Hs1);
    [done..|lia|].
  simpl.
  destruct (pick_smaller_live h l rest (idx * 2 + 2) s1) as (s2 & -> & Hs2);
    [done..|lia|].
  simpl.
  destruct (decide (s2 = idx)) as [|Hne].
  { exists l. by rewrite <- Hd, with_data_id. }
  assert (idx < s2 < size h)%nat as Hrange by lia.
  destruct (lookup_lt_is_Some_2 l idx) as [x Hx]; [lia|].
  destruct (lookup_lt_is_Some_2 l s2) as [y Hy]; [lia|].
  rewrite Hd, (heap_swap_live _ _ _ _ _ _ Hx Hy). simpl.
  pose proof (swap_perm l _ _ _ _ Hx Hy) as Hperm.
  destruct (IH (with_data h ((Some <$> <[s2:=x]> (<[idx:=y]> l)) ++ rest))
              s2 (<[s2:=x]> (<[idx:=y]> l)))
    as (l' & Hl' & Hp'); [done| | | |].
  - by rewrite Hperm.
  - simpl. rewrite !length_insert. lia.
  - simpl. lia.
  - exists l'. rewrite Hl'. split; [done|]. by rewrite Hp'.
Qed.

(** ** The heap as a bag of nodes *)

Lemma heap_create_holds n : heap_holds (Huffman.heap_create n) [].
Proof.
  repeat split; simpl; [constructor|apply length_replicate|].
  by exists (replicate n None).
Qed.

Lemma heap_insert_holds h l node :
  heap_holds h l → (size h < capacity h)%nat → nonnull node →
  ∃ h' l', Huffman.heap_insert h node = Done h' ∧ heap_holds h' l'
           ∧ l' ≡ₚ node :: l ∧ capacity h' = capacity h.
Proof.
  intros (Hsz & Hnn & Hcap & rest & Hd) Hroom Hnode. unfold Huffman.heap_insert.
  rewrite decide_False by lia.
  assert (length rest = capacity h - size h)%nat as Hrest.
  { rewrite <- Hcap, Hd, length_app, length_fmap. lia. }
  destruct rest as [|r0 rest]; [simpl in Hrest; lia|].
  assert (store (data h) (size h) (Some node)
          = Done ((Some <$> (l ++ [node])) ++ rest)) as ->.
  { rewrite store_lt by lia. f_equal. rewrite Hd, Hsz.
    replace (length l) with (length (Some <$> l) + 0)%nat
      by (rewrite length_fmap; lia).
    rewrite insert_app_r. simpl. by rewrite fmap_app, <- app_assoc. }
  simpl. unfold Huffman.heapify_up.
  destruct (heapify_up_loop_live (size h)
              (with_data h ((Some <$> l ++ [node]) ++ rest)) (size h)
              (l ++ [node]) rest) as (l' & -> & Hperm); [done| | |lia|].
  { apply Forall_app. split; [done|]. by constructor. }
  { rewrite length_app. simpl. lia. }
  simpl. eexists _, l'. split; [done|].
  assert (length l' = S (length l)) as Hlen.
  { rewrite Hperm, length_app. simpl. lia. }
  split; [|split; [|done]].
  - repeat split; simpl.
    + lia.
    + rewrite Hperm. apply Forall_app. split; [done|]. by constructor.
    + rewrite <- Hcap, Hd, !length_app, !length_fmap. simpl. lia.
    + by exists rest.
  - rewrite Hperm. by rewrite Permutation_app_comm.
Qed.

Lemma heap_extract_min_holds h l :
  heap_holds h l → l ≠ [] →
  ∃ min h' l', Huffman.heap_extract_min h = Done (min, h') ∧ heap_holds h' l'
               ∧ l ≡ₚ min :: l' ∧ capacity h' = capacity h.
Proof.
  intros (Hsz & Hnn & Hcap & rest & Hd) Hne. unfold Huffman.heap_extract_min.
  destruct l as [|min tl]; [done|]. simpl in Hsz.
  rewrite decide_False by lia.
  rewrite Hd, (cell_live (min :: tl) rest 0 min) by done. run_step.
  destruct (lookup_lt_is_Some_2 (min :: tl) (size h - 1)) as [last Hlast];
    [simpl; lia|].
  rewrite (cell_live (min :: tl) rest _ last) by done. run_step.
  rewrite (store_live (min :: tl) rest 0 last) by (simpl; lia). run_step.
  unfold Huffman.heapify_down. cbn [size insert list_insert].
  destruct tl as [|x tl _] using rev_ind.
  - destruct (heapify_down_loop_live (S (size h - 1))
        {| data := (Some <$> [last]) ++ rest; capacity := capacity h;
           size := size h - 1 |}
        0 [] (Some last :: rest)) as (l' & -> & Hperm);
      [done|apply Forall_nil_2|simpl in *; lia|simpl; lia|].
    apply Permutation_nil_r in Hperm as ->. run_step.
    eexists min, _, []. split; [done|]. split; [|done].
    repeat split; simpl in *; [lia|constructor|by rewrite <- Hcap, Hd|by eexists].
  - rewrite length_app in Hsz. simpl in Hsz.
    assert (last = x) as ->.
    { replace (size h - 1)%nat with (S (length tl + 0)) in Hlast by lia.
      simpl in Hlast. rewrite lookup_app_r in Hlast by lia.
      replace (length tl + 0 - length tl)%nat with 0%nat in Hlast by lia.
      by simplify_eq/=. }
    destruct (heapify_down_loop_live (S (size h - 1))
        {| data := (Some <$> x :: tl ++ [x]) ++ rest;
           capacity := capacity h; size := size h - 1 |}
        0 (x :: tl) (Some x :: rest)) as (l' & -> & Hperm).
    { simpl. by rewrite fmap_app, <- app_assoc. }
    { apply Forall_cons in Hnn as [_ Hnn]. apply Forall_app in Hnn as [? Hx].
      apply Forall_cons. split; [|done]. by apply Forall_cons in Hx as [? _]. }
    { simpl. lia. }
    { simpl. lia. }
    run_step. eexists min, _, l'. split; [done|].
    assert (length l' = S (length tl)) as Hlen by (by rewrite Hperm).
    split; [|split; [|done]].
    + repeat split; simpl.
      * lia.
      * rewrite Hperm. apply Forall_cons in Hnn as [_ Hnn].
        apply Forall_app in Hnn as [? Hx].
        apply Forall_cons. split; [|done]. by apply Forall_cons in Hx as [? _].
      * rewrite <- Hcap, Hd. simpl.
        rewrite !length_app, !length_fmap, length_app. simpl. lia.
      * by eexists.
    + constructor. rewrite Hperm. by rewrite Permutation_app_comm.
Qed.

(** ** Shape of the trees *)

Lemma full_nonnull p : full p → nonnull p.
Proof. by destruct 1. Qed.

Lemma leaf_chars_node ch f l r :
  full l → leaf_chars (Node ch f l r) = leaf_chars l ++ leaf_chars r.
Proof. by destruct 1. Qed.

Lemma symbols_below_S f n :
  symbols_below f (S n)
  = symbols_below f n ++ (if decide (0 < entry f n) then [n] else []).
Proof.
  unfold symbols_below. rewrite seq_S, filter_app. by f_equal.
Qed.

Lemma symbols_below_mono f i j :
  (i ≤ j)%nat → (length (symbols_below f i) ≤ length (symbols_below f j))%nat.
Proof.
  intros H. unfold symbols_below.
  replace j with (i + (j - i))%nat by lia.
  rewrite seq_app, filter_app, length_app. lia.
Qed.

Lemma load_entry f i : (i < length f)%nat → load f i = Done (entry f i).
Proof.
  intros H. destruct (lookup_lt_is_Some_2 f i H) as [x Hx].
  unfold entry. rewrite (load_lookup _ _ _ Hx), Hx. done.
Qed.

Lemma count_loop f :
  length f = 256%nat →
  for_range 0 256 (λ i uniqueCount,
      f ← load f i;
      Done (if decide (0 < f) then S uniqueCount else uniqueCount)) O
  = Done (length (symbols_below f 256)).
Proof.
  intros Hlen.
  destruct (for_range_inv (λ i n, n = length (symbols_below f i))
    (λ i uniqueCount, f ← load f i;
       Done (if decide (0 < f) then S uniqueCount else uniqueCount))
    256 0 O) as (n & -> & ->); [done| |done].
  intros i n Hi ->. rewrite load_entry by lia. run_step.
  eexists. split; [done|]. rewrite symbols_below_S.
  destruct (decide _); rewrite length_app; simpl; lia.
Qed.

Lemma leaves_loop f cap :
  length f = 256%nat → (length (symbols_below f 256) < cap)%nat →
  ∃ heap l,
    for_range 0 256 (λ i heap,
        f ← load f i;
        if decide (0 < f)
        then Huffman.heap_insert heap (Huffman.create_node (nat_to_byte i) f)
        else Done heap) (Huffman.heap_create cap) = Done heap
    ∧ heap_holds heap l ∧ l ≡ₚ leaf_of f <$> symbols_below f 256
    ∧ capacity heap = cap.
Proof.
  intros Hlen Hcap.
  destruct (for_range_inv
    (λ i heap, ∃ l, heap_holds heap l ∧ l ≡ₚ leaf_of f <$> symbols_below f i
                    ∧ capacity heap = cap)
    (λ i heap, f ← load f i;
       if decide (0 < f)
       then Huffman.heap_insert heap (Huffman.create_node (nat_to_byte i) f)
       else Done heap)
    256 0 (Huffman.heap_create cap)) as (heap & Hrun & l & Hh & Hl & Hc).
  - exists []. split; [apply heap_create_holds|]. done.
  - intros i heap Hi (l & Hh & Hl & Hc). rewrite load_entry by lia. run_step.
    rewrite symbols_below_S. destruct (decide (0 < entry f i)) as [Hpos|Hz].
    + destruct (heap_insert_holds heap l (leaf_of f i) Hh) as (h' & l' & Hins & Hh' & Hl' & Hc');
        [|done|].
      * destruct Hh as (-> & _). rewrite Hc, Hl, length_fmap.
        pose proof (symbols_below_mono f (S i) 256 ltac:(lia)) as Hm.
        rewrite symbols_below_S, decide_True, length_app in Hm by done.
        simpl in Hm. lia.
      * exists h'. split; [done|]. exists l'. split; [done|]. split; [|congruence].
        rewrite Hl', Hl, fmap_app. simpl. by rewrite Permutation_app_comm.
    + exists heap. split; [done|]. exists l. by rewrite app_nil_r.
  - exists heap, l. done.
Qed.

Lemma merge_loop_spec fuel h l :
  heap_holds h l → Forall full l → l ≠ [] →
  (length l ≤ fuel)%nat → (length l ≤ capacity h)%nat →
  ∃ h' root, Huffman.merge_loop fuel h = Done h' ∧ heap_holds h' [root]
    ∧ full root ∧ leaf_chars root ≡ₚ l ≫= leaf_chars
    ∧ (length l = 1%nat → l = [root])
    ∧ ((2 ≤ length l)%nat → is_leaf root = false).
Proof.
  revert h l. induction fuel as [|fuel IH]; intros h l Hh Hfull Hne Hfuel Hcap.
  { destruct l; [done|simpl in Hfuel; lia]. }
  pose proof Hh as (Hsz & _).
  cbn [Huffman.merge_loop]. destruct (decide (1 < size h)%nat) as [Hgt|Hle].
  2:{ destruct l as [|root [|??]]; simpl in *; [done| |lia].
      exists h, root. split; [done|]. split; [done|].
      split; [by apply Forall_cons in Hfull as [? _]|].
      split; [by rewrite app_nil_r|]. split; [done|lia]. }
  destruct (heap_extract_min_holds h l Hh Hne)
    as (a & h1 & l1 & -> & Hh1 & Hl1 & Hc1). run_step.
  assert (length l = S (length l1)) as Hlen1 by (by rewrite Hl1).
  destruct (heap_extract_min_holds h1 l1 Hh1)
    as (b & h2 & l2 & -> & Hh2 & Hl2 & Hc2); [destruct l1; [simpl in *; lia|done]|].
  run_step.
  assert (length l1 = S (length l2)) as Hlen2 by (by rewrite Hl2).
  rewrite Hl1, Hl2 in Hfull.
  apply Forall_cons in Hfull as [Ha Hfull]. apply Forall_cons in Hfull as [Hb Hfull].
  destruct (get_freq_nonnull a (full_nonnull a Ha)) as [af ->].
  destruct (get_freq_nonnull b (full_nonnull b Hb)) as [bf ->].
  run_step. cbn [Huffman.create_node set_left set_right]. run_step.
  cbn [set_right]. run_step.
  set (parent := Node "000" (u64 (af + bf)) a b).
  assert (full parent) as Hp by (by constructor).
  destruct (heap_insert_holds h2 l2 parent Hh2)
    as (h3 & l3 & -> & Hh3 & Hl3 & Hc3); [|by apply full_nonnull|].
  { destruct Hh2 as (-> & _). lia. }
  run_step.
  assert (length l3 = S (length l2)) as Hlen3 by (by rewrite Hl3).
  destruct (IH h3 l3 Hh3) as (h' & root & -> & Hh' & Hroot & Hchars & Hone & Htwo).
  { rewrite Hl3. by constructor. }
  { destruct l3; [simpl in *; lia|done]. }
  { lia. }
  { lia. }
  exists h', root. split; [done|]. split; [done|]. split; [done|].
  split; [|split; [lia|]].
  - rewrite Hchars, Hl3, Hl1, Hl2. subst parent. rewrite !bind_cons.
    rewrite (leaf_chars_node _ _ a b Ha). by rewrite app_assoc.
  - intros _. destruct (decide (length l3 = 1%nat)) as [H1|H1].
    + specialize (Hone H1). rewrite Hone in Hl3, Hlen3.
      destruct l2; [|simpl in Hlen3; lia].
      apply Permutation_singleton_l in Hl3. simplify_eq.
      subst parent. by destruct Ha.
    + apply Htwo. lia.
Qed.

Lemma leaf_forest_chars f (s : list nat) :
  (leaf_of f <$> s) ≫= leaf_chars = nat_to_byte <$> s.
Proof.
  induction s as [|i s IH]; [done|].
  rewrite !fmap_cons, bind_cons, IH. done.
Qed.

Lemma build_huffman_tree_null f :
  length f = 256%nat → symbols_below f 256 = [] →
  Huffman.build_huffman_tree f = Done NULL.
Proof.
  intros Hlen Hs. unfold Huffman.build_huffman_tree.
  rewrite count_loop, Hs by done. done.
Qed.

Lemma build_huffman_tree_spec f :
  length f = 256%nat → symbols_below f 256 ≠ [] →
  ∃ root, Huffman.build_huffman_tree f = Done root ∧ full root
    ∧ leaf_chars root ≡ₚ nat_to_byte <$> symbols_below f 256
    ∧ (∀ v, symbols_below f 256 = [v] → root = leaf_of f v)
    ∧ ((2 ≤ length (symbols_below f 256))%nat → is_leaf root = false).
Proof.
  intros Hlen Hs. unfold Huffman.build_huffman_tree.
  rewrite count_loop by done. run_step.
  destruct (leaves_loop f (length (symbols_below f 256) * 2 + 4) Hlen)
    as (heap & l & Hrun & Hh & Hl & Hcap); [lia|].
  remember (symbols_below f 256) as syms eqn:Hsyms.
  rewrite decide_False by (by destruct syms).
  rewrite Hrun. clear Hrun Hsyms.
  run_step. pose proof Hh as (Hsz & _).
  assert (length l = length syms) as Hll by (by rewrite Hl, length_fmap).
  assert (Forall full l) as Hfull.
  { rewrite Hl. apply Forall_fmap, Forall_true. intros i. constructor. }
  assert (l ≠ []) as Hne.
  { intros ->. destruct syms; [done|simpl in Hll; lia]. }
  destruct (decide (size heap = 1)%nat) as [H1|H1].
  - destruct (heap_extract_min_holds heap l Hh Hne)
      as (min & h' & l' & -> & _ & Hp & _). run_step.
    assert (l' = []) as ->.
    { apply Permutation_length in Hp. destruct l'; [done|]. simpl in *. lia. }
    destruct syms as [|v [|??]]; simpl in *; [done| |lia].
    rewrite Hp in Hl. apply Permutation_singleton_l in Hl. simplify_eq/=.
    exists (leaf_of f v). split; [done|]. split; [constructor|].
    split; [done|]. split; [|lia]. by intros ? [= ->].
  - destruct (merge_loop_spec (size heap) heap l Hh Hfull Hne)
      as (h' & root & -> & Hh' & Hroot & Hchars & _ & Htwo); [lia..|].
    run_step.
    destruct (heap_extract_min_holds h' [root] Hh')
      as (min & h'' & l'' & -> & _ & Hp & _); [done|].
    run_step.
    assert (l'' = []) as ->.
    { apply Permutation_length in Hp. destruct l''; [done|]. simpl in *. lia. }
    apply Permutation_singleton_l in Hp. simplify_eq.
    exists min. split; [done|]. split; [done|].
    split; [by rewrite Hchars, Hl, leaf_forest_chars|].
    split.
    + intros v Hv. rewrite Hv in Hll. simpl in Hll. lia.
    + intros H2. apply Htwo. lia.
Qed.

(** ** Bytes *)

Lemma byte_index_lt b : (byte_index b < 256)%nat.
Proof. unfold byte_index. pose proof (Byte.to_N_bounded b). lia. Qed.

Lemma Z_to_byte_to_N z : 0 ≤ z < 256 → Byte.to_N (Z_to_byte z) = Z.to_N z.
Proof.
  intros Hz. unfold Z_to_byte. rewrite Z.mod_small by done.
  destruct (Byte.of_N (Z.to_N z)) as [b|] eqn:Hb.
  - by apply Byte.to_of_N.
  - apply Byte.of_N_None_iff in Hb. lia.
Qed.

Lemma byte_to_Z_to_byte z : 0 ≤ z < 256 → byte_to_Z (Z_to_byte z) = z.
Proof. intros Hz. unfold byte_to_Z. rewrite Z_to_byte_to_N by done. lia. Qed.

Lemma byte_to_Z_range b : 0 ≤ byte_to_Z b < 256.
Proof. unfold byte_to_Z. pose proof (Byte.to_N_bounded b). lia. Qed.

Lemma Z_to_byte_to_Z b : Z_to_byte (byte_to_Z b) = b.
Proof.
  unfold Z_to_byte. rewrite Z.mod_small by apply byte_to_Z_range.
  unfold byte_to_Z. by rewrite N2Z.id, Byte.of_to_N.
Qed.

Lemma byte_index_nat_to_byte i : (i < 256)%nat → byte_index (nat_to_byte i) = i.
Proof.
  intros Hi. unfold byte_index, nat_to_byte. rewrite Z_to_byte_to_N by lia. lia.
Qed.

Lemma nat_to_byte_index b : nat_to_byte (byte_index b) = b.
Proof.
  unfold nat_to_byte, byte_index. rewrite <- (Z_to_byte_to_Z b) at 2.
  f_equal. unfold byte_to_Z. lia.
Qed.

Lemma byte_index_inj b1 b2 : byte_index b1 = byte_index b2 → b1 = b2.
Proof. intros H. by rewrite <- (nat_to_byte_index b1), H, nat_to_byte_index. Qed.

(** ** Code generation *)

Lemma strdup_live (path : cstring) rest :
  Forall not_nul path →
  strdup ((Some <$> path) ++ Some "000"%char :: rest) = Done path.
Proof.
  induction 1 as [|c path Hc _ IH].
  - done.
  - rewrite fmap_cons. cbn [app strdup].
    rewrite decide_False by done. by rewrite IH.
Qed.

Lemma length_assign codes kv : length (assign codes kv) = length codes.
Proof.
  revert codes. induction kv as [|[ch s] kv IH]; intros codes; [done|].
  simpl. by rewrite IH, length_insert.
Qed.

Lemma assign_app codes kv1 kv2 :
  assign codes (kv1 ++ kv2) = assign (assign codes kv1) kv2.
Proof. apply foldl_app. Qed.

Lemma store_next (path : cstring) (c : ascii) r0 rest :
  store ((Some <$> path) ++ r0 :: rest) (length path) (Some c)
  = Done ((Some <$> path) ++ Some c :: rest).
Proof.
  rewrite store_lt by (rewrite length_app, length_fmap; simpl; lia).
  f_equal.
  replace (length path) with (length (Some <$> path) + 0)%nat
    by (rewrite length_fmap; lia).
  by rewrite insert_app_r.
Qed.

Lemma full_not_null p : full p → is_null p = false.
Proof. by destruct 1. Qed.

Lemma generate_codes_recursive_spec node :
  full node → ∀ path rest codes,
  Forall not_nul path → (height node < length rest)%nat →
  length codes = 256%nat →
  ∃ rest',
    Huffman.generate_codes_recursive node ((Some <$> path) ++ rest)
      (length path) codes
    = Done ((Some <$> path) ++ rest', assign codes (code_paths node path))
    ∧ length rest' = length rest.
Proof.
  induction 1 as [ch f|ch f l r Hl IHl Hr IHr]; intros path rest codes Hpath Hh Hcodes.
  - cbn [Huffman.generate_codes_recursive is_null andb code_paths].
    destruct rest as [|r0 rest]; [simpl in Hh; lia|].
    rewrite store_next. run_step. rewrite strdup_live by done. run_step.
    rewrite store_lt by (rewrite Hcodes; apply byte_index_lt). run_step.
    by eexists.
  - cbn [Huffman.generate_codes_recursive code_paths height] in *.
    rewrite (full_not_null l Hl), (full_not_null r Hr) in *. cbn [andb] in *.
    destruct rest as [|r0 rest]; [simpl in Hh; lia|].
    rewrite store_next. run_step.
    replace (length path + 1)%nat with (length (path ++ ["0"%char]))
      by (rewrite length_app; done).
    replace ((Some <$> path) ++ Some "0"%char :: rest)
      with ((Some <$> path ++ ["0"%char]) ++ rest)
      by (by rewrite fmap_app, <- app_assoc).
    destruct (IHl (path ++ ["0"%char]) rest codes) as (rest1 & -> & Hlen1).
    { apply Forall_app. split; [done|]. by constructor. }
    { simpl in Hh. lia. }
    { done. }
    run_step. rewrite fmap_app, <- app_assoc. cbn [fmap list_fmap app].
    rewrite store_next. run_step.
    replace (length (path ++ ["0"%char])) with (length (path ++ ["1"%char]))
      by (by rewrite !length_app).
    replace ((Some <$> path) ++ Some "1"%char :: rest1)
      with ((Some <$> path ++ ["1"%char]) ++ rest1)
      by (by rewrite fmap_app, <- app_assoc).
    destruct (IHr (path ++ ["1"%char]) rest1 (assign codes (code_paths l (path ++ ["0"%char]))))
      as (rest2 & -> & Hlen2).
    { apply Forall_app. split; [done|]. by constructor. }
    { simpl in Hh. lia. }
    { by rewrite length_assign. }
    exists (Some "1"%char :: rest2). split.
    + by rewrite fmap_app, <- app_assoc, assign_app.
    + simpl. lia.
Qed.

Lemma init_codes_loop (codes : list (option cstring)) :
  length codes = 256%nat →
  for_range 0 256 (λ i codes, store codes i None) codes
  = Done (replicate 256 None).
Proof.
  intros Hlen.
  destruct (for_range_inv
    (λ i (c : list (option cstring)), c = replicate i None ++ drop i codes)
    (λ i codes, store codes i None) 256 0 codes) as (c & -> & ->).
  - done.
  - intros i c Hi ->.
    destruct (lookup_lt_is_Some_2 codes i) as [x Hx]; [lia|].
    rewrite (drop_S _ _ _ Hx).
    rewrite store_lt by (rewrite length_app, length_replicate; simpl; lia).
    eexists. split; [done|].
    replace i with (length (replicate i (@None cstring)) + 0)%nat at 1
      by (rewrite length_replicate; lia).
    rewrite insert_app_r.
    by rewrite replicate_S_end, <- app_assoc.
  - by rewrite drop_ge, app_nil_r by lia.
Qed.

Lemma height_lt_leaves p : full p → (height p < length (leaf_chars p))%nat.
Proof.
  induction 1 as [ch f|ch f l r Hl IHl Hr IHr]; simpl; [lia|].
  rewrite (full_not_null l Hl). simpl. rewrite length_app. lia.
Qed.

Lemma code_paths_chars p path : (code_paths p path).*1 = leaf_chars p.
Proof.
  revert path. induction p as [|ch f l IHl r IHr]; intros path; simpl; [done|].
  destruct (is_null l && is_null r); [done|].
  by rewrite fmap_app, IHl, IHr.
Qed.

Lemma code_paths_prefix p path e : e ∈ code_paths p path → path `prefix_of` e.2.
Proof.
  revert path. induction p as [|ch f l IHl r IHr]; intros path; simpl.
  - by intros ?%elem_of_nil.
  - destruct (is_null l && is_null r).
    + by intros ->%list_elem_of_singleton.
    + intros [H|H]%elem_of_app.
      * apply IHl in H. etrans; [|done]. by apply prefix_app_r.
      * apply IHr in H. etrans; [|done]. by apply prefix_app_r.
Qed.

Lemma branches_apart (path s : cstring) :
  path ++ ["0"%char] `prefix_of` s → path ++ ["1"%char] `prefix_of` s → False.
Proof.
  intros H0 H1.
  destruct (prefix_weak_total _ _ _ H0 H1) as [H|H];
    apply prefix_app_inv, prefix_cons_inv_1 in H; done.
Qed.

(** Two leaves of a tree never have one path a prefix of the other. *)
Lemma code_paths_prefix_free p path e1 e2 :
  e1 ∈ code_paths p path → e2 ∈ code_paths p path →
  e1.2 `prefix_of` e2.2 → e1 = e2.
Proof.
  revert path. induction p as [|ch f l IHl r IHr]; intros path; simpl.
  - by intros ?%elem_of_nil.
  - destruct (is_null l && is_null r).
    + by intros ->%list_elem_of_singleton ->%list_elem_of_singleton.
    + intros [H1|H1]%elem_of_app [H2|H2]%elem_of_app Hpre.
      * by eapply IHl.
      * apply code_paths_prefix in H1, H2. exfalso.
        eapply (branches_apart path e2.2); [|done]. by etrans.
      * apply code_paths_prefix in H1, H2. exfalso.
        eapply (branches_apart path e2.2); [done|]. by etrans.
      * by eapply IHr.
Qed.

Lemma code_paths_bits p path e :
  Forall (λ c, c = "0"%char ∨ c = "1"%char) path →
  e ∈ code_paths p path → Forall (λ c, c = "0"%char ∨ c = "1"%char) e.2.
Proof.
  revert path. induction p as [|ch f l IHl r IHr]; intros path Hpath; simpl.
  - by intros ?%elem_of_nil.
  - destruct (is_null l && is_null r).
    + by intros ->%list_elem_of_singleton.
    + intros [H|H]%elem_of_app.
      * eapply IHl; [|done]. apply Forall_app. split; [done|]. constructor; auto.
      * eapply IHr; [|done]. apply Forall_app. split; [done|]. constructor; auto.
Qed.

Lemma code_paths_longer p path e :
  is_leaf p = false → e ∈ code_paths p path → (length path < length e.2)%nat.
Proof.
  destruct p as [|ch f l r]; simpl; [by intros _ ?%elem_of_nil|].
  intros Hleaf. destruct (is_null l && is_null r) eqn:Hn.
  { by destruct l, r. }
  intros [H|H]%elem_of_app; apply code_paths_prefix, prefix_length in H;
    rewrite length_app in H; simpl in H; lia.
Qed.

(** What [assign] leaves in the table. *)
Lemma assign_other codes kv i :
  (∀ e, e ∈ kv → byte_index e.1 ≠ i) → assign codes kv !! i = codes !! i.
Proof.
  revert codes. induction kv as [|[ch s] kv IH]; intros codes Hkv; [done|].
  simpl. rewrite IH.
  - apply list_lookup_insert_ne. apply (Hkv (ch, s)). by left.
  - intros e He. apply Hkv. by right.
Qed.

Lemma assign_elem codes kv ch s :
  NoDup kv.*1 → length codes = 256%nat → (ch, s) ∈ kv →
  assign codes kv !! byte_index ch = Some (Some s).
Proof.
  revert codes. induction kv as [|[c0 s0] kv IH]; intros codes Hnd Hlen Hin.
  { by apply elem_of_nil in Hin. }
  rewrite fmap_cons in Hnd. apply NoDup_cons in Hnd as [Hc0 Hnd]. simpl.
  apply elem_of_cons in Hin as [[= -> ->]|Hin].
  - rewrite assign_other.
    + apply list_lookup_insert_eq. rewrite Hlen. apply byte_index_lt.
    + intros [c' s'] He Heq. simpl in *. apply byte_index_inj in Heq as ->.
      apply Hc0. apply list_elem_of_fmap. by exists (c0, s').
  - apply IH; [done|by rewrite length_insert|done].
Qed.

Lemma assign_Some codes kv i s :
  assign codes kv !! i = Some (Some s) →
  codes !! i = Some (Some s) ∨ ∃ ch, i = byte_index ch ∧ (ch, s) ∈ kv.
Proof.
  revert codes. induction kv as [|[c0 s0] kv IH]; intros codes H; [by left|].
  simpl in H. apply IH in H as [H|(ch & -> & H)].
  - apply list_lookup_insert_Some in H as [(Hi & [= ->] & _)|(_ & H)].
    + right. exists c0. split; [done|]. by left.
    + by left.
  - right. exists ch. split; [done|]. by right.
Qed.

(** ** Kraft sum *)

Lemma kraft_sum_replicate n : (kraft_sum (replicate n None) == 0)%Q.
Proof.
  induction n as [|n IH]; simpl; [reflexivity|].
  rewrite IH. reflexivity.
Qed.

Lemma kraft_sum_insert codes i s :
  codes !! i = Some None →
  (kraft_sum (<[i := Some s]> codes) == kraft_sum codes + bits_weight s)%Q.
Proof.
  revert i. induction codes as [|c codes IH]; intros [|i] H; simplify_eq/=.
  - ring.
  - rewrite (IH i H). ring.
Qed.

Lemma paths_weight_app kv1 kv2 :
  (paths_weight (kv1 ++ kv2) == paths_weight kv1 + paths_weight kv2)%Q.
Proof.
  induction kv1 as [|e kv1 IH]; simpl; [ring|]. rewrite IH. ring.
Qed.

Lemma kraft_sum_assign codes kv :
  NoDup kv.*1 → (∀ e, e ∈ kv → codes !! byte_index e.1 = Some None) →
  (kraft_sum (assign codes kv) == kraft_sum codes + paths_weight kv)%Q.
Proof.
  revert codes. induction kv as [|[ch s] kv IH]; intros codes Hnd Hfree.
  { simpl. ring. }
  rewrite fmap_cons in Hnd. apply NoDup_cons in Hnd as [Hch Hnd]. simpl.
  rewrite IH; [|done|].
  - rewrite kraft_sum_insert by (apply (Hfree (ch, s)); by left). ring.
  - intros [c' s'] He. simpl. rewrite list_lookup_insert_ne.
    + apply (Hfree (c', s')). by right.
    + intros Heq. apply byte_index_inj in Heq as ->.
      apply Hch. apply list_elem_of_fmap. by exists (c', s').
Qed.

Lemma bits_weight_snoc (path : cstring) (c d : ascii) :
  (bits_weight (path ++ [c]) + bits_weight (path ++ [d]) == bits_weight path)%Q.
Proof.
  unfold bits_weight. rewrite !length_app. simpl.
  replace (- Z.of_nat (length path + 1)) with (- Z.of_nat (length path) + -1) by lia.
  rewrite Qpower_plus by done.
  change (2 ^ (-1))%Q with (1 # 2)%Q. ring.
Qed.

Lemma paths_weight_full p path :
  full p → (paths_weight (code_paths p path) == bits_weight path)%Q.
Proof.
  intros Hp. revert path.
  induction Hp as [ch f|ch f l r Hl IHl Hr IHr]; intros path; simpl.
  - ring.
  - rewrite (full_not_null l Hl). simpl.
    rewrite paths_weight_app, IHl, IHr. apply bits_weight_snoc.
Qed.

(** ** The code table of a built tree *)

Lemma generate_codes_leaf ch f codes :
  length codes = 256%nat →
  Huffman.generate_codes (Node ch f NULL NULL) codes
  = Done (<[byte_index ch := Some ["0"%char]]> (replicate 256 None)).
Proof.
  intros Hlen. unfold Huffman.generate_codes.
  rewrite init_codes_loop by done. run_step. cbn [is_null andb].
  rewrite store_lt by (rewrite length_replicate; lia). run_step.
  rewrite store_lt by (rewrite length_insert, length_replicate; lia). run_step.
  change (strdup _) with (Done ["0"%char]). run_step.
  apply store_lt. rewrite length_replicate. apply byte_index_lt.
Qed.

Lemma generate_codes_inner root codes :
  full root → is_leaf root = false → (height root < 512)%nat →
  length codes = 256%nat →
  Huffman.generate_codes root codes
  = Done (assign (replicate 256 None) (code_paths root [])).
Proof.
  intros Hfull Hleaf Hh Hlen. unfold Huffman.generate_codes.
  rewrite init_codes_loop by done. run_step.
  destruct (generate_codes_recursive_spec root Hfull [] (replicate 512 None)
              (replicate 256 None)) as (rest' & Hrun & _).
  { constructor. }
  { by rewrite length_replicate. }
  { by rewrite length_replicate. }
  destruct Hfull as [ch f|ch f l r Hl Hr]; [done|].
  rewrite (full_not_null l Hl). cbn [andb].
  change (Huffman.generate_codes_recursive (Node ch f l r) (replicate 512 None) 0
            (replicate 256 None))
    with (Huffman.generate_codes_recursive (Node ch f l r)
            ((Some <$> []) ++ replicate 512 None) (length (@nil ascii))
            (replicate 256 None)).
  by rewrite Hrun.
Qed.

Lemma elem_of_symbols_below f n i :
  i ∈ symbols_below f n ↔ (i < n)%nat ∧ 0 < entry f i.
Proof.
  unfold symbols_below. rewrite list_elem_of_filter, elem_of_seq.
  split; intros [? ?]; split; (done || lia).
Qed.

Lemma NoDup_symbol_bytes f : NoDup (nat_to_byte <$> symbols_below f 256).
Proof.
  apply NoDup_fmap_2_strong.
  - intros i j [Hi _]%elem_of_symbols_below [Hj _]%elem_of_symbols_below Heq.
    by rewrite <- (byte_index_nat_to_byte i), Heq, byte_index_nat_to_byte.
  - apply NoDup_filter, NoDup_seq.
Qed.

Lemma length_symbols_below f n : (length (symbols_below f n) ≤ n)%nat.
Proof.
  unfold symbols_below. etrans; [apply length_filter|]. by rewrite length_seq.
Qed.

(** The table [assign] fills from the paths of a tree whose leaves are the
    bytes of [syms]. *)
Lemma table_lookup root f k s :
  leaf_chars root ≡ₚ nat_to_byte <$> symbols_below f 256 →
  assign (replicate 256 None) (code_paths root []) !! k = Some (Some s)
  ↔ (k < 256)%nat ∧ 0 < entry f k ∧ (nat_to_byte k, s) ∈ code_paths root [].
Proof.
  intros Hchars.
  assert (NoDup (code_paths root []).*1) as Hnd.
  { rewrite code_paths_chars, Hchars. apply NoDup_symbol_bytes. }
  split.
  - intros [H|(ch & -> & Hin)]%assign_Some.
    { apply lookup_replicate in H as [? _]. done. }
    assert (ch ∈ (code_paths root []).*1) as Hch.
    { apply list_elem_of_fmap. by exists (ch, s). }
    rewrite code_paths_chars, Hchars in Hch.
    apply list_elem_of_fmap in Hch as (i & -> & [Hi Hpos]%elem_of_symbols_below).
    rewrite byte_index_nat_to_byte by done. done.
  - intros (Hk & Hpos & Hin).
    rewrite <- (byte_index_nat_to_byte k) at 1 by done.
    apply assign_elem; [done|by rewrite length_replicate|done].
Qed.

(** ** The header on disk *)

Lemma length_le_bytes n x : length (le_bytes n x) = n.
Proof. revert x. induction n as [|n IH]; intros x; simpl; [done|]. by rewrite IH. Qed.

Lemma le_value_bytes n x : 0 ≤ x < 256 ^ Z.of_nat n → le_value (le_bytes n x) = x.
Proof.
  revert x. induction n as [|n IH]; intros x Hx.
  - simpl in *. lia.
  - cbn [le_bytes le_value].
    rewrite byte_to_Z_to_byte by (apply Z.mod_pos_bound; lia).
    rewrite IH.
    + pose proof (Z.div_mod x 256). lia.
    + rewrite Nat2Z.inj_succ, Z.pow_succ_r in Hx by lia.
      split; [apply Z.div_pos; lia|]. apply Z.div_lt_upper_bound; lia.
Qed.

Lemma le_value_range bs : 0 ≤ le_value bs < 256 ^ Z.of_nat (length bs).
Proof.
  induction bs as [|b bs IH]; cbn [le_value length].
  - simpl. lia.
  - rewrite Nat2Z.inj_succ, Z.pow_succ_r by lia.
    pose proof (byte_to_Z_range b). lia.
Qed.

Lemma length_u64_bytes host x : length (u64_bytes host x) = 8%nat.
Proof.
  destruct host; unfold u64_bytes; rewrite ?length_rev; apply length_le_bytes.
Qed.

Lemma u64_value_bytes host x : in_u64 x → u64_value host (u64_bytes host x) = x.
Proof.
  intros Hx. destruct host; unfold u64_value, u64_bytes.
  - by apply le_value_bytes.
  - rewrite rev_involutive. by apply le_value_bytes.
Qed.

Lemma u64_value_range host bs : length bs = 8%nat → in_u64 (u64_value host bs).
Proof.
  intros Hlen. unfold in_u64.
  destruct host; unfold u64_value.
  - pose proof (le_value_range bs) as H. by rewrite Hlen in H.
  - pose proof (le_value_range (rev bs)) as H. by rewrite length_rev, Hlen in H.
Qed.

Lemma fread_u64_written host items rest :
  Forall in_u64 items →
  fread_u64 host (length items) (concat (u64_bytes host <$> items) ++ rest)
  = (items, rest).
Proof.
  induction 1 as [|x items Hx _ IH]; [done|].
  cbn [length fread_u64 fmap list_fmap concat].
  rewrite <- app_assoc.
  rewrite decide_True by (rewrite length_app, length_u64_bytes; lia).
  rewrite drop_app_length' by (by rewrite length_u64_bytes).
  rewrite take_app_length' by (by rewrite length_u64_bytes).
  rewrite IH, u64_value_bytes by done. done.
Qed.

(** What [fread] hands back on any stream. *)
Lemma fread_u64_spec host count fp :
  let '(items, rest) := fread_u64 host count fp in
  Forall in_u64 items ∧ (length items ≤ count)%nat
  ∧ ((length fp < 8 * count)%nat → (length items < count)%nat)
  ∧ ((8 * count ≤ length fp)%nat →
       length items = count ∧ rest = drop (8 * count) fp).
Proof.
  revert fp. induction count as [|count IH]; intros fp.
  - simpl. repeat split; [constructor|lia..].
  - cbn [fread_u64]. destruct (decide (8 ≤ length fp)%nat) as [Hge|Hlt].
    + specialize (IH (drop 8 fp)).
      destruct (fread_u64 host count (drop 8 fp)) as [items rest].
      destruct IH as (Hall & Hlen & Hshort & Hfull).
      rewrite length_drop in Hshort, Hfull.
      repeat split; simpl.
      * constructor; [|done]. apply u64_value_range. rewrite length_take. lia.
      * lia.
      * intros ?. apply -> Nat.succ_lt_mono. apply Hshort. lia.
      * f_equal. apply Hfull. lia.
      * destruct Hfull as [_ ->]; [lia|]. rewrite drop_drop. f_equal. lia.
    + repeat split; simpl; [constructor|lia|lia|lia|lia].
Qed.

(** ** Counting pass *)

Lemma entry_insert f i j x :
  (i < length f)%nat →
  entry (<[i := x]> f) j = if decide (i = j) then x else entry f j.
Proof.
  intros Hi. unfold entry. destruct (decide (i = j)) as [->|Hne].
  - by rewrite list_lookup_insert_eq.
  - by rewrite list_lookup_insert_ne.
Qed.

Lemma table_sum_insert f i x :
  (i < length f)%nat → table_sum (<[i := x]> f) = table_sum f - entry f i + x.
Proof.
  revert i. induction f as [|y f IH]; intros [|i] Hi; simpl in *; try lia.
  - unfold entry. simpl. lia.
  - rewrite IH by lia. unfold entry. simpl. lia.
Qed.

Lemma table_sum_replicate n : table_sum (replicate n 0) = 0.
Proof. induction n as [|n IH]; simpl; [done|]. by rewrite IH. Qed.

Lemma entry_replicate n i : entry (replicate n 0) i = 0.
Proof.
  unfold entry. destruct (replicate n 0 !! i) as [x|] eqn:H; [|done].
  by apply lookup_replicate in H as [-> _].
Qed.

Lemma u64_small x : in_u64 x → u64 x = x.
Proof. intros H. unfold u64. by apply Z.mod_small. Qed.

Lemma u64_range x : in_u64 (u64 x).
Proof. unfold u64, in_u64. apply Z.mod_pos_bound. lia. Qed.

(** As long as the 64-bit counters do not wrap, the pass counts. *)
Lemma count_pass_counts input f t :
  length f = 256%nat → 0 ≤ t → t + Z.of_nat (length input) < 2 ^ 64 →
  (∀ i, 0 ≤ entry f i ≤ t) →
  ∃ f', Huffman.count_pass input f t = Done (f', t + Z.of_nat (length input))
    ∧ length f' = 256%nat
    ∧ (∀ v, entry f' (byte_index v)
            = entry f (byte_index v) + Z.of_nat (occurrences v input))
    ∧ table_sum f' = table_sum f + Z.of_nat (length input).
Proof.
  revert f t. induction input as [|c input IH]; intros f t Hlen Ht Hfit Hf.
  - exists f. cbn [Huffman.count_pass length occurrences].
    rewrite !Z.add_0_r. split; [done|]. split; [done|]. split; [|done].
    intros v. lia.
  - cbn [Huffman.count_pass length occurrences] in *.
    pose proof (byte_index_lt c) as Hc. pose proof (Hf (byte_index c)) as He.
    rewrite load_entry by lia. run_step.
    rewrite store_lt by lia. run_step.
    rewrite (u64_small (entry f (byte_index c) + 1)) by (unfold in_u64; lia).
    rewrite (u64_small (t + 1)) by (unfold in_u64; lia).
    destruct (IH (<[byte_index c := entry f (byte_index c) + 1]> f) (t + 1))
      as (f' & -> & Hlen' & Hcount & Hsum).
    { by rewrite length_insert. }
    { lia. }
    { lia. }
    { intros i. rewrite entry_insert by lia. specialize (Hf i).
      destruct (decide _); lia. }
    exists f'. split; [f_equal; f_equal; lia|]. split; [done|]. split.
    + intros v. rewrite Hcount, entry_insert by lia.
      destruct (decide (byte_index c = byte_index v)) as [Heq|Hne].
      * apply byte_index_inj in Heq as ->. rewrite decide_True by done. lia.
      * rewrite decide_False by congruence. lia.
    + rewrite Hsum, table_sum_insert by lia. lia.
Qed.

(** The pass never leaves the table, whatever the length of the input. *)
Lemma count_pass_returns input f t :
  length f = 256%nat → Forall in_u64 f → in_u64 t →
  ∃ f' t', Huffman.count_pass input f t = Done (f', t')
    ∧ length f' = 256%nat ∧ Forall in_u64 f' ∧ in_u64 t'.
Proof.
  revert f t. induction input as [|c input IH]; intros f t Hlen Hf Ht.
  - by exists f, t.
  - cbn [Huffman.count_pass]. pose proof (byte_index_lt c) as Hc.
    rewrite load_entry by lia. run_step.
    rewrite store_lt by lia. run_step.
    apply IH; [by rewrite length_insert| |apply u64_range].
    apply Forall_insert; [done|]. apply u64_range.
Qed.

(** ** Bit reader and decoding loop *)

Lemma bitreader_read_bit_spec br :
  0 ≤ br_bit_count br ≤ 8 →
  match Huffman.bitreader_read_bit br with
  | (br', Some bit) =>
      0 ≤ br_bit_count br' ≤ 8 ∧ (bits_left br' < bits_left br)%nat
  | (br', None) => br' = br ∧ br_fp br = [] ∧ br_bit_count br = 0
  end.
Proof.
  intros Hbc. unfold Huffman.bitreader_read_bit, bits_left.
  destruct (decide (br_bit_count br = 0)) as [Hz|Hnz].
  - destruct (br_fp br) as [|b rest]; [done|]. simpl. lia.
  - simpl. lia.
Qed.

Lemma inner_children p :
  inner p → ∃ ch f l r, p = Node ch f l r ∧ full l ∧ full r.
Proof. intros [[ch f|ch f l r Hl Hr] Hleaf]; [done|]. by exists ch, f, l, r. Qed.

Lemma full_cases p :
  full p → ∃ ch f l r, p = Node ch f l r
    ∧ ((is_null l && is_null r = true) ∨ (is_null l && is_null r = false ∧ inner p)).
Proof.
  intros Hp. destruct Hp as [ch f|ch f l r Hl Hr] eqn:E.
  - exists ch, f, NULL, NULL. split; [done|]. by left.
  - exists ch, f, l, r. split; [done|]. right.
    rewrite (full_not_null l Hl). split; [done|]. split; [by constructor|].
    by destruct Hl.
Qed.

Lemma decode_loop_spec fuel br root node written total out :
  inner root → inner node → in_u64 total →
  written = Z.of_nat (length out) → written ≤ total →
  0 ≤ br_bit_count br ≤ 8 → (bits_left br < fuel)%nat →
  ∃ written' out' printed,
    Huffman.decode_loop fuel br root node written total out
    = Done (written', out', printed)
    ∧ written' = Z.of_nat (length out')
    ∧ written' ≤ written + Z.of_nat (bits_left br)
    ∧ ((written' = total ∧ printed = [])
       ∨ (written' < total ∧ printed = [UnexpectedEOF])).
Proof.
  intros Hroot. revert br node written out.
  induction fuel as [|fuel IH]; intros br node written out Hnode Htotal Hw Hle Hbc Hfuel.
  { lia. }
  cbn [Huffman.decode_loop].
  destruct (decide (written < total)) as [Hlt|Hge].
  2:{ exists written, out, []. split; [done|]. split; [done|]. split; [lia|].
      left. split; [lia|done]. }
  pose proof (bitreader_read_bit_spec br Hbc) as Hread.
  destruct (Huffman.bitreader_read_bit br) as [br' [bit|]].
  2:{ exists written, out, [UnexpectedEOF]. split; [done|]. split; [done|].
      split; [lia|]. by right. }
  destruct Hread as [Hbc' Hless].
  destruct (inner_children node Hnode) as (ch & f & l & r & -> & Hl & Hr).
  assert (∃ child, (if decide (bit = 0) then get_left (Node ch f l r)
                    else get_right (Node ch f l r)) = Done child ∧ full child)
    as (child & -> & Hchild).
  { destruct (decide (bit = 0)); eauto. }
  run_step.
  destruct (full_cases child Hchild) as (c' & f' & l' & r' & -> & Hcase).
  cbn [get_left get_right]. run_step.
  destruct Hcase as [->|[-> Hinner]].
  - cbn [get_ch]. run_step.
    rewrite u64_small by (unfold in_u64 in *; lia).
    destruct (IH br' root (written + 1) (out ++ [c']))
      as (w' & o' & p' & -> & ? & ? & ?); [done|done| |lia|done|lia|].
    { rewrite length_app. simpl. lia. }
    exists w', o', p'. repeat split; [done|lia|done].
  - destruct (IH br' (Node c' f' l' r') written out)
      as (w' & o' & p' & -> & ? & ? & ?); [done|done|done|lia|done|lia|].
    exists w', o', p'. repeat split; [done|lia|done].
Qed.

Lemma unique_loop f :
  length f = 256%nat →
  for_range 0 256 (λ i '(uniqueCount, onlyChar),
      f ← load f i;
      Done (if decide (0 < f) then (S uniqueCount, nat_to_byte i)
            else (uniqueCount, onlyChar))) (O, "000"%byte)
  = Done (length (symbols_below f 256),
          default "000"%byte (nat_to_byte <$> last (symbols_below f 256))).
Proof.
  intros Hlen.
  destruct (for_range_inv
    (λ i (s : nat * byte), s = (length (symbols_below f i),
        default "000"%byte (nat_to_byte <$> last (symbols_below f i))))
    (λ i '(uniqueCount, onlyChar), f ← load f i;
       Done (if decide (0 < f) then (S uniqueCount, nat_to_byte i)
             else (uniqueCount, onlyChar)))
    256 0 (O, "000"%byte)) as (s & -> & ->); [done| |done].
  intros i s Hi ->. rewrite load_entry by lia. run_step.
  eexists. split; [done|]. rewrite symbols_below_S.
  destruct (decide _).
  - rewrite length_app, last_snoc. simpl. f_equal. lia.
  - by rewrite app_nil_r.
Qed.

(** ** [decompress_file] past the header *)

Lemma header_read host blob :
  (2056 ≤ length blob)%nat →
  fread_u64 host 1 blob = ([header_total host blob], drop 8 blob)
  ∧ fread_u64 host 256 (drop 8 blob) = (header_table host blob, drop 2056 blob)
  ∧ length (header_table host blob) = 256%nat
  ∧ Forall in_u64 (header_table host blob)
  ∧ in_u64 (header_total host blob).
Proof.
  intros Hlen. split; [|split].
  - cbn [fread_u64]. by rewrite decide_True by lia.
  - unfold header_table.
    pose proof (fread_u64_spec host 256 (drop 8 blob)) as H.
    destruct (fread_u64 host 256 (drop 8 blob)) as [items rest].
    destruct H as (_ & _ & _ & H). rewrite length_drop in H.
    destruct H as [_ ->]; [lia|]. by rewrite drop_drop.
  - unfold header_table.
    pose proof (fread_u64_spec host 256 (drop 8 blob)) as H.
    destruct (fread_u64 host 256 (drop 8 blob)) as [items rest].
    destruct H as (Hall & _ & _ & H). rewrite length_drop in H.
    destruct H as [Hl _]; [lia|]. split; [done|]. split; [done|].
    apply u64_value_range. rewrite length_take. lia.
Qed.

Lemma decompress_file_body host blob :
  (2056 ≤ length blob)%nat →
  Huffman.decompress_file host blob
  = decode_body (header_total host blob) (header_table host blob)
      (drop 2056 blob).
Proof.
  intros Hlen. destruct (header_read host blob Hlen) as (H1 & H2 & H3 & _).
  unfold Huffman.decompress_file. rewrite H1, H2.
  rewrite decide_False; [unfold decode_body; reflexivity|].
  rewrite H3. intros Hne. by apply Hne.
Qed.

Lemma decompress_file_short host blob :
  (length blob < 2056)%nat →
  ∃ r, Huffman.decompress_file host blob = Done r ∧ is_truncated_header r.
Proof.
  intros Hlen. unfold Huffman.decompress_file.
  pose proof (fread_u64_spec host 1 blob) as H1.
  destruct (fread_u64 host 1 blob) as [items rest].
  destruct H1 as (_ & Hle & Hshort & Hfull).
  destruct items as [|total [|??]]; [| |simpl in Hle; lia].
  { eexists. split; [done|]. repeat split; auto. }
  destruct (decide (8 ≤ length blob)%nat) as [H8|H8];
    [|specialize (Hshort ltac:(lia)); simpl in Hshort; lia].
  destruct Hfull as [_ ->]; [lia|]. change (8 * 1)%nat with 8%nat.
  pose proof (fread_u64_spec host 256 (drop 8 blob)) as H2.
  destruct (fread_u64 host 256 (drop 8 blob)) as [items rest].
  destruct H2 as (_ & _ & Hshort2 & _). rewrite length_drop in Hshort2.
  cbv beta iota.
  rewrite decide_True by (specialize (Hshort2 ltac:(lia)); lia).
  eexists. split; [done|]. repeat split; auto.
Qed.

(** The three shapes of the table. *)
Lemma decode_body_empty total f input :
  length f = 256%nat → symbols_below f 256 = [] → 0 ≤ total →
  decode_body total f input
  = Done (if bool_decide (0 < total)
          then {| ret := 0; output := None; stderr := [TreeRebuildFailed] |}
          else {| ret := 1; output := Some []; stderr := [] |}).
Proof.
  intros Hlen Hs Hpos. unfold decode_body.
  rewrite build_huffman_tree_null by done. run_step. cbn [is_null andb].
  destruct (bool_decide (0 < total)) eqn:Ht; [done|].
  apply bool_decide_eq_false in Ht.
  rewrite unique_loop, Hs by done. run_step. cbn [length].
  rewrite decide_False by lia. cbn [Huffman.decode_loop].
  rewrite decide_False by lia. run_step.
  by rewrite decide_True by lia.
Qed.

Lemma decode_body_single total f input v :
  length f = 256%nat → symbols_below f 256 = [v] →
  decode_body total f input
  = Done {| ret := 1;
            output := Some (replicate (Z.to_nat total) (nat_to_byte v));
            stderr := [] |}.
Proof.
  intros Hlen Hs. unfold decode_body.
  destruct (build_huffman_tree_spec f Hlen) as (root & -> & _ & _ & Hleaf & _).
  { by rewrite Hs. }
  rewrite (Hleaf v Hs). run_step. cbn [leaf_of is_null andb].
  rewrite unique_loop, Hs by done. run_step. done.
Qed.

Lemma decode_body_many total f input :
  length f = 256%nat → (2 ≤ length (symbols_below f 256))%nat → in_u64 total →
  ∃ written out printed,
    decode_body total f input
    = Done {| ret := if decide (written = total) then 1 else 0;
              output := Some out; stderr := printed |}
    ∧ written = Z.of_nat (length out)
    ∧ written ≤ 8 * Z.of_nat (length input)
    ∧ ((written = total ∧ printed = [])
       ∨ (written < total ∧ printed = [UnexpectedEOF])).
Proof.
  intros Hlen Htwo Htotal. unfold decode_body.
  destruct (build_huffman_tree_spec f Hlen) as (root & -> & Hfull & _ & _ & Hinner).
  { intros Hnil. rewrite Hnil in Htwo. simpl in Htwo. lia. }
  specialize (Hinner Htwo). run_step.
  rewrite (full_not_null root Hfull). cbn [andb].
  rewrite unique_loop by done. run_step.
  rewrite decide_False by lia.
  destruct (decode_loop_spec (S (8 * length input))
              (Huffman.bitreader_create input) root root 0 total [])
    as (w & o & p & -> & Hw & Hbits & Hcase); [done|done|done|done| | | |].
  { unfold in_u64 in Htotal. lia. }
  { simpl. lia. }
  { unfold bits_left. simpl. lia. }
  run_step. exists w, o, p. split; [done|]. split; [done|]. split; [|done].
  unfold bits_left in Hbits. simpl in Hbits. lia.
Qed.

Lemma header_written host total f rest :
  length f = 256%nat → Forall in_u64 f → in_u64 total →
  Huffman.decompress_file host
    (fwrite_u64 host f (fwrite_u64 host [total] []) ++ rest)
  = decode_body total f rest.
Proof.
  intros Hlen Hf Ht. unfold Huffman.decompress_file, fwrite_u64.
  cbn [app fmap list_fmap concat]. rewrite app_nil_r, <- !app_assoc.
  pose proof (fread_u64_written host [total]
                (concat (u64_bytes host <$> f) ++ rest)) as H1.
  cbn [length fmap list_fmap concat] in H1. rewrite app_nil_r in H1.
  rewrite H1 by (by constructor).
  pose proof (fread_u64_written host f rest Hf) as H2. rewrite Hlen in H2.
  rewrite H2. rewrite decide_False; [unfold decode_body; reflexivity|].
  rewrite Hlen. intros Hne. by apply Hne.
Qed.

Lemma symbols_single f v :
  (v < 256)%nat → 0 < entry f v →
  (∀ k, (k < 256)%nat → k ≠ v → entry f k = 0) →
  symbols_below f 256 = [v].
Proof.
  intros Hv Hpos Hzero.
  assert (∀ i, i ∈ symbols_below f 256 ↔ i = v) as Hmem.
  { intros i. rewrite elem_of_symbols_below. split.
    - intros [Hi Hp]. destruct (decide (i = v)); [done|].
      rewrite Hzero in Hp by done. lia.
    - by intros ->. }
  assert (NoDup (symbols_below f 256)) as Hnd by apply NoDup_filter, NoDup_seq.
  destruct (symbols_below f 256) as [|a [|b l]].
  - exfalso. eapply not_elem_of_nil. by apply Hmem.
  - f_equal. apply Hmem. by left.
  - exfalso. apply NoDup_cons in Hnd as [Hnd _]. apply Hnd.
    assert (a = v) as -> by (apply Hmem; by left).
    assert (b = v) as -> by (apply Hmem; right; by left).
    by left.
Qed.

(** ** huffman2.c against huffman.c *)

Lemma heap_extract_min_same h :
  Huffman2.heap_extract_min h = Huffman.heap_extract_min h.
Proof. reflexivity. Qed.

Lemma heapify_up_loop_bump fuel d c s idx :
  Huffman2.heapify_up_loop fuel {| data := d; capacity := c; size := S s |} idx
  = h' ← Huffman.heapify_up_loop fuel {| data := d; capacity := c; size := s |} idx;
    Done {| data := data h'; capacity := capacity h'; size := S (size h') |}.
Proof.
  revert d idx. induction fuel as [|fuel IH]; intros d idx.
  - simpl. by destruct (decide _).
  - cbn [Huffman2.heapify_up_loop Huffman.heapify_up_loop].
    destruct (decide (0 < idx)%nat); [|done]. cbn [data].
    destruct (cell d ((idx - 1) / 2)) as [p| |]; [|done..]. run_step.
    destruct (get_freq p) as [pf| |]; [|done..]. run_step.
    destruct (cell d idx) as [x| |]; [|done..]. run_step.
    destruct (get_freq x) as [cf| |]; [|done..]. run_step.
    destruct (decide (pf ≤ cf)); [done|].
    change (Huffman2.heap_swap d ((idx - 1) / 2) idx)
      with (Huffman.heap_swap d ((idx - 1) / 2) idx).
    destruct (Huffman.heap_swap d ((idx - 1) / 2) idx) as [d'| |]; [|done..].
    run_step. apply IH.
Qed.

Lemma heap_insert_same h node :
  (size h < capacity h)%nat →
  Huffman2.heap_insert h node = Huffman.heap_insert h node.
Proof.
  intros Hroom. unfold Huffman2.heap_insert, Huffman.heap_insert.
  rewrite !decide_False by lia.
  destruct (store (data h) (size h) (Some node)) as [d| |]; [|done..]. run_step.
  unfold Huffman2.heapify_up, Huffman.heapify_up, with_data. cbn [size].
  replace (S (size h) - 1)%nat with (size h) by lia.
  apply heapify_up_loop_bump.
Qed.

Lemma for_range_same {S} (I : nat → S → Prop) (body1 body2 : nat → S → run S)
    (count lo : nat) (s : S) :
  I lo s →
  (∀ i s, (lo ≤ i < lo + count)%nat → I i s →
     body1 i s = body2 i s ∧ ∀ s', body2 i s = Done s' → I (Datatypes.S i) s') →
  for_range lo count body1 s = for_range lo count body2 s.
Proof.
  revert lo s. induction count as [|count IH]; intros lo s H0 Hstep; [done|].
  simpl. destruct (Hstep lo s) as [-> Hnext]; [lia|done|].
  destruct (body2 lo s) as [s'| |]; [|done..]. run_step.
  apply IH; [by apply Hnext|]. intros i s'' Hi. apply Hstep. lia.
Qed.

Lemma merge_loop_same fuel h l :
  heap_holds h l → Forall full l → l ≠ [] → (length l ≤ capacity h)%nat →
  Huffman2.merge_loop fuel h = Huffman.merge_loop fuel h.
Proof.
  revert h l. induction fuel as [|fuel IH]; intros h l Hh Hfull Hne Hcap; [done|].
  pose proof Hh as (Hsz & _).
  cbn [Huffman2.merge_loop Huffman.merge_loop].
  destruct (decide (1 < size h)%nat) as [Hgt|Hle]; [|done].
  rewrite heap_extract_min_same.
  destruct (heap_extract_min_holds h l Hh Hne)
    as (a & h1 & l1 & -> & Hh1 & Hl1 & Hc1). run_step.
  assert (length l = S (length l1)) as Hlen1 by (by rewrite Hl1).
  rewrite heap_extract_min_same.
  destruct (heap_extract_min_holds h1 l1 Hh1)
    as (b & h2 & l2 & -> & Hh2 & Hl2 & Hc2); [destruct l1; [simpl in *; lia|done]|].
  run_step.
  assert (length l1 = S (length l2)) as Hlen2 by (by rewrite Hl2).
  rewrite Hl1, Hl2 in Hfull.
  apply Forall_cons in Hfull as [Ha Hfull]. apply Forall_cons in Hfull as [Hb Hfull].
  destruct (get_freq_nonnull a (full_nonnull a Ha)) as [af ->].
  destruct (get_freq_nonnull b (full_nonnull b Hb)) as [bf ->].
  run_step. cbn [Huffman.create_node Huffman2.node_create set_left set_right].
  run_step. cbn [set_right]. run_step.
  set (parent := Node "000" (u64 (af + bf)) a b).
  assert (size h2 < capacity h2)%nat as Hroom.
  { destruct Hh2 as (-> & _). lia. }
  rewrite heap_insert_same by done.
  destruct (heap_insert_holds h2 l2 parent Hh2 Hroom)
    as (h3 & l3 & -> & Hh3 & Hl3 & Hc3); [by apply full_nonnull; constructor|].
  run_step.
  assert (length l3 = S (length l2)) as Hlen3 by (by rewrite Hl3).
  apply (IH h3 l3); [done| | |lia].
  - rewrite Hl3. constructor; [by constructor|done].
  - destruct l3; [simpl in *; lia|done].
Qed.

Lemma build_huffman_tree_same f :
  length f = 256%nat →
  Huffman2.build_huffman_tree f = Huffman.build_huffman_tree f.
Proof.
  intros Hlen. unfold Huffman2.build_huffman_tree, Huffman.build_huffman_tree.
  rewrite count_loop by done. run_step.
  destruct (decide (length (symbols_below f 256) = 0)%nat) as [|Hne]; [done|].
  set (cap := (length (symbols_below f 256) * 2 + 4)%nat).
  assert (for_range 0 256 (λ i heap,
              f0 ← load f i;
              if decide (0 < f0)
              then Huffman2.heap_insert heap (Huffman2.node_create (nat_to_byte i) f0)
              else Done heap) (Huffman2.heap_create cap)
          = for_range 0 256 (λ i heap,
              f0 ← load f i;
              if decide (0 < f0)
              then Huffman.heap_insert heap (Huffman.create_node (nat_to_byte i) f0)
              else Done heap) (Huffman.heap_create cap)) as ->.
  { apply (for_range_same (λ i heap, ∃ l, heap_holds heap l
             ∧ length l = length (symbols_below f i) ∧ capacity heap = cap)).
    { exists []. split; [apply heap_create_holds|done]. }
    intros i heap Hi (l & Hh & Hl & Hc). rewrite load_entry by lia. run_step.
    rewrite symbols_below_S.
    destruct (decide (0 < entry f i)) as [Hpos|Hz].
    - assert (size heap < capacity heap)%nat as Hroom.
      { destruct Hh as (-> & _). rewrite Hc, Hl.
        pose proof (symbols_below_mono f (S i) 256 ltac:(lia)) as Hm.
        rewrite symbols_below_S, decide_True, length_app in Hm by done.
        simpl in Hm. subst cap. lia. }
      split; [by apply heap_insert_same|].
      intros h' Hins.
      destruct (heap_insert_holds heap l (Huffman.create_node (nat_to_byte i) (entry f i)) Hh Hroom)
        as (h'' & l' & Hins' & Hh' & Hl' & Hc'); [done|].
      rewrite Hins in Hins'. simplify_eq.
      exists l'. split; [done|]. split; [|congruence].
      rewrite Hl', length_app. simpl. lia.
    - split; [done|]. intros h' [= <-]. exists l. by rewrite app_nil_r. }
  destruct (leaves_loop f cap Hlen) as (heap & l & -> & Hh & Hl & Hcap);
    [subst cap; lia|].
  run_step. pose proof Hh as (Hsz & _).
  destruct (decide (size heap = 1)%nat); [done|].
  assert (length l = length (symbols_below f 256)) as Hll by (by rewrite Hl, length_fmap).
  rewrite (merge_loop_same (size heap) heap l Hh).
  - done.
  - rewrite Hl. apply Forall_fmap, Forall_true. intros i. constructor.
  - intros ->. simpl in Hll. lia.
  - subst cap. lia.
Qed.

Lemma generate_codes_same root codes :
  Huffman2.generate_codes root codes = Huffman.generate_codes root codes.
Proof.
  unfold Huffman2.generate_codes, Huffman.generate_codes.
  destruct (for_range 0 256 _ codes) as [c| |]; [|done..]. run_step.
  destruct root as [|ch f l r]; [done|].
  destruct (is_null l && is_null r); reflexivity.
Qed.

(** ** [compress_file] *)

Lemma bitwriter_write_bit_fp bw bit :
  ∃ extra, bw_fp (Huffman.bitwriter_write_bit bw bit) = bw_fp bw ++ extra.
Proof.
  unfold Huffman.bitwriter_write_bit. destruct (decide _); simpl.
  - by eexists.
  - exists []. by rewrite app_nil_r.
Qed.

Lemma bitwriter_write_bits_fp bw bits :
  ∃ extra,
    bw_fp (Huffman.bitwriter_write_bits_from_string bw bits) = bw_fp bw ++ extra.
Proof.
  revert bw. induction bits as [|p bits IH]; intros bw; simpl.
  - exists []. by rewrite app_nil_r.
  - destruct (IH (Huffman.bitwriter_write_bit bw (if decide (p = "1"%char) then 1 else 0)))
      as [e2 He2].
    destruct (bitwriter_write_bit_fp bw (if decide (p = "1"%char) then 1 else 0))
      as [e1 He1].
    exists (e1 ++ e2). by rewrite He2, He1, app_assoc.
Qed.

Lemma bitwriter_flush_fp bw :
  ∃ extra, Huffman.bitwriter_flush bw = bw_fp bw ++ extra.
Proof.
  unfold Huffman.bitwriter_flush. destruct (decide _).
  - by eexists.
  - exists []. by rewrite app_nil_r.
Qed.

Lemma encode_pass_returns input codes bw :
  length codes = 256%nat →
  ∃ bw' stopped extra,
    Huffman.encode_pass input codes bw = Done (bw', stopped)
    ∧ bw_fp bw' = bw_fp bw ++ extra.
Proof.
  intros Hlen. revert bw. induction input as [|uc input IH]; intros bw.
  - exists bw, None, []. by rewrite app_nil_r.
  - cbn [Huffman.encode_pass].
    destruct (lookup_lt_is_Some_2 codes (byte_index uc)) as [bits Hbits].
    { rewrite Hlen. apply byte_index_lt. }
    rewrite (load_lookup _ _ _ Hbits). run_step.
    destruct bits as [bits|].
    + destruct (IH (Huffman.bitwriter_write_bits_from_string bw bits))
        as (bw' & stopped & e2 & -> & Hfp).
      destruct (bitwriter_write_bits_fp bw bits) as [e1 He1].
      exists bw', stopped, (e1 ++ e2). by rewrite Hfp, He1, app_assoc.
    + exists bw, (Some uc), []. by rewrite app_nil_r.
Qed.

Lemma generate_codes_returns root codes0 :
  full root → (height root < 512)%nat → length codes0 = 256%nat →
  ∃ codes, Huffman.generate_codes root codes0 = Done codes
           ∧ length codes = 256%nat.
Proof.
  intros Hfull Hh Hlen.
  destruct (full_cases root Hfull) as (ch & f & l & r & -> & [Hleaf|[Hn Hinner]]).
  - destruct l, r; try done. rewrite generate_codes_leaf by done.
    eexists. split; [done|]. by rewrite length_insert, length_replicate.
  - destruct Hinner as [_ Hinner]. rewrite generate_codes_inner by done.
    eexists. split; [done|]. by rewrite length_assign, length_replicate.
Qed.

Lemma built_tree_height f root :
  full root → leaf_chars root ≡ₚ nat_to_byte <$> symbols_below f 256 →
  (height root < 512)%nat.
Proof.
  intros Hfull Hchars. pose proof (height_lt_leaves root Hfull) as H.
  rewrite Hchars, length_fmap in H.
  pose proof (length_symbols_below f 256). lia.
Qed.

Lemma compress_file_cases host b :
  ∃ f total,
    Huffman.count_pass b (replicate 256 0) 0 = Done (f, total)
    ∧ length f = 256%nat ∧ Forall in_u64 f ∧ in_u64 total
    ∧ (symbols_below f 256 = [] →
         Huffman.compress_file host b
         = Done {| ret := 0; output := None; stderr := [EmptyInput] |})
    ∧ (symbols_below f 256 ≠ [] →
         ∃ bits stopped,
           Huffman.compress_file host b
           = Done {| ret := if stopped is Some _ then 0 else 1;
                     output := Some (blob_header host total f ++ bits);
                     stderr := if stopped is Some uc then [NoCodeFor uc] else [] |}).
Proof.
  destruct (count_pass_returns b (replicate 256 0) 0)
    as (f & total & Hcount & Hlen & Hf & Ht).
  { apply length_replicate. }
  { apply Forall_replicate. unfold in_u64. lia. }
  { unfold in_u64. lia. }
  exists f, total. split; [done|]. split; [done|]. split; [done|].
  split; [done|].
  unfold Huffman.compress_file. rewrite Hcount. run_step. split.
  - intros Hs. by rewrite build_huffman_tree_null.
  - intros Hs.
    destruct (build_huffman_tree_spec f Hlen Hs) as (root & -> & Hfull & Hchars & _).
    run_step. rewrite (full_not_null root Hfull).
    destruct (generate_codes_returns root (replicate 256 None) Hfull)
      as (codes & -> & Hcodes).
    { by eapply built_tree_height. }
    { apply length_replicate. }
    run_step.
    destruct (encode_pass_returns b codes
                (Huffman.bitwriter_create (blob_header host total f)) Hcodes)
      as (bw' & stopped & extra & Henc & Hfp).
    unfold blob_header in Henc. rewrite Henc. run_step.
    destruct (bitwriter_flush_fp bw') as [e2 He2].
    rewrite He2, Hfp. cbn [Huffman.bitwriter_create bw_fp].
    exists (extra ++ e2), stopped. rewrite <- app_assoc.
    by destruct stopped.
Qed.

(** ** Bit order of the writer and of the reader *)

Lemma bitwriter_write_bits_app bw s1 s2 :
  Huffman.bitwriter_write_bits_from_string bw (s1 ++ s2)
  = Huffman.bitwriter_write_bits_from_string
      (Huffman.bitwriter_write_bits_from_string bw s1) s2.
Proof. revert bw. induction s1 as [|c s1 IH]; intros bw; [done|]. apply IH. Qed.

Lemma bitwriter_write_chunk fp b0 b1 b2 b3 b4 b5 b6 b7 :
  Huffman.bitwriter_write_bits_from_string (Huffman.bitwriter_create fp)
    (bit_char <$> [b0; b1; b2; b3; b4; b5; b6; b7])
  = Huffman.bitwriter_create (fp ++ [msb_byte [b0; b1; b2; b3; b4; b5; b6; b7]]).
Proof.
  destruct b0, b1, b2, b3, b4, b5, b6, b7; reflexivity.
Qed.

Lemma bitwriter_flush_partial fp s :
  (length s < 8)%nat →
  Huffman.bitwriter_flush
    (Huffman.bitwriter_write_bits_from_string (Huffman.bitwriter_create fp)
       (bit_char <$> s))
  = fp ++ pack_msb s.
Proof.
  intros Hlen.
  destruct s as [|b0 s]; [by rewrite app_nil_r|]. destruct b0.
  all: do 7 (destruct s as [|[|] s]; [reflexivity| |]).
  all: simpl in Hlen; lia.
Qed.

Lemma pack_msb_chunk b0 b1 b2 b3 b4 b5 b6 b7 rest :
  pack_msb (b0 :: b1 :: b2 :: b3 :: b4 :: b5 :: b6 :: b7 :: rest)
  = msb_byte [b0; b1; b2; b3; b4; b5; b6; b7] :: pack_msb rest.
Proof. reflexivity. Qed.

Lemma length_pack_partial s :
  (length s < 8)%nat → length (pack_msb s) = ((length s + 7) / 8)%nat.
Proof.
  intros Hlen. do 8 (destruct s as [|? s]; [reflexivity|]). simpl in Hlen. lia.
Qed.

(** The writer packs most significant bit first and pads with zeros. *)
Lemma bitwriter_packs s fp :
  Huffman.bitwriter_flush
    (Huffman.bitwriter_write_bits_from_string (Huffman.bitwriter_create fp)
       (bit_char <$> s))
  = fp ++ pack_msb s
  ∧ length (pack_msb s) = ((length s + 7) / 8)%nat.
Proof.
  remember (length s) as n eqn:Hn. revert s Hn fp.
  induction n as [n IH] using lt_wf_ind. intros s -> fp.
  destruct (decide (length s < 8)%nat) as [Hshort|Hlong].
  { split; [by apply bitwriter_flush_partial|by apply length_pack_partial]. }
  do 8 (destruct s as [|? s]; [simpl in Hlong; lia|]).
  rewrite pack_msb_chunk.
  change (bit_char <$> b :: b0 :: b1 :: b2 :: b3 :: b4 :: b5 :: b6 :: s)
    with ((bit_char <$> [b; b0; b1; b2; b3; b4; b5; b6]) ++ (bit_char <$> s)).
  rewrite bitwriter_write_bits_app, bitwriter_write_chunk.
  destruct (IH (length s) ltac:(simpl; lia) s eq_refl
              (fp ++ [msb_byte [b; b0; b1; b2; b3; b4; b5; b6]])) as [-> Hl].
  split; [by rewrite <- app_assoc|].
  transitivity (S ((length s + 7) / 8)); [simpl; by rewrite Hl|].
  replace (length (b :: b0 :: b1 :: b2 :: b3 :: b4 :: b5 :: b6 :: s) + 7)%nat
    with (1 * 8 + (length s + 7))%nat by (simpl; lia).
  rewrite Nat.div_add_l by lia. lia.
Qed.

(** The reader hands out each byte from its least significant bit up. *)
Lemma read_bits_pending n br :
  0 ≤ br_bit_count br ≤ 8 → read_bits n br = take n (pending br).
Proof.
  revert br. induction n as [|n IH]; intros br Hbc; [done|].
  cbn [read_bits]. unfold Huffman.bitreader_read_bit.
  destruct br as [fp buffer k]. cbn [br_bit_count br_fp br_buffer] in *.
  destruct (decide (k = 0)) as [->|Hk].
  - destruct fp as [|b rest]; [done|].
    cbn [br_bit_count br_fp br_buffer]. rewrite IH by (simpl; lia).
    unfold pending. cbn [br_bit_count br_fp br_buffer]. rewrite bind_cons.
    reflexivity.
  - rewrite IH by (simpl; lia). unfold pending.
    cbn [br_bit_count br_fp br_buffer].
    assert (k = 1 ∨ k = 2 ∨ k = 3 ∨ k = 4 ∨ k = 5 ∨ k = 6 ∨ k = 7 ∨ k = 8)
      as Hcases by lia.
    destruct Hcases as [->|[->|[->|[->|[->|[->|[->| ->]]]]]]]; reflexivity.
Qed.

Lemma bitreader_lsb_first n fp :
  read_bits n (Huffman.bitreader_create fp) = take n (fp ≫= lsb_bits).
Proof. by rewrite read_bits_pending by (simpl; lia). Qed.

(** The end of the stream is only signalled between bytes. *)
Lemma bitreader_eof_between_bytes br :
  0 ≤ br_bit_count br ≤ 8 →
  (Huffman.bitreader_read_bit br).2 = None ↔ br_fp br = [] ∧ br_bit_count br = 0.
Proof.
  intros Hbc. unfold Huffman.bitreader_read_bit.
  destruct (decide (br_bit_count br = 0)) as [Hz|Hnz].
  - destruct (br_fp br) as [|b rest]; simpl.
    + by split.
    + split; [done|]. by intros [? _].
  - simpl. split; [done|]. by intros [_ ?].
Qed.

(** ** Where compression succeeds and where the round trip holds *)

Lemma occurrences_elem v input : v ∈ input → (0 < occurrences v input)%nat.
Proof.
  induction 1 as [v input|v c input _ IH]; simpl.
  - rewrite decide_True by done. lia.
  - lia.
Qed.

Lemma occurrences_replicate v c n :
  occurrences v (replicate n c) = if decide (c = v) then n else 0%nat.
Proof.
  induction n as [|n IH]; simpl; [by destruct (decide _)|].
  rewrite IH. by destruct (decide _).
Qed.

Lemma encode_pass_all input codes bw :
  length codes = 256%nat →
  (∀ c, c ∈ input → ∃ s, codes !! byte_index c = Some (Some s)) →
  ∃ bw', Huffman.encode_pass input codes bw = Done (bw', None).
Proof.
  intros Hlen. revert bw. induction input as [|uc input IH]; intros bw Hall.
  - by exists bw.
  - cbn [Huffman.encode_pass].
    destruct (Hall uc) as [s Hs]; [by left|].
    rewrite (load_lookup _ _ _ Hs). run_step.
    apply IH. intros c Hc. apply Hall. by right.
Qed.

(** Every byte of the input has a code in the table generated for the tree
    of its counts. *)
Lemma input_bytes_have_codes f root codes0 c :
  length f = 256%nat → length codes0 = 256%nat →
  full root → leaf_chars root ≡ₚ nat_to_byte <$> symbols_below f 256 →
  0 < entry f (byte_index c) →
  ∃ codes s, Huffman.generate_codes root codes0 = Done codes
    ∧ length codes = 256%nat ∧ codes !! byte_index c = Some (Some s).
Proof.
  intros Hlen Hlen0 Hfull Hchars Hpos.
  assert (c ∈ leaf_chars root) as Hin.
  { rewrite Hchars, <- (nat_to_byte_index c). apply list_elem_of_fmap_2.
    apply elem_of_symbols_below. split; [apply byte_index_lt|done]. }
  destruct (full_cases root Hfull) as (ch & w & l & r & -> & [Hleaf|[Hn Hinner]]).
  - destruct l, r; try done. cbn [leaf_chars is_null andb] in Hin.
    apply list_elem_of_singleton in Hin as ->.
    rewrite generate_codes_leaf by done.
    exists (<[byte_index ch := Some ["0"%char]]> (replicate 256 None)), ["0"%char].
    split; [done|]. split; [by rewrite length_insert, length_replicate|].
    apply list_lookup_insert_eq. rewrite length_replicate. apply byte_index_lt.
  - rewrite generate_codes_inner;
      [|done|by destruct Hinner|by eapply built_tree_height|done].
    rewrite <- code_paths_chars with (path := []) in Hin.
    apply list_elem_of_fmap in Hin as ([c' s] & -> & Hin). simpl.
    exists (assign (replicate 256 None) (code_paths (Node ch w l r) [])), s.
    split; [done|]. split; [by rewrite length_assign, length_replicate|].
    apply assign_elem; [|by rewrite length_replicate|done].
    rewrite code_paths_chars, Hchars. apply NoDup_symbol_bytes.
Qed.

(** [compress_file] succeeds on every nonempty input whose length fits the
    64-bit counters, and writes the header followed by the bit stream. *)
Lemma compress_file_succeeds host b :
  b ≠ [] → Z.of_nat (length b) < 2 ^ 64 →
  ∃ f bits,
    Huffman.count_pass b (replicate 256 0) 0 = Done (f, Z.of_nat (length b))
    ∧ Huffman.compress_file host b
      = Done {| ret := 1;
                output := Some (blob_header host (Z.of_nat (length b)) f ++ bits);
                stderr := [] |}.
Proof.
  intros Hne Hfit.
  destruct (count_pass_counts b (replicate 256 0) 0)
    as (f & Hcount & Hlen & Hocc & _);
    [apply length_replicate|lia|lia|intros i; rewrite entry_replicate; lia|].
  rewrite Z.add_0_l in Hcount.
  assert (∀ c, c ∈ b → 0 < entry f (byte_index c)) as Hpos.
  { intros c Hc. rewrite Hocc, entry_replicate.
    pose proof (occurrences_elem c b Hc). lia. }
  destruct (build_huffman_tree_spec f Hlen) as (root & Hbuild & Hfull & Hchars & _).
  { destruct b as [|c b]; [done|]. intros Hs.
    assert (byte_index c ∈ symbols_below f 256) as Hin.
    { apply elem_of_symbols_below. split; [apply byte_index_lt|].
      apply Hpos. by left. }
    rewrite Hs in Hin. by apply elem_of_nil in Hin. }
  destruct (generate_codes_returns root (replicate 256 None) Hfull)
    as (codes & Hgen & Hcodes);
    [by eapply built_tree_height|apply length_replicate|].
  destruct (encode_pass_all b codes
              (Huffman.bitwriter_create (blob_header host (Z.of_nat (length b)) f))
              Hcodes) as [bw' Henc].
  { intros c Hc.
    destruct (input_bytes_have_codes f root (replicate 256 None) c Hlen
                (length_replicate _ _) Hfull Hchars (Hpos c Hc))
      as (codes' & s & Hgen' & _ & Hs).
    rewrite Hgen in Hgen'. injection Hgen' as <-. by exists s. }
  destruct (encode_pass_returns b codes
              (Huffman.bitwriter_create (blob_header host (Z.of_nat (length b)) f))
              Hcodes) as (bw'' & stopped & extra & Henc' & Hfp).
  rewrite Henc in Henc'. injection Henc' as <- <-.
  destruct (bitwriter_flush_fp bw') as [e2 He2].
  exists f, (extra ++ e2). split; [done|].
  unfold Huffman.compress_file. rewrite Hcount. run_step.
  rewrite Hbuild. run_step. rewrite (full_not_null root Hfull).
  rewrite Hgen. run_step. unfold blob_header in Henc. rewrite Henc. run_step.
  rewrite He2, Hfp. cbn [Huffman.bitwriter_create bw_fp].
  by rewrite <- app_assoc.
Qed.

(** An input that repeats one byte survives the round trip: the decoder does
    not use the bit reader for it. *)
Lemma round_trip_single_symbol host v n :
  Z.of_nat (S n) < 2 ^ 64 →
  ∃ blob,
    Huffman.compress_file host (replicate (S n) v)
    = Done {| ret := 1; output := Some blob; stderr := [] |}
    ∧ Huffman.decompress_file host blob
      = Done {| ret := 1; output := Some (replicate (S n) v); stderr := [] |}.
Proof.
  intros Hfit. set (b := replicate (S n) v).
  assert (length b = S n) as Hb by apply length_replicate.
  destruct (compress_file_succeeds host b) as (f & bits & Hcount & Hc);
    [done|by rewrite Hb|].
  destruct (count_pass_counts b (replicate 256 0) 0)
    as (f' & Hcount' & Hlen & Hocc & _);
    [apply length_replicate|lia|rewrite Hb; lia
    |intros i; rewrite entry_replicate; lia|].
  rewrite Z.add_0_l, Hcount in Hcount'. injection Hcount' as <-.
  destruct (count_pass_returns b (replicate 256 0) 0)
    as (f' & t' & Hcount' & _ & Hf & _);
    [apply length_replicate|apply Forall_replicate; unfold in_u64; lia
    |unfold in_u64; lia|].
  rewrite Hcount in Hcount'. injection Hcount' as <- <-.
  eexists. split; [done|].
  unfold blob_header. rewrite header_written by (done || (unfold in_u64; lia)).
  rewrite (decode_body_single _ _ _ (byte_index v)); [|done|].
  - by rewrite Hb, Nat2Z.id, nat_to_byte_index.
  - apply symbols_single; [apply byte_index_lt| |].
    + rewrite Hocc, entry_replicate. unfold b.
      rewrite occurrences_replicate, decide_True by done. lia.
    + intros k Hk Hne. rewrite <- (byte_index_nat_to_byte k) by done.
      rewrite Hocc, entry_replicate. unfold b.
      rewrite occurrences_replicate, decide_False; [done|].
      intros ->. by rewrite byte_index_nat_to_byte in Hne.
Qed.

(** ** Further facts about headers and about the two files *)

(** The table of a header has no symbol, exactly one, or at least two. *)
Lemma symbols_cases (l : list nat) :
  l = [] ∨ (∃ v, l = [v]) ∨ (2 ≤ length l)%nat.
Proof. destruct l as [|a [|b l]]; simpl; eauto with lia. Qed.

Lemma zero_header host :
  replicate 2056 "000"%byte = blob_header host 0 (replicate 256 0).
Proof. destruct host; vm_compute; reflexivity. Qed.

Lemma header_table_written host total f rest :
  length f = 256%nat → Forall in_u64 f → in_u64 total →
  header_table host (blob_header host total f ++ rest) = f.
Proof.
  intros Hlen Hf Ht. unfold header_table, blob_header, fwrite_u64.
  cbn [app fmap list_fmap concat]. rewrite app_nil_r, <- !app_assoc.
  rewrite drop_app_length' by (by rewrite length_u64_bytes).
  pose proof (fread_u64_written host f rest Hf) as H2. rewrite Hlen in H2.
  by rewrite H2.
Qed.

Lemma length_blob_header host total f :
  length f = 256%nat → length (blob_header host total f) = 2056%nat.
Proof.
  intros Hlen. unfold blob_header, fwrite_u64.
  cbn [app fmap list_fmap concat]. rewrite app_nil_r, length_app, length_u64_bytes.
  assert (∀ l : list Z, length (concat (u64_bytes host <$> l)) = (8 * length l)%nat)
    as ->.
  { induction l as [|x l IH]; [done|].
    cbn [fmap list_fmap concat length]. rewrite length_app, length_u64_bytes.
    fold (fmap (M:=list) (u64_bytes host) l). lia. }
  lia.
Qed.

Lemma decompress_file_same host blob :
  Huffman2.decompress_file host blob = Huffman.decompress_file host blob.
Proof.
  unfold Huffman2.decompress_file, Huffman.decompress_file.
  destruct (fread_u64 host 1 blob) as [[|total [|??]] input]; [done| |done].
  destruct (fread_u64 host 256 input) as [frequencies input'].
  destruct (decide (length frequencies ≠ 256%nat)) as [|Hlen]; [done|].
  rewrite build_huffman_tree_same; [reflexivity|].
  by destruct (decide (length frequencies = 256%nat)).
Qed.

Lemma compress_file_same host b :
  Z.of_nat (length b) < 2 ^ 64 →
  Huffman2.compress_file host b = Huffman.compress_file host b.
Proof.
  intros Hfit. unfold Huffman2.compress_file, Huffman.compress_file.
  change Huffman2.count_pass with Huffman.count_pass.
  destruct (count_pass_counts b (replicate 256 0) 0)
    as (f & -> & Hlen & Hocc & _);
    [apply length_replicate|lia|lia|intros i; rewrite entry_replicate; lia|].
  run_step. rewrite build_huffman_tree_same by done.
  destruct b as [|c b].
  - rewrite decide_True by done.
    rewrite build_huffman_tree_null; [done..|].
    destruct (symbols_below f 256) as [|i l] eqn:Hs; [done|].
    assert (i ∈ symbols_below f 256) as Hi by (rewrite Hs; by left).
    apply elem_of_symbols_below in Hi as [Hi Hpos].
    specialize (Hocc (nat_to_byte i)).
    rewrite byte_index_nat_to_byte, entry_replicate in Hocc by done.
    cbn [occurrences] in Hocc. lia.
  - rewrite decide_False by (simpl; lia).
    destruct (build_huffman_tree_spec f Hlen) as (root & -> & Hfull & _).
    { intros Hs. specialize (Hocc c). rewrite entry_replicate in Hocc.
      cbn [occurrences] in Hocc. rewrite decide_True in Hocc by done.
      assert (byte_index c ∈ symbols_below f 256) as Hin.
      { apply elem_of_symbols_below. split; [apply byte_index_lt|lia]. }
      rewrite Hs in Hin. by apply elem_of_nil in Hin. }
    run_step. rewrite (full_not_null root Hfull).
    rewrite generate_codes_same. reflexivity.
Qed.

(** * The claims *)

(** C1 does not hold of the code: on the input "ab" both files compress to
    a blob which their own [decompress_file] turns into "aa", returning 1.
    [bitwriter_write_bit] fills a byte from its most significant bit,
    [bitreader_read_bit] empties it from its least significant bit. *)
Theorem round_trip_breaks (host : byte_order) :
  ∃ blob,
    Huffman.compress_file host sample_ab
    = Done {| ret := 1; output := Some blob; stderr := [] |}
    ∧ Huffman.decompress_file host blob
      = Done {| ret := 1; output := Some ["a"; "a"]%byte; stderr := [] |}
    ∧ Huffman2.compress_file host sample_ab
      = Done {| ret := 1; output := Some blob; stderr := [] |}
    ∧ Huffman2.decompress_file host blob
      = Done {| ret := 1; output := Some ["a"; "a"]%byte; stderr := [] |}.
Proof.
  exists (output_of (Huffman.compress_file host sample_ab)).
  destruct host; vm_compute; done.
Qed.

(** C2: tree construction is reproducible.  For a table of 256 64-bit
    counters with a nonzero entry, [build_huffman_tree] returns a tree, not
    NULL; the table the decoder reads back from the header written for it is
    that same table, so the decoder's run of [build_huffman_tree] returns the
    identical tree, and so do the runs of huffman2.c. *)
Theorem tree_reproducible (host : byte_order) (frequencies : list Z)
    (total : Z) (bitstream : list byte) (i : nat) :
  length frequencies = 256%nat → Forall in_u64 frequencies → in_u64 total →
  (i < 256)%nat → 0 < entry frequencies i →
  ∃ root rest table,
    root ≠ NULL
    ∧ Huffman.build_huffman_tree frequencies = Done root
    ∧ Huffman2.build_huffman_tree frequencies = Done root
    ∧ fread_u64 host 1 (blob_header host total frequencies ++ bitstream)
      = ([total], rest)
    ∧ fread_u64 host 256 rest = (table, bitstream)
    ∧ Huffman.build_huffman_tree table = Done root
    ∧ Huffman2.build_huffman_tree table = Done root.
Proof.
  intros Hlen Hf Ht Hi Hpos.
  destruct (build_huffman_tree_spec frequencies Hlen) as (root & Hb & Hfull & _).
  { intros Hs.
    assert (i ∈ symbols_below frequencies 256) as Hin
      by (by apply elem_of_symbols_below).
    rewrite Hs in Hin. by apply elem_of_nil in Hin. }
  exists root, (concat (u64_bytes host <$> frequencies) ++ bitstream), frequencies.
  split; [by apply full_nonnull|]. split; [done|].
  split; [by rewrite build_huffman_tree_same|].
  unfold blob_header, fwrite_u64.
  cbn [app fmap list_fmap concat]. rewrite app_nil_r, <- !app_assoc.
  pose proof (fread_u64_written host [total]
                (concat (u64_bytes host <$> frequencies) ++ bitstream)) as H1.
  cbn [length fmap list_fmap concat] in H1. rewrite app_nil_r in H1.
  rewrite H1 by (by constructor).
  pose proof (fread_u64_written host frequencies bitstream Hf) as H2.
  rewrite Hlen in H2.
  split; [done|]. split; [done|]. split; [done|].
  by rewrite build_huffman_tree_same.
Qed.

Lemma tree_reproducible_witness :
  ∃ root rest table,
    root ≠ NULL
    ∧ Huffman.build_huffman_tree sample_table = Done root
    ∧ Huffman2.build_huffman_tree sample_table = Done root
    ∧ fread_u64 LittleEndian 1 (blob_header LittleEndian 11 sample_table ++ [])
      = ([11], rest)
    ∧ fread_u64 LittleEndian 256 rest = (table, [])
    ∧ Huffman.build_huffman_tree table = Done root
    ∧ Huffman2.build_huffman_tree table = Done root.
Proof.
  apply (tree_reproducible LittleEndian sample_table 11 [] 97).
  - reflexivity.
  - refine (bool_decide_unpack _ _). vm_compute. exact I.
  - unfold in_u64. lia.
  - lia.
  - reflexivity.
Defined.

(** C3: truncation handling.  [decompress_file] returns on every blob: it
    neither dereferences NULL, nor leaves an array, nor loops.  On a blob
    shorter than the 2056 bytes of the header it fails with one of the two
    header messages and writes no output.  Whenever it stops with an output
    whose length is not the count of the header, that output is short, the
    return value is 0 and "Unexpected end of compressed file" was printed;
    this is what happens when a table of two or more symbols is followed by
    fewer bits than the symbols to decode.  It returns 1 only with an output
    of exactly the count of the header. *)
Theorem decompress_truncation (host : byte_order) (blob : list byte) :
  ∃ r, Huffman.decompress_file host blob = Done r
    ∧ ((length blob < 2056)%nat → is_truncated_header r)
    ∧ (∀ out, output r = Some out →
         Z.of_nat (length out) ≠ header_total host blob →
         ret r = 0 ∧ stderr r = [UnexpectedEOF]
         ∧ Z.of_nat (length out) < header_total host blob)
    ∧ ((2056 ≤ length blob)%nat →
       (2 ≤ length (symbols_below (header_table host blob) 256))%nat →
       8 * Z.of_nat (length (drop 2056 blob)) < header_total host blob →
       ret r = 0 ∧ stderr r = [UnexpectedEOF])
    ∧ (ret r = 1 →
       ∃ out, output r = Some out
              ∧ Z.of_nat (length out) = header_total host blob).
Proof.
  destruct (decide (length blob < 2056)%nat) as [Hshort|Hlong].
  { destruct (decompress_file_short host blob Hshort) as (r & Hr & Ht).
    exists r. split; [done|]. split; [done|].
    destruct Ht as (Hret & Hout & _). rewrite Hret, Hout.
    repeat split; try done; lia. }
  assert (2056 ≤ length blob)%nat as Hlen by lia.
  destruct (header_read host blob Hlen) as (_ & _ & Hlf & _ & Htotal).
  rewrite (decompress_file_body host blob Hlen).
  destruct (symbols_cases (symbols_below (header_table host blob) 256))
    as [Hs|[[v Hs]|Hs]].
  - rewrite decode_body_empty by (done || (unfold in_u64 in Htotal; lia)).
    eexists. split; [done|]. split; [lia|].
    rewrite Hs. destruct (bool_decide (0 < header_total host blob)) eqn:Hb; simpl.
    + repeat split; try done; simpl; lia.
    + apply bool_decide_eq_false in Hb.
      assert (header_total host blob = 0) as -> by (unfold in_u64 in Htotal; lia).
      split; [by intros out [= <-]|]. split; [lia|]. intros _. by exists [].
  - rewrite (decode_body_single _ _ _ v) by done.
    eexists. split; [done|]. split; [lia|]. rewrite Hs. simpl.
    assert (Z.of_nat (length (replicate (Z.to_nat (header_total host blob))
                                (nat_to_byte v))) = header_total host blob) as Hl.
    { rewrite length_replicate. unfold in_u64 in Htotal. lia. }
    split; [intros out [= <-]; by rewrite Hl|]. split; [lia|].
    intros _. by eexists.
  - destruct (decode_body_many (header_total host blob) (header_table host blob)
                (drop 2056 blob) Hlf Hs Htotal)
      as (w & o & p & -> & Hw & Hbits & Hcase).
    eexists. split; [done|]. split; [lia|]. simpl.
    split; [|split].
    + intros out [= <-] Hne.
      destruct Hcase as [[-> ->]|[Hlt ->]]; [lia|].
      rewrite decide_False by lia. split; [done|]. split; [done|lia].
    + intros _ _ Hfew. destruct Hcase as [[-> ->]|[Hlt ->]]; [lia|].
      by rewrite decide_False by lia.
    + destruct (decide (w = header_total host blob)) as [<-|]; [|done].
      intros _. by exists o.
Qed.

(** A blob cut inside its bit stream, and one cut inside its header. *)
Example decompress_cut_bitstream :
  Huffman.decompress_file LittleEndian
    (take 2056 (output_of (Huffman.compress_file LittleEndian sample_abracadabra))
     ++ [x00])
  = Done {| ret := 0;
            output := Some ["a"; "a"; "a"; "a"; "a"; "a"; "a"; "a"]%byte;
            stderr := [UnexpectedEOF] |}.
Proof. vm_compute. reflexivity. Qed.

Example decompress_cut_header :
  Huffman.decompress_file LittleEndian
    (take 2055 (output_of (Huffman.compress_file LittleEndian sample_abracadabra)))
  = Done {| ret := 0; output := None; stderr := [CannotReadTable] |}.
Proof. vm_compute. reflexivity. Qed.

(** C4: empty input.  On the empty file [compress_file] returns 0, prints
    that the input is empty and opens no output file, in both source files;
    and a call that returns 1 was given a nonempty input. *)
Theorem compress_empty_input (host : byte_order) :
  Huffman.compress_file host []
  = Done {| ret := 0; output := None; stderr := [EmptyInput] |}
  ∧ Huffman2.compress_file host []
    = Done {| ret := 0; output := None; stderr := [EmptyInput] |}
  ∧ (∀ b r, Huffman.compress_file host b = Done r → ret r = 1 → b ≠ [])
  ∧ (∀ b r, Huffman2.compress_file host b = Done r → ret r = 1 → b ≠ []).
Proof.
  assert (Huffman.compress_file host []
          = Done {| ret := 0; output := None; stderr := [EmptyInput] |}) as H1
    by (vm_compute; reflexivity).
  assert (Huffman2.compress_file host []
          = Done {| ret := 0; output := None; stderr := [EmptyInput] |}) as H2
    by (vm_compute; reflexivity).
  split; [done|]. split; [done|]. split.
  - intros b r Hc Hret ->. rewrite H1 in Hc. by injection Hc as <-.
  - intros b r Hc Hret ->. rewrite H2 in Hc. by injection Hc as <-.
Qed.

(** C5: the degenerate single-symbol case.  When [v] is the only byte with
    a nonzero count, the tree is the single leaf of [v], [generate_codes]
    gives [v] the code "0" and no other byte a code, and [decompress_file]
    on the header of that table, followed by any bytes at all, writes [v]
    exactly [total_chars] times and returns 1. *)
Theorem degenerate_single_symbol (host : byte_order) (frequencies : list Z)
    (v : byte) (total_chars : Z) (codes0 : list (option cstring))
    (bitstream : list byte) :
  length frequencies = 256%nat → Forall in_u64 frequencies →
  in_u64 total_chars → length codes0 = 256%nat →
  0 < entry frequencies (byte_index v) →
  (∀ k, (k < 256)%nat → k ≠ byte_index v → entry frequencies k = 0) →
  ∃ root codes,
    Huffman.build_huffman_tree frequencies = Done root
    ∧ Huffman.generate_codes root codes0 = Done codes
    ∧ codes !! byte_index v = Some (Some ["0"%char])
    ∧ (∀ k, (k < 256)%nat → k ≠ byte_index v → codes !! k = Some None)
    ∧ Huffman.decompress_file host
        (blob_header host total_chars frequencies ++ bitstream)
      = Done {| ret := 1;
                output := Some (replicate (Z.to_nat total_chars) v);
                stderr := [] |}.
Proof.
  intros Hlen Hf Ht Hlen0 Hpos Hzero.
  pose proof (byte_index_lt v) as Hv.
  pose proof (symbols_single frequencies (byte_index v) Hv Hpos Hzero) as Hs.
  destruct (build_huffman_tree_spec frequencies Hlen)
    as (root & Hbuild & _ & _ & Hleaf & _); [by rewrite Hs|].
  rewrite (Hleaf _ Hs) in Hbuild. unfold leaf_of in Hbuild.
  rewrite nat_to_byte_index in Hbuild.
  eexists _, _. split; [done|]. split; [by apply generate_codes_leaf|].
  split; [|split].
  - apply list_lookup_insert_eq. rewrite length_replicate. lia.
  - intros k Hk Hne. rewrite list_lookup_insert_ne by done.
    by apply lookup_replicate_2.
  - unfold blob_header. rewrite header_written by done.
    rewrite (decode_body_single _ _ _ (byte_index v)) by done.
    by rewrite nat_to_byte_index.
Qed.

Lemma degenerate_single_symbol_witness :
  ∃ root codes,
    Huffman.build_huffman_tree sample_single_table = Done root
    ∧ Huffman.generate_codes root (replicate 256 None) = Done codes
    ∧ codes !! byte_index "A"%byte = Some (Some ["0"%char])
    ∧ (∀ k, (k < 256)%nat → k ≠ byte_index "A"%byte → codes !! k = Some None)
    ∧ Huffman.decompress_file BigEndian
        (blob_header BigEndian 4 sample_single_table ++ [x00; xff])
      = Done {| ret := 1;
                output := Some (replicate (Z.to_nat 4) "A"%byte);
                stderr := [] |}.
Proof.
  apply (degenerate_single_symbol BigEndian sample_single_table "A"%byte 4
           (replicate 256 None) [x00; xff]).
  - reflexivity.
  - refine (bool_decide_unpack _ _). vm_compute. exact I.
  - unfold in_u64. lia.
  - reflexivity.
  - reflexivity.
  - intros k Hk Hne. change (byte_index "A"%byte) with 65%nat in Hne.
    unfold sample_single_table. rewrite entry_insert by (vm_compute; lia).
    rewrite decide_False by congruence. apply entry_replicate.
Defined.

(** C6: header integrity.  For an input of fewer than 2^64 bytes (no file is
    longer, and the 64-bit counters do not wrap), the file [compress_file]
    writes starts with a header whose total is the length of the input, whose
    counter of each byte is the number of its occurrences in the input, and
    whose 256 counters add up to the total. *)
Theorem header_integrity (host : byte_order) (b : list byte) (r : result)
    (blob : list byte) :
  Z.of_nat (length b) < 2 ^ 64 →
  Huffman.compress_file host b = Done r → output r = Some blob →
  ∃ total frequencies rest bitstream,
    fread_u64 host 1 blob = ([total], rest)
    ∧ fread_u64 host 256 rest = (frequencies, bitstream)
    ∧ length frequencies = 256%nat
    ∧ total = Z.of_nat (length b)
    ∧ (∀ v, entry frequencies (byte_index v) = Z.of_nat (occurrences v b))
    ∧ table_sum frequencies = total.
Proof.
  intros Hfit Hc Hout.
  destruct (compress_file_cases host b)
    as (f & total & Hcount & Hlen & Hf & Ht & Hnone & Hsome).
  destruct (count_pass_counts b (replicate 256 0) 0)
    as (f' & Hcount' & _ & Hocc & Hsum);
    [apply length_replicate|lia|lia|intros i; rewrite entry_replicate; lia|].
  rewrite Hcount in Hcount'. injection Hcount' as <- Htot.
  destruct (decide (symbols_below f 256 = [])) as [Hs|Hs].
  { rewrite (Hnone Hs) in Hc. injection Hc as <-. done. }
  destruct (Hsome Hs) as (bits & stopped & Hc'). rewrite Hc' in Hc.
  injection Hc as <-. cbn [output] in Hout. injection Hout as <-.
  exists total, f, (concat (u64_bytes host <$> f) ++ bits), bits.
  unfold blob_header, fwrite_u64.
  cbn [app fmap list_fmap concat]. rewrite app_nil_r, <- !app_assoc.
  pose proof (fread_u64_written host [total]
                (concat (u64_bytes host <$> f) ++ bits)) as H1.
  cbn [length fmap list_fmap concat] in H1. rewrite app_nil_r in H1.
  rewrite H1 by (by constructor).
  pose proof (fread_u64_written host f bits Hf) as H2. rewrite Hlen in H2.
  split; [done|]. split; [done|]. split; [done|]. split; [lia|]. split.
  - intros v. rewrite Hocc, entry_replicate. lia.
  - rewrite Hsum, table_sum_replicate. lia.
Qed.

Lemma header_integrity_witness :
  ∃ total frequencies rest bitstream,
    fread_u64 LittleEndian 1
      (output_of (Huffman.compress_file LittleEndian sample_abracadabra))
    = ([total], rest)
    ∧ fread_u64 LittleEndian 256 rest = (frequencies, bitstream)
    ∧ length frequencies = 256%nat
    ∧ total = Z.of_nat (length sample_abracadabra)
    ∧ (∀ v, entry frequencies (byte_index v)
            = Z.of_nat (occurrences v sample_abracadabra))
    ∧ table_sum frequencies = total.
Proof.
  apply (header_integrity LittleEndian sample_abracadabra
           {| ret := 1;
              output := Some (output_of
                (Huffman.compress_file LittleEndian sample_abracadabra));
              stderr := [] |}).
  - reflexivity.
  - vm_compute. reflexivity.
  - reflexivity.
Defined.

(** C7: prefix-freeness and Kraft's equality.  For a table of 256 counters
    with two different nonzero entries [i] and [j], [build_huffman_tree]
    returns a tree and [generate_codes] a table of 256 entries in which
    exactly the bytes with a nonzero count have a code; every code is a
    non-empty string of '0' and '1'; no code of one byte is a prefix of the
    code of another; and the sum of [2^-length(code)] over the codes is 1. *)
Theorem codebook_prefix_free_kraft (frequencies : list Z) (i j : nat)
    (codes0 : list (option cstring)) :
  length frequencies = 256%nat → length codes0 = 256%nat →
  (i < 256)%nat → (j < 256)%nat → i ≠ j →
  0 < entry frequencies i → 0 < entry frequencies j →
  ∃ root codes,
    Huffman.build_huffman_tree frequencies = Done root
    ∧ Huffman.generate_codes root codes0 = Done codes
    ∧ length codes = 256%nat
    ∧ (∀ k, (k < 256)%nat →
         0 < entry frequencies k ↔ ∃ s, codes !! k = Some (Some s))
    ∧ (∀ k s, codes !! k = Some (Some s) →
         s ≠ [] ∧ Forall (λ c, c = "0"%char ∨ c = "1"%char) s)
    ∧ (∀ k1 k2 s1 s2, codes !! k1 = Some (Some s1) →
         codes !! k2 = Some (Some s2) → k1 ≠ k2 → ¬ s1 `prefix_of` s2)
    ∧ (kraft_sum codes == 1)%Q.
Proof.
  intros Hlen Hlen0 Hi Hj Hij Hfi Hfj.
  assert (i ∈ symbols_below frequencies 256) as Hini
    by (by apply elem_of_symbols_below).
  assert (j ∈ symbols_below frequencies 256) as Hinj
    by (by apply elem_of_symbols_below).
  assert (2 ≤ length (symbols_below frequencies 256))%nat as Htwo.
  { destruct (symbols_below frequencies 256) as [|a [|b ?]]; simpl; [|exfalso|lia].
    - by apply elem_of_nil in Hini.
    - apply list_elem_of_singleton in Hini, Hinj. congruence. }
  destruct (build_huffman_tree_spec frequencies Hlen)
    as (root & Hbuild & Hfull & Hchars & _ & Hinner).
  { intros Hnil. rewrite Hnil in Htwo. simpl in Htwo. lia. }
  specialize (Hinner Htwo).
  assert (height root < 512)%nat as Hheight.
  { pose proof (height_lt_leaves root Hfull) as H.
    rewrite Hchars, length_fmap in H.
    pose proof (length_symbols_below frequencies 256). lia. }
  exists root, (assign (replicate 256 None) (code_paths root [])).
  split; [done|]. split; [by apply generate_codes_inner|].
  split; [by rewrite length_assign, length_replicate|].
  assert (∀ k, (k < 256)%nat → 0 < entry frequencies k →
            nat_to_byte k ∈ leaf_chars root) as Hleaf.
  { intros k Hk Hpos. rewrite Hchars. apply list_elem_of_fmap_2.
    by apply elem_of_symbols_below. }
  split; [|split; [|split]].
  - intros k Hk. split.
    + intros Hpos. specialize (Hleaf k Hk Hpos).
      rewrite <- code_paths_chars with (path := []) in Hleaf.
      apply list_elem_of_fmap in Hleaf as ([ch s] & Hch & Hin). simpl in Hch.
      exists s. apply table_lookup with (f := frequencies); [done|]. by subst.
    + intros [s Hs]. by apply table_lookup with (f := frequencies) in Hs as (_ & ? & _).
  - intros k s (_ & _ & Hin)%(table_lookup root frequencies); [|done]. split.
    + apply (code_paths_longer root [] _ Hinner) in Hin. simpl in Hin.
      intros ->. simpl in Hin. lia.
    + by apply (code_paths_bits root [] _ (Forall_nil_2 _)) in Hin.
  - intros k1 k2 s1 s2 (Hk1 & _ & H1)%(table_lookup root frequencies)
      (Hk2 & _ & H2)%(table_lookup root frequencies) Hne Hpre; [|done..].
    pose proof (code_paths_prefix_free root [] _ _ H1 H2 Hpre) as Heq.
    apply Hne. simplify_eq.
    by rewrite <- (byte_index_nat_to_byte k1), <- (byte_index_nat_to_byte k2), H
      by done.
  - rewrite kraft_sum_assign.
    + rewrite kraft_sum_replicate, (paths_weight_full root [] Hfull).
      unfold bits_weight. simpl. reflexivity.
    + rewrite code_paths_chars, Hchars. apply NoDup_symbol_bytes.
    + intros e _. apply lookup_replicate_2, byte_index_lt.
Qed.

Lemma codebook_prefix_free_kraft_witness :
  ∃ root codes,
    Huffman.build_huffman_tree sample_table = Done root
    ∧ Huffman.generate_codes root (replicate 256 None) = Done codes
    ∧ length codes = 256%nat
    ∧ (∀ k, (k < 256)%nat →
         0 < entry sample_table k ↔ ∃ s, codes !! k = Some (Some s))
    ∧ (∀ k s, codes !! k = Some (Some s) →
         s ≠ [] ∧ Forall (λ c, c = "0"%char ∨ c = "1"%char) s)
    ∧ (∀ k1 k2 s1 s2, codes !! k1 = Some (Some s1) →
         codes !! k2 = Some (Some s2) → k1 ≠ k2 → ¬ s1 `prefix_of` s2)
    ∧ (kraft_sum codes == 1)%Q.
Proof.
  apply (codebook_prefix_free_kraft sample_table 97 98 (replicate 256 None)).
  - reflexivity.
  - reflexivity.
  - lia.
  - lia.
  - lia.
  - reflexivity.
  - reflexivity.
Defined.

(** C8 does not hold of the code: the single bit 1, written and flushed,
    gives the byte 0x80 as the claim says, but the first bit read back from
    that byte is 0. *)
Theorem bit_order_mismatch :
  Huffman.bitwriter_flush
    (Huffman.bitwriter_write_bit (Huffman.bitwriter_create []) 1)
  = [x80]
  ∧ (Huffman.bitreader_read_bit (Huffman.bitreader_create [x80])).2
    = Some 0
  ∧ (Huffman2.bitreader_read_bit (Huffman2.bitreader_create [x80])).2
    = Some 0.
Proof. vm_compute. done. Qed.

(** C9: the all-zero header.  On 2056 zero bytes (a count of 0 and a table
    of zeros), followed by anything, [decompress_file] returns 1 with an
    empty output, although no file [compress_file] writes starts with such a
    header. *)
Theorem decompress_all_zero_header (host : byte_order) (rest : list byte) :
  Huffman.decompress_file host (replicate 2056 "000"%byte ++ rest)
  = Done {| ret := 1; output := Some []; stderr := [] |}
  ∧ (∀ b r blob, Huffman.compress_file host b = Done r →
       output r = Some blob → take 2056 blob ≠ replicate 2056 "000"%byte).
Proof.
  split.
  - rewrite (zero_header host). unfold blob_header.
    rewrite header_written;
      [|apply length_replicate|apply Forall_replicate; unfold in_u64; lia
       |unfold in_u64; lia].
    by rewrite decode_body_empty.
  - intros b r blob Hc Hout Hz.
    destruct (compress_file_cases host b)
      as (f & total & _ & Hlen & Hf & Ht & Hnone & Hsome).
    destruct (decide (symbols_below f 256 = [])) as [Hs|Hs].
    { rewrite (Hnone Hs) in Hc. by simplify_eq. }
    destruct (Hsome Hs) as (bits & stopped & Hc'). rewrite Hc' in Hc.
    injection Hc as <-. cbn [output] in Hout. injection Hout as <-.
    rewrite take_app_length' in Hz by (by rewrite length_blob_header).
    apply (f_equal (λ h, header_table host (h ++ []))) in Hz.
    rewrite (zero_header host), !header_table_written in Hz;
      [|apply length_replicate|apply Forall_replicate; unfold in_u64; lia
       |unfold in_u64; lia|done..].
    by rewrite Hz in Hs.
Qed.

(** C10: the two source files are the same codec.  On every input of fewer
    than 2^64 bytes [compress_file] of huffman2.c returns what
    [compress_file] of huffman.c returns: the same return value, the same
    output file, the same kind of message.  On every blob the two
    [decompress_file] do. *)
Theorem codecs_agree (host : byte_order) (b blob : list byte) :
  Z.of_nat (length b) < 2 ^ 64 →
  Huffman2.compress_file host b = Huffman.compress_file host b
  ∧ Huffman2.decompress_file host blob = Huffman.decompress_file host blob.
Proof.
  intros Hfit. split; [by apply compress_file_same|apply decompress_file_same].
Qed.

Lemma codecs_agree_witness :
  Huffman2.compress_file LittleEndian sample_ab
  = Huffman.compress_file LittleEndian sample_ab
  ∧ Huffman2.decompress_file LittleEndian
      (output_of (Huffman.compress_file LittleEndian sample_ab))
    = Huffman.decompress_file LittleEndian
        (output_of (Huffman.compress_file LittleEndian sample_ab)).
Proof.
  apply (codecs_agree LittleEndian sample_ab
           (output_of (Huffman.compress_file LittleEndian sample_ab))).
  reflexivity.
Defined.

(** * Lemmas for the further properties *)

(** ** The order of the heap *)

Lemma get_freq_weight p : nonnull p → get_freq p = Done (weight p).
Proof. by destruct p. Qed.

Lemma child_parent idx : (0 < idx)%nat → child ((idx - 1) / 2) idx.
Proof.
  intros H. unfold child.
  pose proof (Nat.div_mod_eq (idx - 1) 2) as Hd.
  pose proof (Nat.mod_upper_bound (idx - 1) 2). lia.
Qed.

Lemma lookup_swap {A} (l : list A) (a b k : nat) (x y : A) :
  l !! a = Some x → l !! b = Some y →
  <[b := x]> (<[a := y]> l) !! k
  = if decide (k = b) then Some x else if decide (k = a) then Some y else l !! k.
Proof.
  intros Ha Hb.
  pose proof (lookup_lt_Some _ _ _ Ha). pose proof (lookup_lt_Some _ _ _ Hb).
  destruct (decide (k = b)) as [->|].
  - rewrite list_lookup_insert_eq; [done|]. by rewrite length_insert.
  - rewrite list_lookup_insert_ne by done.
    destruct (decide (k = a)) as [->|].
    + by rewrite list_lookup_insert_eq.
    + by rewrite list_lookup_insert_ne.
Qed.

Lemma sift_up_done l idx :
  ordered_but_above l idx →
  (idx = 0%nat ∨ ∃ x y, l !! ((idx - 1) / 2)%nat = Some x ∧ l !! idx = Some y
                        ∧ weight x ≤ weight y) →
  heap_ordered l.
Proof.
  intros [HA _] Hd i c x y Hc Hi Hy.
  destruct (decide (c = idx)) as [->|]; [|eauto].
  destruct Hd as [->|(x' & y' & Hx' & Hy' & Hle)].
  { unfold child in Hc. lia. }
  assert (i = ((idx - 1) / 2)%nat) as ->.
  { unfold child in Hc. destruct Hc as [-> | ->].
    - replace (2 * i + 1 - 1)%nat with (i * 2)%nat by lia.
      by rewrite Nat.div_mul.
    - replace (2 * i + 2 - 1)%nat with (1 + i * 2)%nat by lia.
      by rewrite Nat.div_add. }
  by simplify_eq.
Qed.

Lemma sift_up_step l idx x y :
  ordered_but_above l idx → (0 < idx)%nat →
  l !! ((idx - 1) / 2)%nat = Some x → l !! idx = Some y →
  ¬ weight x ≤ weight y →
  ordered_but_above (<[idx := x]> (<[((idx - 1) / 2)%nat := y]> l)) ((idx - 1) / 2).
Proof.
  intros [HA HB] Hpos Hx Hy Hlt.
  pose proof (child_parent idx Hpos) as Hpar.
  set (p := ((idx - 1) / 2)%nat) in *.
  assert (p < idx)%nat as Hpi by (unfold child in Hpar; lia).
  split.
  - intros i c x' y' Hc Hne.
    rewrite !(lookup_swap l p idx _ x y) by done.
    repeat case_decide; subst; intros; simplify_eq;
      try (unfold child in *; lia).
    + eapply (HB p c); eauto.
    + assert (weight x ≤ weight y') by (eapply (HA p c); eauto).
      lia.
    + eapply (HA i c); eauto.
  - intros g c x' y' Hg Hc.
    rewrite !(lookup_swap l p idx _ x y) by done.
    repeat case_decide; subst; intros; simplify_eq;
      try (unfold child in *; lia).
    + eapply (HA g p); eauto. lia.
    + assert (weight x' ≤ weight x) by (eapply (HA g p); eauto; lia).
      assert (weight x ≤ weight y') by (eapply (HA p c); eauto).
      lia.
Qed.

Lemma heapify_up_loop_ordered fuel h idx l rest :
  data h = (Some <$> l) ++ rest → Forall nonnull l →
  (idx < length l)%nat → (idx ≤ fuel)%nat → ordered_but_above l idx →
  ∃ l', Huffman.heapify_up_loop fuel h idx
        = Done (with_data h ((Some <$> l') ++ rest)) ∧ l' ≡ₚ l ∧ heap_ordered l'.
Proof.
  revert h idx l. induction fuel as [|fuel IH]; intros h idx l Hd Hnn Hidx Hfuel Ho.
  - assert (idx = 0)%nat as -> by lia. exists l. simpl.
    rewrite <- Hd, with_data_id. split; [done|]. split; [done|].
    eapply sift_up_done; eauto.
  - simpl. destruct (decide (0 < idx)%nat) as [Hpos|Hz].
    2:{ exists l. rewrite <- Hd, with_data_id. split; [done|]. split; [done|].
        eapply sift_up_done; eauto. left. lia. }
    pose proof (half_lt idx Hpos) as Hpar.
    destruct (lookup_lt_is_Some_2 l ((idx - 1) / 2)) as [p Hp]; [lia|].
    destruct (lookup_lt_is_Some_2 l idx) as [c Hc]; [lia|].
    rewrite Hd, (cell_live _ _ _ _ Hp), (cell_live _ _ _ _ Hc). simpl.
    rewrite (get_freq_weight p), (get_freq_weight c)
      by (eapply Forall_lookup_1; eauto).
    simpl.
    destruct (decide (weight p ≤ weight c)).
    { exists l. rewrite <- Hd, with_data_id. split; [done|]. split; [done|].
      eapply sift_up_done; eauto 10. }
    rewrite (heap_swap_live _ _ _ _ _ _ Hp Hc). simpl.
    pose proof (swap_perm l _ _ _ _ Hp Hc) as Hperm.
    destruct (IH (with_data h ((Some <$> <[idx:=p]> (<[((idx - 1) / 2)%nat:=c]> l)) ++ rest))
                ((idx - 1) / 2)%nat (<[idx:=p]> (<[((idx - 1) / 2)%nat:=c]> l)))
      as (l' & Hl' & Hp' & Ho'); [done| | | | |].
    + by rewrite Hperm.
    + rewrite !length_insert. lia.
    + lia.
    + by apply sift_up_step.
    + exists l'. rewrite Hl'. split; [done|]. split; [|done]. by rewrite Hp'.
Qed.

Lemma pick_smaller_weight h l rest child smallest :
  data h = (Some <$> l) ++ rest → Forall nonnull l → size h = length l →
  (smallest < length l)%nat →
  ∃ s, Huffman.pick_smaller h child smallest = Done s
       ∧ ((s = smallest ∧ ∀ x y, l !! smallest = Some x → l !! child = Some y →
                                weight x ≤ weight y)
          ∨ (s = child ∧ ∃ x y, l !! smallest = Some x ∧ l !! child = Some y
                                ∧ weight y < weight x)).
Proof.
  intros Hd Hnn Hsz Hsm. unfold Huffman.pick_smaller.
  destruct (decide (child < size h)%nat) as [Hc|Hc].
  2:{ exists smallest. split; [done|]. left. split; [done|].
      intros x y _ Hy. apply lookup_lt_Some in Hy. lia. }
  destruct (lookup_lt_is_Some_2 l child) as [c Hlc]; [lia|].
  destruct (lookup_lt_is_Some_2 l smallest) as [s Hls]; [auto|].
  rewrite Hd, (cell_live _ _ _ _ Hlc), (cell_live _ _ _ _ Hls). simpl.
  rewrite (get_freq_weight c), (get_freq_weight s)
    by (eapply Forall_lookup_1; eauto).
  simpl. eexists. split; [done|].
  destruct (decide (weight c < weight s)).
  - right. eauto 10.
  - left. split; [done|]. intros x y ??. simplify_eq. lia.
Qed.

Lemma sift_down_done l idx :
  ordered_but_below l idx →
  (∀ c x y, child idx c → l !! idx = Some x → l !! c = Some y →
     weight x ≤ weight y) →
  heap_ordered l.
Proof.
  intros [HA _] Hd i c x y Hc Hi Hy.
  destruct (decide (i = idx)) as [->|]; eauto.
Qed.

Lemma sift_down_step l idx s x y :
  ordered_but_below l idx → child idx s →
  l !! idx = Some x → l !! s = Some y → weight y < weight x →
  (∀ c z, child idx c → l !! c = Some z → weight y ≤ weight z) →
  ordered_but_below (<[s := x]> (<[idx := y]> l)) s.
Proof.
  intros [HA HB] Hs Hx Hy Hlt Hmin.
  assert (idx < s)%nat as His by (unfold child in Hs; lia).
  split.
  - intros i c x' y' Hc Hne.
    rewrite !(lookup_swap l idx s _ x y) by done.
    repeat case_decide; subst; intros; simplify_eq;
      try (unfold child in *; lia).
    all: first [by eapply Hmin; eauto | by eapply HB; eauto | by eapply HA; eauto].
  - intros p c x' y' Hp Hc.
    rewrite !(lookup_swap l idx s _ x y) by done.
    repeat case_decide; subst; intros; simplify_eq;
      try (unfold child in *; lia).
    all: first [by eapply Hmin; eauto | by eapply HB; eauto
               | eapply HA; eauto; unfold child in *; lia].
Qed.

Lemma heapify_down_loop_ordered fuel h idx l rest :
  data h = (Some <$> l) ++ rest → Forall nonnull l → size h = length l →
  (idx < length l)%nat → (size h - idx < fuel)%nat → ordered_but_below l idx →
  ∃ l', Huffman.heapify_down_loop fuel h idx
        = Done (with_data h ((Some <$> l') ++ rest)) ∧ l' ≡ₚ l ∧ heap_ordered l'.
Proof.
  revert h idx l. induction fuel as [|fuel IH]; intros h idx l Hd Hnn Hsz Hidx Hfuel Ho.
  { lia. }
  simpl.
  destruct (lookup_lt_is_Some_2 l idx) as [x Hx]; [lia|].
  destruct (pick_smaller_weight h l rest (idx * 2 + 1) idx) as (s1 & -> & Hs1);
    [done..|].
  simpl.
  destruct (pick_smaller_weight h l rest (idx * 2 + 2) s1) as (s2 & -> & Hs2);
    [done..| |].
  { destruct Hs1 as [[-> _]|[-> (? & y & _ & Hy & _)]]; [done|].
    by eapply lookup_lt_Some. }
  simpl.
  destruct (decide (s2 = idx)) as [->|Hne].
  { exists l. rewrite <- Hd, with_data_id. split; [done|]. split; [done|].
    apply (sift_down_done l idx Ho). intros c x' y Hc Hx' Hy.
    destruct Hs2 as [[<- H2]|[? _]]; [|lia].
    destruct Hs1 as [[_ H1]|[? _]]; [|lia].
    destruct Hc as [-> | ->].
    - apply H1; [done|]. by replace (idx * 2 + 1)%nat with (2 * idx + 1)%nat by lia.
    - apply H2; [done|]. by replace (idx * 2 + 2)%nat with (2 * idx + 2)%nat by lia. }
  assert (∃ y, l !! s2 = Some y ∧ child idx s2 ∧ weight y < weight x
               ∧ ∀ c z, child idx c → l !! c = Some z → weight y ≤ weight z)
    as (y & Hy & Hcs & Hlt & Hmin).
  { replace (idx * 2 + 1)%nat with (2 * idx + 1)%nat in * by lia.
    replace (idx * 2 + 2)%nat with (2 * idx + 2)%nat in * by lia.
    destruct Hs1 as [[-> H1]|[-> (x1 & y1 & Hx1 & Hy1 & Hlt1)]];
      destruct Hs2 as [[-> H2]|[-> (x2 & y2 & Hx2 & Hy2 & Hlt2)]];
      simplify_eq.
    - exists y2. split; [done|]. split; [by right|]. split; [done|].
      intros c z [-> | ->] Hz; simplify_eq; [|lia].
      specialize (H1 _ _ Hx Hz). lia.
    - exists y1. split; [done|]. split; [by left|]. split; [done|].
      intros c z [-> | ->] Hz; simplify_eq; [lia|].
      by apply H2.
    - exists y2. split; [done|]. split; [by right|]. split; [lia|].
      intros c z [-> | ->] Hz; simplify_eq; lia. }
  rewrite Hd, (heap_swap_live _ _ _ _ _ _ Hx Hy). simpl.
  pose proof (swap_perm l _ _ _ _ Hx Hy) as Hperm.
  pose proof (lookup_lt_Some _ _ _ Hy) as Hs2lt.
  destruct (IH (with_data h ((Some <$> <[s2:=x]> (<[idx:=y]> l)) ++ rest))
              s2 (<[s2:=x]> (<[idx:=y]> l)))
    as (l' & Hl' & Hp' & Ho'); [done| | | | | |].
  - by rewrite Hperm.
  - simpl. rewrite !length_insert. lia.
  - rewrite !length_insert. lia.
  - simpl. unfold child in Hcs. lia.
  - by apply sift_down_step.
  - exists l'. rewrite Hl'. split; [done|]. split; [|done]. by rewrite Hp'.
Qed.

Lemma heap_ordered_min l m :
  heap_ordered l → l !! 0%nat = Some m → ∀ x, x ∈ l → weight m ≤ weight x.
Proof.
  intros Ho Hm x Hx. apply list_elem_of_lookup in Hx as [i Hi].
  revert x Hi. induction (lt_wf i) as [i _ IH]. intros x Hi.
  destruct (decide (0 < i)%nat) as [Hpos|].
  2:{ assert (i = 0%nat) as -> by lia. simplify_eq. lia. }
  pose proof (half_lt i Hpos) as Hlt.
  destruct (lookup_lt_is_Some_2 l ((i - 1) / 2)) as [p Hp].
  { apply lookup_lt_Some in Hi. lia. }
  pose proof (IH _ Hlt _ Hp).
  pose proof (Ho _ _ _ _ (child_parent i Hpos) Hp Hi). lia.
Qed.

Lemma heap_ordered_app l node :
  heap_ordered l → ordered_but_above (l ++ [node]) (length l).
Proof.
  intros Ho. split.
  - intros i c x y Hc Hne Hi Hy.
    assert (c < length l)%nat.
    { apply lookup_lt_Some in Hy. rewrite length_app in Hy. simpl in Hy. lia. }
    rewrite lookup_app_l in Hi by (unfold child in Hc; lia).
    rewrite lookup_app_l in Hy by done. eauto.
  - intros p c x y _ Hc _ Hy.
    apply lookup_lt_Some in Hy. rewrite length_app in Hy. simpl in Hy.
    unfold child in Hc. lia.
Qed.

Lemma heap_insert_ordered h l node :
  heap_holds h l → heap_ordered l → (size h < capacity h)%nat → nonnull node →
  ∃ h' l', Huffman.heap_insert h node = Done h' ∧ heap_holds h' l'
           ∧ heap_ordered l' ∧ l' ≡ₚ node :: l ∧ capacity h' = capacity h.
Proof.
  intros (Hsz & Hnn & Hcap & rest & Hd) Ho Hroom Hnode. unfold Huffman.heap_insert.
  rewrite decide_False by lia.
  assert (length rest = capacity h - size h)%nat as Hrest.
  { rewrite <- Hcap, Hd, length_app, length_fmap. lia. }
  destruct rest as [|r0 rest]; [simpl in Hrest; lia|].
  assert (store (data h) (size h) (Some node)
          = Done ((Some <$> (l ++ [node])) ++ rest)) as ->.
  { rewrite store_lt by lia. f_equal. rewrite Hd, Hsz.
    replace (length l) with (length (Some <$> l) + 0)%nat
      by (rewrite length_fmap; lia).
    rewrite insert_app_r. simpl. by rewrite fmap_app, <- app_assoc. }
  simpl. unfold Huffman.heapify_up.
  destruct (heapify_up_loop_ordered (size h)
              (with_data h ((Some <$> l ++ [node]) ++ rest)) (size h)
              (l ++ [node]) rest) as (l' & -> & Hperm & Ho'); [done| | |lia| |].
  { apply Forall_app. split; [done|]. by constructor. }
  { rewrite length_app. simpl. lia. }
  { rewrite Hsz. by apply heap_ordered_app. }
  simpl. eexists _, l'. split; [done|].
  assert (length l' = S (length l)) as Hlen.
  { rewrite Hperm, length_app. simpl. lia. }
  split; [|split; [done|split; [|done]]].
  - repeat split; simpl.
    + lia.
    + rewrite Hperm. apply Forall_app. split; [done|]. by constructor.
    + rewrite <- Hcap, Hd, !length_app, !length_fmap. simpl. lia.
    + by exists rest.
  - rewrite Hperm. by rewrite Permutation_app_comm.
Qed.

Lemma heap_ordered_behead m x tl :
  heap_ordered (m :: tl ++ [x]) → ordered_but_below (x :: tl) 0.
Proof.
  intros Ho. split.
  - intros i c a b Hc Hne Hi Hb.
    assert (c < S (length tl))%nat as Hlt by (by apply lookup_lt_Some in Hb).
    destruct i as [|i]; [done|]. destruct c as [|c]; [unfold child in Hc; lia|].
    simpl in Hi, Hb. apply (Ho (S i) (S c)); [done|simpl..].
    + rewrite lookup_app_l; [done|]. unfold child in Hc. lia.
    + rewrite lookup_app_l; [done|]. lia.
  - intros p c a b Hp. unfold child in Hp. lia.
Qed.

Lemma heap_extract_min_ordered h l :
  heap_holds h l → heap_ordered l → l ≠ [] →
  ∃ min h' l', Huffman.heap_extract_min h = Done (min, h') ∧ heap_holds h' l'
               ∧ heap_ordered l' ∧ l ≡ₚ min :: l' ∧ capacity h' = capacity h
               ∧ ∀ x, x ∈ l → weight min ≤ weight x.
Proof.
  intros (Hsz & Hnn & Hcap & rest & Hd) Ho Hne. unfold Huffman.heap_extract_min.
  destruct l as [|min tl]; [done|]. simpl in Hsz.
  pose proof (heap_ordered_min _ min Ho eq_refl) as Hmin.
  rewrite decide_False by lia.
  rewrite Hd, (cell_live (min :: tl) rest 0 min) by done. run_step.
  destruct (lookup_lt_is_Some_2 (min :: tl) (size h - 1)) as [last Hlast];
    [simpl; lia|].
  rewrite (cell_live (min :: tl) rest _ last) by done. run_step.
  rewrite (store_live (min :: tl) rest 0 last) by (simpl; lia). run_step.
  unfold Huffman.heapify_down. cbn [size insert list_insert].
  destruct tl as [|x tl _] using rev_ind.
  - destruct (heapify_down_loop_live (S (size h - 1))
        {| data := (Some <$> [last]) ++ rest; capacity := capacity h;
           size := size h - 1 |}
        0 [] (Some last :: rest)) as (l' & -> & Hperm);
      [done|apply Forall_nil_2|simpl in *; lia|simpl; lia|].
    apply Permutation_nil_r in Hperm as ->. run_step.
    eexists min, _, []. split; [done|]. split; [|split; [|done]].
    + repeat split; simpl in *; [lia|constructor|by rewrite <- Hcap, Hd|by eexists].
    + intros i c a b _ Hi. done.
  - rewrite length_app in Hsz. simpl in Hsz.
    assert (last = x) as ->.
    { replace (size h - 1)%nat with (S (length tl + 0)) in Hlast by lia.
      simpl in Hlast. rewrite lookup_app_r in Hlast by lia.
      replace (length tl + 0 - length tl)%nat with 0%nat in Hlast by lia.
      by simplify_eq/=. }
    assert (Forall nonnull (x :: tl)) as Hnn'.
    { apply Forall_cons in Hnn as [_ Hnn]. apply Forall_app in Hnn as [? Hx].
      apply Forall_cons. split; [|done]. by apply Forall_cons in Hx as [? _]. }
    destruct (heapify_down_loop_ordered (S (size h - 1))
        {| data := (Some <$> x :: tl ++ [x]) ++ rest;
           capacity := capacity h; size := size h - 1 |}
        0 (x :: tl) (Some x :: rest)) as (l' & -> & Hperm & Ho').
    { simpl. by rewrite fmap_app, <- app_assoc. }
    { done. }
    { simpl. lia. }
    { simpl. lia. }
    { simpl. lia. }
    { by eapply heap_ordered_behead. }
    run_step. eexists min, _, l'. split; [done|].
    assert (length l' = S (length tl)) as Hlen by (by rewrite Hperm).
    split; [|split; [done|split; [|done]]].
    + repeat split; simpl.
      * lia.
      * by rewrite Hperm.
      * rewrite <- Hcap, Hd. simpl.
        rewrite !length_app, !length_fmap, length_app. simpl. lia.
      * by eexists.
    + constructor. rewrite Hperm. by rewrite Permutation_app_comm.
Qed.

(** ** Huffman's rule on a bag of weights *)

Lemma spend_perm a a' : a ≡ₚ a' → spend a = spend a'.
Proof.
  induction 1 as [|e a a' _ IH|e e' a|a a' a'' _ IH1 _ IH2]; simpl; lia.
Qed.

Lemma kraft_at_perm H ds ds' : ds ≡ₚ ds' → kraft_at H ds = kraft_at H ds'.
Proof.
  induction 1 as [|e a a' _ IH|e e' a|a a' a'' _ IH1 _ IH2]; simpl; lia.
Qed.

Lemma spend_nonneg a : Forall (λ w, 0 ≤ w) a.*1 → 0 ≤ spend a.
Proof.
  induction a as [|[w d] a IH]; simpl; [lia|].
  intros [Hw Ha]%Forall_cons. specialize (IH Ha). simpl in Hw. nia.
Qed.

Lemma greedy_perm ws ws' c : greedy ws c → ws ≡ₚ ws' → greedy ws' c.
Proof.
  intros Hg. revert ws'. destruct Hg as [w|ws a b rest c Hws Ha Hb Hg]; intros ws' Hp.
  - apply Permutation_singleton_l in Hp as <-. constructor.
  - eapply greedy_step; [by rewrite <- Hp| |done..].
    intros x Hx. apply Ha. by rewrite Hp.
Qed.

(** Moving a least weight to a greatest depth does not cost more. *)
Lemma exchange (b : list (Z * nat)) (w : Z) (D : nat) :
  w ∈ b.*1 → (∀ x, x ∈ b.*1 → w ≤ x) →
  D ∈ b.*2 → (∀ d, d ∈ b.*2 → (d ≤ D)%nat) →
  ∃ b0, b.*1 ≡ₚ w :: b0.*1 ∧ b.*2 ≡ₚ D :: b0.*2
        ∧ w * Z.of_nat D + spend b0 ≤ spend b.
Proof.
  intros Hw Hmin HD Hmax.
  apply list_elem_of_fmap in Hw as ([w' d1] & -> & He).
  apply elem_of_Permutation in He as [b1 Hb1]. simpl in *.
  destruct (decide (d1 = D)) as [->|Hne].
  { exists b1. rewrite (spend_perm _ _ Hb1). split; [by rewrite Hb1|].
    split; [by rewrite Hb1|]. simpl. lia. }
  assert (D ∈ b1.*2) as HD1.
  { rewrite Hb1 in HD. simpl in HD. apply elem_of_cons in HD as [?|?]; [done|done]. }
  apply list_elem_of_fmap in HD1 as ([u D'] & -> & Hu).
  apply elem_of_Permutation in Hu as [b2 Hb2]. simpl in *.
  exists ((u, d1) :: b2). rewrite (spend_perm _ _ Hb1). simpl.
  rewrite (spend_perm _ _ Hb2). simpl.
  split; [by rewrite Hb1, Hb2|].
  split; [rewrite Hb1, Hb2; apply perm_swap|].
  assert (w' ≤ u).
  { apply Hmin. rewrite Hb1, Hb2. simpl. repeat constructor. }
  assert (d1 ≤ D')%nat.
  { apply Hmax. rewrite Hb1. simpl. repeat constructor. }
  nia.
Qed.

Lemma kraft_at_divide H D ds :
  (D ≤ H)%nat → Forall (λ d, (d < D)%nat) ds →
  (2 ^ Z.of_nat (H - D + 1) | kraft_at H ds).
Proof.
  intros HD. induction 1 as [|d ds Hd _ IH]; simpl.
  - apply Z.divide_0_r.
  - apply Z.divide_add_r; [|done].
    exists (2 ^ Z.of_nat (D - 1 - d)). rewrite <- Z.pow_add_r by lia.
    f_equal. lia.
Qed.

Lemma kraft_at_pos H ds : 0 ≤ kraft_at H ds.
Proof. induction ds as [|d ds IH]; simpl; [lia|].
  pose proof (Z.pow_pos_nonneg 2 (Z.of_nat (H - d))). lia. Qed.

(** In a complete list of two or more depths the greatest depth is not 0 and
    occurs twice. *)
Lemma deepest_twice H ds D :
  complete H ds → (2 ≤ length ds)%nat →
  D ∈ ds → (∀ d, d ∈ ds → (d ≤ D)%nat) →
  (1 ≤ D)%nat ∧ ∃ ds', ds ≡ₚ D :: D :: ds'.
Proof.
  intros [Hle Hk] Hlen HD Hmax.
  apply elem_of_Permutation in HD as [ds1 Hds1].
  assert (D ≤ H)%nat as HDH.
  { rewrite Hds1 in Hle. by apply Forall_cons in Hle as [? _]. }
  rewrite (kraft_at_perm _ _ _ Hds1) in Hk. simpl in Hk.
  assert (1 ≤ D)%nat as Hpos.
  { destruct (decide (1 ≤ D)%nat); [done|]. assert (D = 0%nat) as -> by lia.
    destruct ds1 as [|d ds1].
    { apply Permutation_length in Hds1. simpl in Hds1. lia. }
    assert (d ≤ 0)%nat by (apply Hmax; rewrite Hds1; by repeat constructor).
    assert (d = 0%nat) as -> by lia. simpl in Hk.
    pose proof (kraft_at_pos H ds1).
    replace (H - 0)%nat with H in Hk by lia.
    pose proof (Z.pow_pos_nonneg 2 (Z.of_nat H)). lia. }
  split; [done|].
  destruct (decide (D ∈ ds1)) as [Hin|Hnin].
  { apply elem_of_Permutation in Hin as [ds2 Hds2]. exists ds2.
    by rewrite Hds1, Hds2. }
  exfalso.
  assert (Forall (λ d, (d < D)%nat) ds1) as Hlt.
  { apply Forall_forall. intros d Hd.
    assert (d ≤ D)%nat by (apply Hmax; rewrite Hds1; by repeat constructor).
    assert (d ≠ D) by (by intros ->). lia. }
  destruct (kraft_at_divide H D ds1 HDH Hlt) as [k Hk1].
  rewrite Hk1 in Hk.
  replace (Z.of_nat H) with (Z.of_nat (H - D) + Z.of_nat D) in Hk by lia.
  replace (Z.of_nat (H - D + 1)) with (Z.of_nat (H - D) + 1) in Hk by lia.
  replace (Z.of_nat D) with (1 + Z.of_nat (D - 1)) in Hk by lia.
  rewrite !Z.pow_add_r in Hk by lia.
  pose proof (Z.pow_pos_nonneg 2 (Z.of_nat (H - D))).
  pose proof (Z.pow_pos_nonneg 2 (Z.of_nat (D - 1))).
  change (2 ^ 1) with 2 in Hk.
  set (p := 2 ^ Z.of_nat (H - D)) in *. set (q := 2 ^ Z.of_nat (D - 1)) in *.
  assert (p * (1 + 2 * k - 2 * q) = 0) as Hz by lia.
  apply Z.mul_eq_0 in Hz. lia.
Qed.

(** No assignment of depths that some full tree realises costs less than
    what Huffman's rule adds up. *)
Lemma greedy_least ws c :
  greedy ws c → Forall (λ w, 0 ≤ w) ws →
  ∀ H e, e.*1 ≡ₚ ws → complete H e.*2 → c ≤ spend e.
Proof.
  induction 1 as [w|ws a b rest c Hws Ha Hb _ IH]; intros Hnn H e Hw Hc.
  { apply spend_nonneg. by rewrite Hw. }
  assert (0 ≤ a ∧ 0 ≤ b ∧ Forall (λ w, 0 ≤ w) rest) as (Ha0 & Hb0 & Hr0).
  { rewrite Hws in Hnn. apply Forall_cons in Hnn as [? Hnn].
    by apply Forall_cons in Hnn as [? ?]. }
  set (D := max_list e.*2).
  assert (2 ≤ length e.*2)%nat as Hlen.
  { rewrite length_fmap, <- (length_fmap fst), Hw, Hws. simpl. lia. }
  assert (D ∈ e.*2) as HD.
  { apply max_list_elem_of. intros Hnil. rewrite Hnil in Hlen. simpl in Hlen. lia. }
  assert (∀ d, d ∈ e.*2 → (d ≤ D)%nat) as Hmax.
  { intros d Hd. by apply max_list_elem_of_le. }
  destruct (deepest_twice H _ D Hc Hlen HD Hmax) as (Hpos & ds' & Hds).
  destruct (exchange e a D) as (e0 & Hw0 & Hd0 & Hs0); [| |exact HD|exact Hmax|].
  { rewrite Hw, Hws. constructor. }
  { intros x Hx. apply Ha. by rewrite <- Hw. }
  assert (e0.*1 ≡ₚ b :: rest) as Hw0'.
  { apply Permutation_cons_inv with a. by rewrite <- Hw0, Hw. }
  assert (e0.*2 ≡ₚ D :: ds') as Hd0'.
  { apply Permutation_cons_inv with D. by rewrite <- Hd0. }
  destruct (exchange e0 b D) as (e1 & Hw1 & Hd1 & Hs1).
  { rewrite Hw0'. constructor. }
  { intros x Hx. rewrite Hw0' in Hx. apply elem_of_cons in Hx as [->|Hx]; [lia|by apply Hb]. }
  { rewrite Hd0'. constructor. }
  { intros d Hd. apply Hmax. rewrite Hd0. by constructor. }
  assert (e1.*1 ≡ₚ rest) as Hw1'.
  { apply Permutation_cons_inv with b. by rewrite <- Hw1. }
  assert (e1.*2 ≡ₚ ds') as Hd1'.
  { apply Permutation_cons_inv with D. by rewrite <- Hd1. }
  destruct Hc as [Hle Hk].
  assert (D ≤ H)%nat as HDH by (by eapply Forall_forall in Hle).
  specialize (IH ltac:(constructor; [lia|done]) H ((a + b, (D - 1)%nat) :: e1)).
  simpl in IH.
  assert (c ≤ (a + b) * Z.of_nat (D - 1) + spend e1) as Hc1.
  { apply IH; [by rewrite Hw1'|]. split.
    - constructor; [lia|]. rewrite Hd1'.
      rewrite Hds in Hle. apply Forall_cons in Hle as [_ Hle].
      by apply Forall_cons in Hle as [_ Hle].
    - simpl. rewrite (kraft_at_perm _ _ _ Hd1').
      rewrite (kraft_at_perm _ _ _ Hds) in Hk. simpl in Hk.
      replace (Z.of_nat (H - (D - 1))) with (Z.of_nat (H - D) + 1) by lia.
      rewrite Z.pow_add_r by lia. change (2 ^ 1) with 2. lia. }
  replace (Z.of_nat (D - 1)) with (Z.of_nat D - 1) in Hc1 by lia.
  lia.
Qed.

(** ** Counts and weighted path length of a tree *)

Lemma table_sum_perm (a b : list Z) : a ≡ₚ b → table_sum a = table_sum b.
Proof.
  unfold table_sum.
  induction 1 as [|e a a' _ IH|e e' a|a a' a'' _ IH1 _ IH2]; simpl; lia.
Qed.

Lemma table_sum_app (a b : list Z) : table_sum (a ++ b) = table_sum a + table_sum b.
Proof. unfold table_sum. induction a as [|x a IH]; simpl; lia. Qed.

Lemma spend_app a b : spend (a ++ b) = spend a + spend b.
Proof. induction a as [|x a IH]; simpl; lia. Qed.

Lemma kraft_at_app H a b : kraft_at H (a ++ b) = kraft_at H a + kraft_at H b.
Proof. induction a as [|x a IH]; simpl; lia. Qed.

Lemma depths_from_counts p d : (depths_from p d).*1 = (leaf_counts p).*2.
Proof.
  revert d. induction p as [|ch f l IHl r IHr]; intros d; [done|]. simpl.
  destruct (is_null l && is_null r); [done|].
  by rewrite !fmap_app, IHl, IHr.
Qed.

Lemma spend_deeper p d :
  spend (depths_from p (S d))
  = spend (depths_from p d) + table_sum (leaf_counts p).*2.
Proof.
  revert d. induction p as [|ch f l IHl r IHr]; intros d; [done|]. simpl.
  destruct (is_null l && is_null r).
  - simpl. unfold table_sum. simpl. lia.
  - rewrite !spend_app, fmap_app, table_sum_app, (IHl (S d)), (IHr (S d)). lia.
Qed.

Lemma full_not_leaf l r :
  full l → is_null l && is_null r = false.
Proof. by destruct 1. Qed.

Lemma path_cost_node ch f l r :
  full l →
  path_cost (Node ch f l r)
  = path_cost l + path_cost r
    + table_sum (leaf_counts l).*2 + table_sum (leaf_counts r).*2.
Proof.
  intros Hl. unfold path_cost. simpl. rewrite (full_not_leaf l r Hl).
  rewrite spend_app, !spend_deeper. lia.
Qed.

Lemma leaf_counts_node ch f l r :
  full l → leaf_counts (Node ch f l r) = leaf_counts l ++ leaf_counts r.
Proof. intros Hl. simpl. by rewrite (full_not_leaf l r Hl). Qed.

Lemma summed_total p : full p → summed p → weight p = table_sum (leaf_counts p).*2.
Proof.
  induction 1 as [ch f|ch f l r Hl IHl Hr IHr]; intros Hs.
  - unfold table_sum. simpl. lia.
  - destruct (decide (is_null l && is_null r = true)) as [Hleaf|Hnl].
    { simpl. rewrite Hleaf. unfold table_sum. simpl. lia. }
    apply not_true_is_false in Hnl. simpl in Hs. rewrite Hnl in Hs.
    destruct Hs as (-> & Hsl & Hsr). simpl weight.
    simpl leaf_counts. rewrite Hnl, fmap_app, table_sum_app. rewrite <- IHl, <- IHr; done.
Qed.

Lemma full_complete p d H :
  full p → (height p + d ≤ H)%nat →
  Forall (λ k, (k ≤ H)%nat) (depths_from p d).*2
  ∧ kraft_at H (depths_from p d).*2 = 2 ^ Z.of_nat (H - d).
Proof.
  intros Hf. revert d. induction Hf as [ch f|ch f l r Hl IHl Hr IHr]; intros d Hh.
  - simpl. split; [constructor; [lia|constructor]|lia].
  - destruct (decide (is_null l && is_null r = true)) as [Hleaf|Hnl].
    { simpl in *. rewrite Hleaf in *. simpl.
      split; [constructor; [lia|constructor]|lia]. }
    apply not_true_is_false in Hnl. simpl in *. rewrite Hnl in *.
    destruct (IHl (S d)) as [Hl1 Hl2]; [lia|].
    destruct (IHr (S d)) as [Hr1 Hr2]; [lia|].
    rewrite fmap_app, kraft_at_app, Hl2, Hr2. split; [by apply Forall_app|].
    replace (Z.of_nat (H - d)) with (Z.of_nat (H - S d) + 1) by lia.
    rewrite Z.pow_add_r by lia. change (2 ^ 1) with 2. lia.
Qed.

(** ** The merging loop follows Huffman's rule *)

Lemma table_sum_nonneg (a : list Z) : Forall (λ x, 0 ≤ x) a → 0 ≤ table_sum a.
Proof.
  unfold table_sum. induction 1 as [|x a Hx _ IH]; simpl; lia.
Qed.

Lemma merge_loop_greedy fuel h l :
  heap_holds h l → heap_ordered l → Forall full l → Forall summed l →
  Forall (λ t, 0 ≤ weight t) l → table_sum (weight <$> l) < 2 ^ 64 →
  l ≠ [] → (length l ≤ fuel)%nat → (length l ≤ capacity h)%nat →
  ∃ h' root c, Huffman.merge_loop fuel h = Done h' ∧ heap_holds h' [root]
    ∧ full root ∧ summed root ∧ leaf_counts root ≡ₚ l ≫= leaf_counts
    ∧ greedy (weight <$> l) c
    ∧ path_cost root = c + table_sum (path_cost <$> l).
Proof.
  revert h l. induction fuel as [|fuel IH];
    intros h l Hh Ho Hfull Hsum Hnn Hfit Hne Hfuel Hcap.
  { destruct l; [done|simpl in Hfuel; lia]. }
  pose proof Hh as (Hsz & _).
  cbn [Huffman.merge_loop]. destruct (decide (1 < size h)%nat) as [Hgt|Hle].
  2:{ destruct l as [|root [|??]]; simpl in *; [done| |lia].
      exists h, root, 0. split; [done|]. split; [done|].
      split; [by apply Forall_cons in Hfull as [? _]|].
      split; [by apply Forall_cons in Hsum as [? _]|].
      split; [by rewrite app_nil_r|]. split; [constructor|].
      unfold table_sum. simpl. lia. }
  destruct (heap_extract_min_ordered h l Hh Ho Hne)
    as (a & h1 & l1 & -> & Hh1 & Ho1 & Hl1 & Hc1 & Hmin1). run_step.
  assert (length l = S (length l1)) as Hlen1 by (by rewrite Hl1).
  destruct (heap_extract_min_ordered h1 l1 Hh1 Ho1)
    as (b & h2 & l2 & -> & Hh2 & Ho2 & Hl2 & Hc2 & Hmin2);
    [destruct l1; [simpl in *; lia|done]|].
  run_step.
  assert (length l1 = S (length l2)) as Hlen2 by (by rewrite Hl2).
  assert (l ≡ₚ a :: b :: l2) as Hl by (by rewrite Hl1, Hl2).
  rewrite Hl in Hfull, Hsum, Hnn. rewrite (table_sum_perm _ _ (fmap_Permutation weight _ _ Hl)) in Hfit.
  apply Forall_cons in Hfull as [Ha Hfull]. apply Forall_cons in Hfull as [Hb Hfull].
  apply Forall_cons in Hsum as [Hsa Hsum]. apply Forall_cons in Hsum as [Hsb Hsum].
  apply Forall_cons in Hnn as [Hna Hnn]. apply Forall_cons in Hnn as [Hnb Hnn].
  rewrite (get_freq_weight a (full_nonnull a Ha)).
  rewrite (get_freq_weight b (full_nonnull b Hb)).
  run_step. cbn [Huffman.create_node set_left set_right]. run_step.
  cbn [set_right]. run_step.
  assert (0 ≤ table_sum (weight <$> l2)) as Hrest.
  { apply table_sum_nonneg. by apply Forall_fmap. }
  change (table_sum (weight <$> a :: b :: l2))
    with (weight a + (weight b + table_sum (weight <$> l2))) in Hfit.
  rewrite u64_small by (unfold in_u64; lia).
  set (parent := Node "000" (weight a + weight b) a b).
  assert (full parent) as Hp by (by constructor).
  assert (summed parent) as Hsp.
  { simpl. by rewrite (full_not_leaf a b Ha). }
  destruct (heap_insert_ordered h2 l2 parent Hh2 Ho2)
    as (h3 & l3 & -> & Hh3 & Ho3 & Hl3 & Hc3); [|by apply full_nonnull|].
  { destruct Hh2 as (-> & _). lia. }
  run_step.
  assert (length l3 = S (length l2)) as Hlen3 by (by rewrite Hl3).
  destruct (IH h3 l3 Hh3 Ho3)
    as (h' & root & c & -> & Hh' & Hroot & Hsr & Hcounts & Hg & Hcost).
  { rewrite Hl3. by constructor. }
  { rewrite Hl3. by constructor. }
  { rewrite Hl3. constructor; [simpl; lia|done]. }
  { rewrite (table_sum_perm _ _ (fmap_Permutation weight _ _ Hl3)).
    change (table_sum (weight <$> parent :: l2))
      with (weight a + weight b + table_sum (weight <$> l2)). lia. }
  { destruct l3; [simpl in *; lia|done]. }
  { lia. }
  { lia. }
  exists h', root, (weight a + weight b + c).
  split; [done|]. split; [done|]. split; [done|]. split; [done|].
  split; [|split].
  - rewrite Hcounts, Hl3, Hl. subst parent. rewrite !bind_cons.
    rewrite (leaf_counts_node _ _ a b Ha). by rewrite app_assoc.
  - eapply (greedy_step _ (weight a) (weight b) (weight <$> l2)).
    + by rewrite Hl.
    + intros x Hx. apply list_elem_of_fmap in Hx as (t & -> & Ht). by apply Hmin1.
    + intros x Hx. apply list_elem_of_fmap in Hx as (t & -> & Ht). apply Hmin2.
      rewrite Hl2. by constructor.
    + eapply greedy_perm; [exact Hg|]. by rewrite Hl3.
  - rewrite Hcost.
    rewrite (table_sum_perm _ _ (fmap_Permutation path_cost _ _ Hl3)).
    rewrite (table_sum_perm _ _ (fmap_Permutation path_cost _ _ Hl)).
    change (table_sum (path_cost <$> parent :: l2))
      with (path_cost parent + table_sum (path_cost <$> l2)).
    change (table_sum (path_cost <$> a :: b :: l2))
      with (path_cost a + (path_cost b + table_sum (path_cost <$> l2))).
    subst parent. rewrite (path_cost_node _ _ a b Ha).
    rewrite <- (summed_total a Ha Hsa), <- (summed_total b Hb Hsb). lia.
Qed.

Lemma leaves_loop_ordered f cap :
  length f = 256%nat → (length (symbols_below f 256) < cap)%nat →
  ∃ heap l,
    for_range 0 256 (λ i heap,
        f ← load f i;
        if decide (0 < f)
        then Huffman.heap_insert heap (Huffman.create_node (nat_to_byte i) f)
        else Done heap) (Huffman.heap_create cap) = Done heap
    ∧ heap_holds heap l ∧ heap_ordered l
    ∧ l ≡ₚ leaf_of f <$> symbols_below f 256
    ∧ capacity heap = cap.
Proof.
  intros Hlen Hcap.
  destruct (for_range_inv
    (λ i heap, ∃ l, heap_holds heap l ∧ heap_ordered l
                    ∧ l ≡ₚ leaf_of f <$> symbols_below f i
                    ∧ capacity heap = cap)
    (λ i heap, f ← load f i;
       if decide (0 < f)
       then Huffman.heap_insert heap (Huffman.create_node (nat_to_byte i) f)
       else Done heap)
    256 0 (Huffman.heap_create cap)) as (heap & Hrun & l & Hh & Ho & Hl & Hc).
  - exists []. split; [apply heap_create_holds|]. split; [|done].
    by intros i c x y _ Hi.
  - intros i heap Hi (l & Hh & Ho & Hl & Hc). rewrite load_entry by lia. run_step.
    rewrite symbols_below_S. destruct (decide (0 < entry f i)) as [Hpos|Hz].
    + destruct (heap_insert_ordered heap l (leaf_of f i) Hh Ho)
        as (h' & l' & Hins & Hh' & Ho' & Hl' & Hc'); [|done|].
      * destruct Hh as (-> & _). rewrite Hc, Hl, length_fmap.
        pose proof (symbols_below_mono f (S i) 256 ltac:(lia)) as Hm.
        rewrite symbols_below_S, decide_True, length_app in Hm by done.
        simpl in Hm. lia.
      * exists h'. split; [done|]. exists l'. split; [done|]. split; [done|].
        split; [|congruence].
        rewrite Hl', Hl, fmap_app. simpl. by rewrite Permutation_app_comm.
    + exists heap. split; [done|]. exists l. by rewrite app_nil_r.
  - exists heap, l. done.
Qed.

Lemma leaf_forest_counts f (s : list nat) :
  (leaf_of f <$> s) ≫= leaf_counts = (λ i, (nat_to_byte i, entry f i)) <$> s.
Proof.
  induction s as [|i s IH]; [done|].
  rewrite !fmap_cons, bind_cons, IH. done.
Qed.

Lemma leaf_forest_weights f (s : list nat) :
  weight <$> (leaf_of f <$> s) = entry f <$> s.
Proof. induction s as [|i s IH]; [done|]. rewrite !fmap_cons, IH. done. Qed.

Lemma leaf_forest_cost f (s : list nat) :
  table_sum (path_cost <$> (leaf_of f <$> s)) = 0.
Proof.
  induction s as [|i s IH]; [done|]. rewrite !fmap_cons.
  change (table_sum (?x :: ?a)) with (x + table_sum a). rewrite IH.
  unfold path_cost. simpl. lia.
Qed.

Lemma symbols_below_positive f n i : i ∈ symbols_below f n → 0 < entry f i.
Proof. unfold symbols_below. intros H. by apply list_elem_of_filter in H as [? _]. Qed.

Lemma build_huffman_tree_greedy f :
  length f = 256%nat → symbols_below f 256 ≠ [] →
  table_sum (entry f <$> symbols_below f 256) < 2 ^ 64 →
  ∃ root c, Huffman.build_huffman_tree f = Done root ∧ full root ∧ summed root
    ∧ leaf_counts root
      ≡ₚ (λ i, (nat_to_byte i, entry f i)) <$> symbols_below f 256
    ∧ greedy (entry f <$> symbols_below f 256) c
    ∧ path_cost root = c.
Proof.
  intros Hlen Hs Hfit. unfold Huffman.build_huffman_tree.
  rewrite count_loop by done. run_step.
  destruct (leaves_loop_ordered f (length (symbols_below f 256) * 2 + 4) Hlen)
    as (heap & l & Hrun & Hh & Ho & Hl & Hcap); [lia|].
  assert (Forall (λ i, 0 < entry f i) (symbols_below f 256)) as Hpos.
  { apply Forall_forall. intros i. apply symbols_below_positive. }
  remember (symbols_below f 256) as syms eqn:Hsyms.
  rewrite decide_False by (by destruct syms).
  rewrite Hrun. clear Hrun Hsyms.
  run_step. pose proof Hh as (Hsz & _).
  assert (length l = length syms) as Hll by (by rewrite Hl, length_fmap).
  assert (Forall full l) as Hfull.
  { rewrite Hl. apply Forall_fmap, Forall_true. intros i. constructor. }
  assert (Forall summed l) as Hsum.
  { rewrite Hl. apply Forall_fmap, Forall_true. intros i. exact I. }
  assert (Forall (λ t, 0 ≤ weight t) l) as Hnn.
  { rewrite Hl. apply Forall_fmap. eapply Forall_impl; [exact Hpos|].
    intros i Hi. unfold compose, leaf_of. simpl in *. lia. }
  assert (weight <$> l ≡ₚ entry f <$> syms) as Hw.
  { by rewrite Hl, leaf_forest_weights. }
  assert (l ≠ []) as Hne.
  { intros ->. destruct syms; [done|simpl in Hll; lia]. }
  destruct (merge_loop_greedy (size heap) heap l Hh Ho Hfull Hsum Hnn)
    as (h' & root & c & Hmerge & Hh' & Hroot & Hsr & Hcounts & Hg & Hcost);
    [by rewrite (table_sum_perm _ _ Hw)|done|lia|lia|].
  rewrite (table_sum_perm _ _ (fmap_Permutation path_cost _ _ Hl)),
    leaf_forest_cost, Z.add_0_r in Hcost.
  rewrite Hl, leaf_forest_counts in Hcounts.
  apply (greedy_perm _ _ _ Hg) in Hw.
  destruct (decide (size heap = 1)%nat) as [H1|H1].
  - destruct (heap_extract_min_holds heap l Hh Hne)
      as (min & h1 & l' & -> & _ & Hp & _). run_step.
    assert (l' = []) as ->.
    { apply Permutation_length in Hp. destruct l'; [done|]. simpl in *. lia. }
    apply Permutation_singleton_r in Hp as ->.
    rewrite H1 in Hmerge. cbn [Huffman.merge_loop] in Hmerge.
    rewrite decide_False in Hmerge by lia.
    injection Hmerge as <-.
    destruct Hh' as (_ & _ & _ & rest & Hd').
    destruct Hh as (_ & _ & _ & rest0 & Hd). rewrite Hd in Hd'. simpl in Hd'.
    injection Hd' as -> _. eauto 10.
  - rewrite Hmerge.
    run_step.
    destruct (heap_extract_min_holds h' [root] Hh')
      as (min & h'' & l'' & -> & _ & Hp & _); [done|].
    run_step.
    assert (l'' = []) as ->.
    { apply Permutation_length in Hp. destruct l''; [done|]. simpl in *. lia. }
    apply Permutation_singleton_l in Hp. simplify_eq. eauto 10.
Qed.

Lemma symbols_sum_take f n :
  Forall (λ x, 0 ≤ x) f → (n ≤ length f)%nat →
  table_sum (entry f <$> symbols_below f n) = table_sum (take n f).
Proof.
  intros Hnn. induction n as [|n IH]; intros Hn; [done|].
  destruct (lookup_lt_is_Some_2 f n) as [x Hx]; [lia|].
  rewrite symbols_below_S, fmap_app, (take_S_r _ _ _ Hx), !table_sum_app, IH by lia.
  f_equal. pose proof (Forall_lookup_1 _ _ _ _ Hnn Hx) as H0. simpl in H0.
  unfold entry. rewrite Hx. simpl. destruct (decide (0 < x)).
  - simpl. unfold entry. by rewrite Hx.
  - unfold table_sum. simpl. lia.
Qed.

Lemma symbols_sum f :
  Forall (λ x, 0 ≤ x) f →
  table_sum (entry f <$> symbols_below f (length f)) = table_sum f.
Proof.
  intros Hnn. rewrite symbols_sum_take by done. by rewrite firstn_all.
Qed.

(** ** A heap that grows *)





(** ** Length and order of the code bits *)

Lemma code_paths_depth p path e :
  e ∈ code_paths p path → (length e.2 ≤ length path + height p)%nat.
Proof.
  revert path. induction p as [|ch f l IHl r IHr]; intros path He; simpl in *.
  { by apply elem_of_nil in He. }
  destruct (is_null l && is_null r).
  - apply list_elem_of_singleton in He as ->. simpl. lia.
  - apply elem_of_app in He as [He|He].
    + apply IHl in He. rewrite length_app in He. simpl in He. lia.
    + apply IHr in He. rewrite length_app in He. simpl in He. lia.
Qed.

Lemma bitwriter_write_bits_char s bw :
  Huffman.bitwriter_write_bits_from_string bw s
  = Huffman.bitwriter_write_bits_from_string bw (bit_char <$> (char_bit <$> s)).
Proof.
  revert bw. induction s as [|c s IH]; intros bw; [done|].
  cbn [Huffman.bitwriter_write_bits_from_string fmap list_fmap].
  rewrite <- IH. f_equal. f_equal. unfold char_bit.
  destruct (decide (c = "1"%char)) as [->|Hne]; [done|].
  by rewrite bool_decide_eq_false_2.
Qed.

Lemma lsb_bits_msb_chunk b0 b1 b2 b3 b4 b5 b6 b7 :
  lsb_bits (msb_byte [b0; b1; b2; b3; b4; b5; b6; b7])
  = bit_value <$> [b7; b6; b5; b4; b3; b2; b1; b0].
Proof. destruct b0, b1, b2, b3, b4, b5, b6, b7; reflexivity. Qed.

Lemma lsb_bits_msb_partial s :
  s ≠ [] → (length s < 8)%nat →
  pack_msb s ≫= lsb_bits = bit_value <$> lsb_view s.
Proof.
  intros Hne Hlen. destruct s as [|b0 s]; [done|]. destruct b0.
  all: do 7 (destruct s as [|[|] s]; [reflexivity| |]).
  all: simpl in Hlen; lia.
Qed.

Lemma lsb_bits_pack_msb s : pack_msb s ≫= lsb_bits = bit_value <$> lsb_view s.
Proof.
  remember (length s) as n eqn:Hn. revert s Hn.
  induction n as [n IH] using lt_wf_ind. intros s ->.
  destruct s as [|b s]; [done|].
  destruct (decide (length (b :: s) < 8)%nat) as [Hshort|Hlong].
  { by apply lsb_bits_msb_partial. }
  do 7 (destruct s as [|? s]; [simpl in Hlong; lia|]).
  rewrite pack_msb_chunk, bind_cons, lsb_bits_msb_chunk.
  rewrite (IH (length s) ltac:(simpl; lia) s eq_refl).
  change (lsb_view (b :: b0 :: b1 :: b2 :: b3 :: b4 :: b5 :: b6 :: s))
    with ([b6; b5; b4; b3; b2; b1; b0; b] ++ lsb_view s).
  by rewrite fmap_app.
Qed.

(** ** The output of [compress_file] *)

Lemma encode_pass_bits input codes bw :
  length codes = 256%nat →
  (∀ c, c ∈ input → ∃ s, codes !! byte_index c = Some (Some s)) →
  Huffman.encode_pass input codes bw
  = Done (Huffman.bitwriter_write_bits_from_string bw (code_bits codes input), None).
Proof.
  intros Hlen. revert bw. induction input as [|uc input IH]; intros bw Hall.
  - done.
  - cbn [Huffman.encode_pass].
    destruct (Hall uc) as [s Hs]; [by left|].
    rewrite (load_lookup _ _ _ Hs). run_step.
    rewrite IH by (intros c Hc; apply Hall; by right).
    unfold code_bits. rewrite bind_cons, bitwriter_write_bits_app.
    unfold code_of at 2. by rewrite Hs.
Qed.

(** What [compress_file] computes on the way to its output. *)
Lemma compress_file_exact host b :
  b ≠ [] → Z.of_nat (length b) < 2 ^ 64 →
  ∃ f root codes,
    Huffman.count_pass b (replicate 256 0) 0 = Done (f, Z.of_nat (length b))
    ∧ length f = 256%nat ∧ Forall in_u64 f
    ∧ (∀ v, entry f (byte_index v) = Z.of_nat (occurrences v b))
    ∧ table_sum f = Z.of_nat (length b)
    ∧ Huffman.build_huffman_tree f = Done root ∧ full root
    ∧ leaf_chars root ≡ₚ nat_to_byte <$> symbols_below f 256
    ∧ Huffman.generate_codes root (replicate 256 None) = Done codes
    ∧ length codes = 256%nat
    ∧ (∀ c, c ∈ b → ∃ s, codes !! byte_index c = Some (Some s))
    ∧ Huffman.compress_file host b
      = Done {| ret := 1;
                output := Some (blob_header host (Z.of_nat (length b)) f
                                ++ pack_msb (char_bit <$> code_bits codes b));
                stderr := [] |}.
Proof.
  intros Hne Hfit.
  destruct (count_pass_counts b (replicate 256 0) 0)
    as (f & Hcount & Hlen & Hocc & Hsum);
    [apply length_replicate|lia|lia|intros i; rewrite entry_replicate; lia|].
  rewrite Z.add_0_l in Hcount. rewrite table_sum_replicate, Z.add_0_l in Hsum.
  destruct (count_pass_returns b (replicate 256 0) 0)
    as (f' & t' & Hcount' & _ & Hf & _);
    [apply length_replicate|apply Forall_replicate; unfold in_u64; lia
    |unfold in_u64; lia|].
  rewrite Hcount in Hcount'. injection Hcount' as <- <-.
  assert (∀ c, c ∈ b → 0 < entry f (byte_index c)) as Hpos.
  { intros c Hc. rewrite Hocc, entry_replicate.
    pose proof (occurrences_elem c b Hc). lia. }
  destruct (build_huffman_tree_spec f Hlen) as (root & Hbuild & Hfull & Hchars & _).
  { destruct b as [|c b]; [done|]. intros Hs.
    assert (byte_index c ∈ symbols_below f 256) as Hin.
    { apply elem_of_symbols_below. split; [apply byte_index_lt|].
      apply Hpos. by left. }
    rewrite Hs in Hin. by apply elem_of_nil in Hin. }
  destruct (generate_codes_returns root (replicate 256 None) Hfull)
    as (codes & Hgen & Hcodes);
    [by eapply built_tree_height|apply length_replicate|].
  assert (∀ c, c ∈ b → ∃ s, codes !! byte_index c = Some (Some s)) as Hall.
  { intros c Hc.
    destruct (input_bytes_have_codes f root (replicate 256 None) c Hlen
                (length_replicate _ _) Hfull Hchars (Hpos c Hc))
      as (codes' & s & Hgen' & _ & Hs).
    rewrite Hgen in Hgen'. injection Hgen' as <-. by exists s. }
  exists f, root, codes.
  split; [exact Hcount|]. split; [exact Hlen|]. split; [exact Hf|].
  split; [intros v; by rewrite Hocc, entry_replicate|].
  split; [exact Hsum|]. split; [exact Hbuild|]. split; [exact Hfull|].
  split; [exact Hchars|]. split; [exact Hgen|]. split; [exact Hcodes|].
  split; [exact Hall|].
  unfold Huffman.compress_file. rewrite Hcount. run_step.
  rewrite Hbuild. run_step. rewrite (full_not_null root Hfull).
  rewrite Hgen. run_step.
  rewrite (encode_pass_bits b codes _ Hcodes Hall). run_step.
  rewrite bitwriter_write_bits_char.
  destruct (bitwriter_packs (char_bit <$> code_bits codes b)
              (fwrite_u64 host f (fwrite_u64 host [Z.of_nat (length b)] [])))
    as [Hp _].
  unfold blob_header. rewrite <- Hp. reflexivity.
Qed.

(** ** Decoding code words *)

Lemma pending_nil br :
  br_fp br = [] → br_bit_count br = 0 → pending br = [].
Proof. intros Hfp Hbc. unfold pending. by rewrite Hfp, Hbc. Qed.

(** One call of the reader takes the first pending bit. *)
Lemma read_bit_pending br bit rest :
  0 ≤ br_bit_count br ≤ 8 → pending br = bit :: rest →
  ∃ br', Huffman.bitreader_read_bit br = (br', Some bit)
    ∧ pending br' = rest ∧ 0 ≤ br_bit_count br' ≤ 8
    ∧ (bits_left br' < bits_left br)%nat.
Proof.
  intros Hbc Hp.
  pose proof (bitreader_read_bit_spec br Hbc) as Hspec.
  pose proof (λ n, read_bits_pending (S n) br Hbc) as Hread.
  cbn [read_bits] in Hread.
  destruct (Huffman.bitreader_read_bit br) as [br' [b|]].
  - destruct Hspec as [Hbc' Hless]. exists br'.
    pose proof (Hread (length (pending br') + length rest)%nat) as Hn.
    rewrite Hp in Hn. cbn [take] in Hn. injection Hn as -> Hn.
    rewrite read_bits_pending in Hn by done.
    rewrite !take_ge in Hn by lia. by subst.
  - destruct Hspec as (_ & Hfp & Hz). by rewrite pending_nil in Hp.
Qed.

Lemma is_leaf_node ch f l r : is_leaf (Node ch f l r) = is_null l && is_null r.
Proof. by destruct l, r. Qed.

(** From an inner node the decoding loop follows the rest of a code word
    down to its leaf and writes the byte of the leaf. *)
Lemma decode_symbol n :
  ∀ node path c s fuel br root written total out rest,
  length s = (length path + n)%nat →
  full node → is_leaf node = false → (c, s) ∈ code_paths node path →
  pending br = (bit_value <$> (char_bit <$> drop (length path) s)) ++ rest →
  0 ≤ br_bit_count br ≤ 8 → (bits_left br < fuel)%nat → written < total →
  ∃ fuel' br',
    Huffman.decode_loop fuel br root node written total out
    = Huffman.decode_loop fuel' br' root root (u64 (written + 1)) total
        (out ++ [c])
    ∧ pending br' = rest ∧ 0 ≤ br_bit_count br' ≤ 8
    ∧ (bits_left br' < fuel')%nat.
Proof.
  induction n as [|n IH];
    intros node path c s fuel br root written total out rest
      Hn Hfull Hleaf Hin Hp Hbc Hfuel Hlt.
  { pose proof (code_paths_longer _ _ _ Hleaf Hin) as Hl. simpl in Hl. lia. }
  destruct Hfull as [ch f|ch f l r Hl Hr]; [done|].
  rewrite is_leaf_node in Hleaf. cbn [code_paths] in Hin. rewrite Hleaf in Hin.
  destruct fuel as [|fuel]; [lia|].
  cbn [Huffman.decode_loop]. rewrite decide_True by done.
  assert (∃ child bit s',
            full child ∧ (c, s) ∈ code_paths child (path ++ [bit_char bit])
            ∧ s = (path ++ [bit_char bit]) ++ s'
            ∧ (if decide (bit_value bit = 0) then get_left (Node ch f l r)
               else get_right (Node ch f l r)) = Done child)
    as (child & bit & s' & Hchild & Hin' & -> & Hgo).
  { apply elem_of_app in Hin as [Hin|Hin].
    - destruct (code_paths_prefix _ _ _ Hin) as [s' Hs']. simpl in Hs'.
      by exists l, false, s'.
    - destruct (code_paths_prefix _ _ _ Hin) as [s' Hs']. simpl in Hs'.
      by exists r, true, s'. }
  pose proof Hp as Hp0.
  rewrite <- app_assoc, drop_app_length in Hp.
  assert (char_bit (bit_char bit) = bit) as Hbit by (by destruct bit).
  cbn [app fmap list_fmap] in Hp. rewrite Hbit in Hp.
  destruct (read_bit_pending br _ _ Hbc Hp) as (br' & -> & Hp' & Hbc' & Hless).
  rewrite Hgo. run_step.
  destruct (full_cases child Hchild) as (c' & f' & l' & r' & -> & Hcase).
  cbn [get_left get_right]. run_step.
  destruct Hcase as [Hnull|[Hnull Hinner]]; rewrite Hnull.
  - cbn [get_ch]. run_step. cbn [code_paths] in Hin'. rewrite Hnull in Hin'.
    apply list_elem_of_singleton in Hin'. injection Hin' as -> Heq.
    assert (s' = []) as ->.
    { apply (f_equal length) in Heq. rewrite !length_app in Heq.
      destruct s'; [done|simpl in Heq; lia]. }
    exists fuel, br'. split; [done|]. split; [done|]. split; [done|lia].
  - destruct (IH (Node c' f' l' r') (path ++ [bit_char bit]) c
                ((path ++ [bit_char bit]) ++ s') fuel br' root written total out rest)
      as (fuel' & br'' & -> & ? & ? & ?).
    + rewrite !length_app in *. simpl in *. lia.
    + done.
    + by destruct Hinner.
    + done.
    + by rewrite drop_app_length.
    + done.
    + lia.
    + done.
    + by exists fuel', br''.
Qed.

(** The decoding loop turns the code words of a sequence of bytes back into
    the bytes. *)
Lemma decode_word (code : byte → cstring) root total rest w :
  ∀ fuel br out,
  inner root → (∀ c, c ∈ w → (c, code c) ∈ code_paths root []) →
  pending br = (bit_value <$> (char_bit <$> (w ≫= code))) ++ rest →
  0 ≤ br_bit_count br ≤ 8 → (bits_left br < fuel)%nat →
  total = Z.of_nat (length out + length w) → in_u64 total →
  Huffman.decode_loop fuel br root root (Z.of_nat (length out)) total out
  = Done (total, out ++ w, []).
Proof.
  induction w as [|c w IH]; intros fuel br out Hroot Hcodes Hp Hbc Hfuel Ht Hfit.
  { destruct fuel as [|fuel]; [lia|]. cbn [Huffman.decode_loop].
    rewrite decide_False by (simpl in Ht; lia).
    rewrite app_nil_r. do 3 f_equal. simpl in Ht. lia. }
  destruct Hroot as [Hfull Hleaf].
  rewrite bind_cons, !fmap_app, <- app_assoc in Hp.
  destruct (decode_symbol (length (code c)) root [] c (code c) fuel br root
              (Z.of_nat (length out)) total out
              ((bit_value <$> (char_bit <$> w ≫= code)) ++ rest))
    as (fuel' & br' & -> & Hp' & Hbc' & Hfuel'); [done|done|done| | | | | |].
  - apply Hcodes. by left.
  - done.
  - done.
  - done.
  - simpl in Ht. lia.
  - rewrite u64_small by (unfold in_u64 in *; simpl in Ht; lia).
    replace (Z.of_nat (length out) + 1) with (Z.of_nat (length (out ++ [c])))
      by (rewrite length_app; simpl; lia).
    rewrite (IH fuel' br' (out ++ [c])); [by rewrite <- app_assoc| | |done..| |done].
    + by split.
    + intros c' Hc'. apply Hcodes. by right.
    + rewrite length_app. simpl in *. lia.
Qed.

Lemma lsb_view_chunk b0 b1 b2 b3 b4 b5 b6 b7 rest :
  lsb_view (b0 :: b1 :: b2 :: b3 :: b4 :: b5 :: b6 :: b7 :: rest)
  = [b7; b6; b5; b4; b3; b2; b1; b0] ++ lsb_view rest.
Proof. reflexivity. Qed.

(** Mirrored twice, the groups are back in order, with the padding at the end. *)
Lemma lsb_view_twice s : ∃ k, lsb_view (lsb_view s) = s ++ replicate k false.
Proof.
  remember (length s) as n eqn:Hn. revert s Hn.
  induction n as [n IH] using lt_wf_ind. intros s ->.
  destruct s as [|b s]; [by exists 0%nat|].
  destruct (decide (length (b :: s) < 8)%nat) as [Hshort|Hlong].
  { do 7 (destruct s as [|? s];
            [match goal with
             | |- ∃ k, lsb_view (lsb_view ?l) = _ =>
                 exists (8 - length l)%nat; reflexivity
             end|]).
    simpl in Hshort. lia. }
  do 7 (destruct s as [|? s]; [simpl in Hlong; lia|]).
  destruct (IH (length s) ltac:(simpl; lia) s eq_refl) as [k Hk].
  exists k. rewrite lsb_view_chunk. cbn [app]. rewrite lsb_view_chunk, Hk. done.
Qed.

Lemma pending_create fp : pending (Huffman.bitreader_create fp) = fp ≫= lsb_bits.
Proof. reflexivity. Qed.

Lemma leaf_is_single p : full p → is_leaf p = true → length (leaf_chars p) = 1%nat.
Proof. intros [ch f|ch f l r Hl Hr] Hleaf; [done|]. by destruct Hl. Qed.

Lemma all_equal_replicate {A} (x : A) (l : list A) :
  (∀ y, y ∈ l → y = x) → l = replicate (length l) x.
Proof.
  induction l as [|y l IH]; intros Hall; [done|]. simpl.
  rewrite <- IH by (intros z Hz; apply Hall; by right).
  f_equal. apply Hall. by left.
Qed.

(** [decompress_file] on the header of a file followed by a stream that
    holds the code words of the file least significant bit first. *)
Lemma decompress_file_lsb host b f root codes stream junk :
  b ≠ [] → Z.of_nat (length b) < 2 ^ 64 →
  length f = 256%nat → Forall in_u64 f →
  (∀ v, entry f (byte_index v) = Z.of_nat (occurrences v b)) →
  Huffman.build_huffman_tree f = Done root → full root →
  leaf_chars root ≡ₚ nat_to_byte <$> symbols_below f 256 →
  Huffman.generate_codes root (replicate 256 None) = Done codes →
  (∀ c, c ∈ b → ∃ s, codes !! byte_index c = Some (Some s)) →
  stream ≫= lsb_bits = (bit_value <$> (char_bit <$> code_bits codes b)) ++ junk →
  Huffman.decompress_file host (blob_header host (Z.of_nat (length b)) f ++ stream)
  = Done {| ret := 1; output := Some b; stderr := [] |}.
Proof.
  intros Hne Hfit Hlen Hf Hocc Hbuild Hfull Hchars Hgen Hall Hstream.
  assert (in_u64 (Z.of_nat (length b))) as Hn by (unfold in_u64; lia).
  unfold blob_header. rewrite header_written by done.
  assert (∀ c, c ∈ b → byte_index c ∈ symbols_below f 256) as Hsym.
  { intros c Hc. apply elem_of_symbols_below. split; [apply byte_index_lt|].
    rewrite Hocc. pose proof (occurrences_elem c b Hc). lia. }
  destruct (symbols_cases (symbols_below f 256)) as [Hnil|[[v Hv]|Hmany]].
  - exfalso. destruct b as [|c b]; [by apply Hne|].
    specialize (Hsym c ltac:(by left)).
    rewrite Hnil in Hsym. by apply elem_of_nil in Hsym.
  - rewrite (decode_body_single _ _ _ v) by done. rewrite Nat2Z.id.
    do 3 f_equal. symmetry. apply all_equal_replicate.
    intros c Hc. specialize (Hsym c Hc). rewrite Hv in Hsym.
    apply list_elem_of_singleton in Hsym. by rewrite <- Hsym, nat_to_byte_index.
  - assert (is_leaf root = false) as Hleaf.
    { destruct (is_leaf root) eqn:E; [|done].
      pose proof (leaf_is_single root Hfull E) as H1.
      rewrite Hchars, length_fmap in H1. lia. }
    pose proof (generate_codes_inner root (replicate 256 None) Hfull Hleaf
                  (built_tree_height f root Hfull Hchars)
                  (length_replicate 256 None))
      as Hgen'.
    assert (codes = assign (replicate 256 None) (code_paths root [])) as ->
      by congruence.
    unfold decode_body. rewrite Hbuild. run_step.
    rewrite (full_not_null root Hfull). cbn [andb].
    rewrite unique_loop by done. run_step.
    rewrite decide_False by lia.
    rewrite (decode_word
               (code_of (assign (replicate 256 None) (code_paths root [])))
               root (Z.of_nat (length b)) junk b _ _ []).
    + run_step. by rewrite decide_True.
    + by split.
    + intros c Hc. destruct (Hall c Hc) as [s Hs]. unfold code_of. rewrite Hs.
      apply assign_Some in Hs as [Hs|(ch & Heq & Hin)].
      { apply lookup_replicate in Hs as [? _]. done. }
      by apply byte_index_inj in Heq as ->.
    + by rewrite pending_create.
    + simpl. lia.
    + unfold bits_left. simpl. lia.
    + done.
    + done.
Qed.

(** The tree built from a table whose sum fits 64 bits is a cheapest one. *)
Lemma built_tree_least f :
  length f = 256%nat → Forall (λ x, 0 ≤ x) f → 0 < table_sum f < 2 ^ 64 →
  ∃ root, Huffman.build_huffman_tree f = Done root ∧ full root
    ∧ leaf_counts root
      ≡ₚ (λ i, (nat_to_byte i, entry f i)) <$> symbols_below f 256
    ∧ ∀ t, full t → leaf_counts t ≡ₚ leaf_counts root →
        path_cost root ≤ path_cost t.
Proof.
  intros Hlen Hnn Hsum. pose proof (symbols_sum f Hnn) as Hs. rewrite Hlen in Hs.
  destruct (build_huffman_tree_greedy f Hlen)
    as (root & c & Hb & Hfull & _ & Hcounts & Hg & Hcost).
  { intros Hnil. rewrite Hnil in Hs. unfold table_sum in Hs at 1. simpl in Hs. lia. }
  { lia. }
  exists root. split; [done|]. split; [done|].
  split; [done|]. intros t Ht Hp. rewrite Hcost. unfold path_cost.
  apply (greedy_least _ _ Hg) with (H := height t).
  - apply Forall_fmap, Forall_forall. intros i Hi%symbols_below_positive.
    simpl. lia.
  - rewrite depths_from_counts, Hp, Hcounts, <- list_fmap_compose. done.
  - destruct (full_complete t 0 (height t) Ht) as [H1 H2]; [lia|].
    split; [done|]. rewrite H2. f_equal. lia.
Qed.

(** ** The length of the bit stream *)

Lemma codes_cost_app count kv1 kv2 :
  codes_cost count (kv1 ++ kv2) = codes_cost count kv1 + codes_cost count kv2.
Proof. induction kv1 as [|e kv1 IH]; simpl; lia. Qed.

(** The weighted path length of a tree, summed over its code words. *)
Lemma path_cost_by_codes (count : byte → Z) p path :
  (∀ ch fq, (ch, fq) ∈ leaf_counts p → fq = count ch) →
  spend (depths_from p (length path)) = codes_cost count (code_paths p path).
Proof.
  revert path. induction p as [|ch f l IHl r IHr]; intros path Hc; [done|].
  simpl in *. destruct (is_null l && is_null r).
  - simpl. rewrite (Hc ch f) by (by left). lia.
  - rewrite spend_app, codes_cost_app.
    rewrite <- (IHl (path ++ ["0"%char])), <- (IHr (path ++ ["1"%char])).
    + rewrite !length_app. simpl. by rewrite !Nat.add_1_r.
    + intros ch' fq Hin. apply Hc, elem_of_app. by right.
    + intros ch' fq Hin. apply Hc, elem_of_app. by left.
Qed.

Lemma codes_cost_indicator (c : byte) kv s :
  NoDup kv.*1 → (c, s) ∈ kv →
  codes_cost (λ v, if decide (c = v) then 1 else 0) kv = Z.of_nat (length s).
Proof.
  induction kv as [|[k w] kv IH]; intros Hnd Hin.
  { by apply elem_of_nil in Hin. }
  simpl in *. apply NoDup_cons in Hnd as [Hk Hnd].
  assert (∀ kv', c ∉ kv'.*1 →
            codes_cost (λ v, if decide (c = v) then 1 else 0) kv' = 0) as Hzero.
  { clear. induction kv' as [|[k w] kv' IH']; intros Hn; [done|]. simpl in *.
    rewrite decide_False by (intros ->; apply Hn; by left).
    rewrite IH'; [lia|]. intros ?. apply Hn. by right. }
  apply elem_of_cons in Hin as [Heq|Hin].
  - injection Heq as <- <-. rewrite decide_True by done.
    rewrite Hzero by done. lia.
  - rewrite decide_False.
    + rewrite IH by done. lia.
    + intros <-. apply Hk. apply list_elem_of_fmap. by exists (c, s).
Qed.

Lemma codes_cost_occurrences (g : byte → cstring) kv b :
  NoDup kv.*1 → (∀ c, c ∈ b → (c, g c) ∈ kv) →
  Z.of_nat (length (b ≫= g))
  = codes_cost (λ v, Z.of_nat (occurrences v b)) kv.
Proof.
  intros Hnd. induction b as [|c b IH]; intros Hall.
  { simpl. clear. induction kv as [|e kv IH]; simpl; lia. }
  rewrite bind_cons, length_app, Nat2Z.inj_add, IH
    by (intros c' Hc'; apply Hall; by right).
  rewrite <- (codes_cost_indicator c kv (g c) Hnd) by (apply Hall; by left).
  clear. cbn [occurrences]. induction kv as [|e kv IH]; simpl in *; [done|].
  rewrite <- IH. destruct (decide (c = e.1)); simpl; nia.
Qed.

Lemma two_symbols f (i j : nat) :
  i ∈ symbols_below f 256 → j ∈ symbols_below f 256 → i ≠ j →
  (2 ≤ length (symbols_below f 256))%nat.
Proof.
  intros Hi Hj Hne.
  destruct (symbols_cases (symbols_below f 256)) as [Hnil|[[v Hv]|Hmany]]; [| |done].
  - rewrite Hnil in Hi. by apply elem_of_nil in Hi.
  - rewrite Hv in Hi, Hj. apply list_elem_of_singleton in Hi, Hj. congruence.
Qed.

(** The bits [compress_file] spends on the codes are the weighted path
    length of its tree. *)
Lemma code_bits_path_cost b f root codes :
  length f = 256%nat →
  (∀ v, entry f (byte_index v) = Z.of_nat (occurrences v b)) →
  full root → is_leaf root = false →
  leaf_chars root ≡ₚ nat_to_byte <$> symbols_below f 256 →
  leaf_counts root ≡ₚ (λ i, (nat_to_byte i, entry f i)) <$> symbols_below f 256 →
  Huffman.generate_codes root (replicate 256 None) = Done codes →
  (∀ c, c ∈ b → ∃ s, codes !! byte_index c = Some (Some s)) →
  Z.of_nat (length (code_bits codes b)) = path_cost root.
Proof.
  intros Hlen Hocc Hfull Hleaf Hchars Hcounts Hgen Hall.
  pose proof (generate_codes_inner root (replicate 256 None) Hfull Hleaf
                (built_tree_height f root Hfull Hchars)
                (length_replicate 256 None)) as Hgen'.
  assert (codes = assign (replicate 256 None) (code_paths root [])) as ->
    by congruence.
  unfold code_bits, path_cost.
  rewrite (codes_cost_occurrences _ (code_paths root [])).
  - symmetry. apply (path_cost_by_codes _ root []).
    intros ch fq Hin. rewrite Hcounts in Hin.
    apply list_elem_of_fmap in Hin as (i & Heq & Hi). injection Heq as -> ->.
    apply elem_of_symbols_below in Hi as [Hi _].
    by rewrite <- Hocc, byte_index_nat_to_byte.
  - rewrite code_paths_chars, Hchars. apply NoDup_symbol_bytes.
  - intros c Hc. destruct (Hall c Hc) as [s Hs]. unfold code_of. rewrite Hs.
    apply assign_Some in Hs as [Hs|(ch & Heq & Hin)].
    { apply lookup_replicate in Hs as [? _]. done. }
    by apply byte_index_inj in Heq as ->.
Qed.

(** ** The codes shown by huffman2.c *)

(** The table of a built tree has a code exactly where the count is not 0. *)
Lemma codes_domain f root codes0 codes :
  length f = 256%nat → length codes0 = 256%nat →
  symbols_below f 256 ≠ [] →
  Huffman.build_huffman_tree f = Done root →
  Huffman.generate_codes root codes0 = Done codes →
  length codes = 256%nat
  ∧ ∀ k, (k < 256)%nat →
      codes !! k = Some (if decide (0 < entry f k)
                         then Some (code_of codes (nat_to_byte k)) else None).
Proof.
  intros Hlen Hlen0 Hne Hbuild Hgen.
  destruct (build_huffman_tree_spec f Hlen Hne)
    as (root' & Hb & Hfull & Hchars & Hone & Htwo).
  rewrite Hbuild in Hb. injection Hb as <-.
  assert (length codes = 256%nat) as Hlc.
  { destruct (generate_codes_returns root codes0 Hfull
                (built_tree_height f root Hfull Hchars) Hlen0) as (c' & Hc' & ?).
    congruence. }
  split; [done|]. intros k Hk.
  destruct (lookup_lt_is_Some_2 codes k) as [e He]; [lia|].
  rewrite He. f_equal. unfold code_of.
  rewrite byte_index_nat_to_byte by done. rewrite He.
  destruct e as [s|].
  - rewrite decide_True; [done|].
    destruct (symbols_cases (symbols_below f 256)) as [Hnil|[[v Hv]|Hmany]]; [done| |].
    + rewrite (Hone v Hv) in Hgen. unfold leaf_of in Hgen.
      rewrite generate_codes_leaf in Hgen by done.
      assert (v ∈ symbols_below f 256) as Hin by (rewrite Hv; by left).
      apply elem_of_symbols_below in Hin as [Hv256 Hpos].
      rewrite byte_index_nat_to_byte in Hgen by done.
      assert (codes = <[v := Some ["0"%char]]> (replicate 256 None)) as ->
        by congruence.
      destruct (decide (k = v)) as [->|Hkv]; [done|].
      rewrite list_lookup_insert_ne in He by done.
      apply lookup_replicate in He as [? _]. done.
    + pose proof (generate_codes_inner root codes0 Hfull (Htwo Hmany)
                    (built_tree_height f root Hfull Hchars) Hlen0) as Hgen'.
      assert (codes = assign (replicate 256 None) (code_paths root [])) as ->
        by congruence.
      by apply (table_lookup root f k s Hchars) in He as (_ & ? & _).
  - rewrite decide_False; [done|]. intros Hpos.
    destruct (input_bytes_have_codes f root codes0 (nat_to_byte k) Hlen Hlen0
                Hfull Hchars) as (codes' & s & Hg & _ & Hs).
    { by rewrite byte_index_nat_to_byte. }
    rewrite byte_index_nat_to_byte in Hs by done. congruence.
Qed.

Lemma print_codes_table f codes :
  length codes = 256%nat →
  (∀ k, (k < 256)%nat →
     codes !! k = Some (if decide (0 < entry f k)
                        then Some (code_of codes (nat_to_byte k)) else None)) →
  Huffman2.print_codes codes
  = Done (Huffman2.CodesHeading
          :: ((λ i, Huffman2.code_line i (code_of codes (nat_to_byte i)))
              <$> symbols_below f 256)).
Proof.
  intros Hlen Hdom. unfold Huffman2.print_codes.
  destruct (for_range_inv
    (λ i out, out = Huffman2.CodesHeading
                    :: ((λ i, Huffman2.code_line i (code_of codes (nat_to_byte i)))
                        <$> symbols_below f i))
    (λ i out, bits ← load codes i;
       match bits with
       | Some bits => Done (out ++ [Huffman2.code_line i bits])
       | None => Done out
       end)
    256 0 [Huffman2.CodesHeading]) as (out & -> & ->); [done| |done].
  intros i out Hi ->. rewrite (load_lookup _ _ _ (Hdom i ltac:(lia))). run_step.
  rewrite symbols_below_S. destruct (decide (0 < entry f i)).
  - eexists. split; [done|]. by rewrite fmap_app.
  - eexists. split; [done|]. by rewrite app_nil_r.
Qed.

(** * Further properties of the code *)

(** ** The heap of [build_huffman_tree] *)







(** ** The tree of [build_huffman_tree] *)

(** X4 ([build_huffman_tree] with [create_node], both files): for a table of
    256 counts whose sum is positive and fits 64 bits, the tree has one leaf
    for every byte with a nonzero count, carrying that count; every inner
    node carries the sum of the counts of its two children; and the root
    carries the sum of the whole table. *)
Theorem huffman_tree_counts (f : list Z) :
  length f = 256%nat → Forall (λ x, 0 ≤ x) f → 0 < table_sum f < 2 ^ 64 →
  ∃ root, Huffman.build_huffman_tree f = Done root
    ∧ Huffman2.build_huffman_tree f = Done root
    ∧ full root ∧ summed root
    ∧ leaf_counts root
      ≡ₚ (λ i, (nat_to_byte i, entry f i)) <$> symbols_below f 256
    ∧ weight root = table_sum f.
Proof.
  intros Hlen Hnn Hsum. pose proof (symbols_sum f Hnn) as Hs. rewrite Hlen in Hs.
  destruct (build_huffman_tree_greedy f Hlen)
    as (root & c & Hb & Hfull & Hsummed & Hcounts & _ & _).
  { intros Hnil. rewrite Hnil in Hs. unfold table_sum in Hs at 1. simpl in Hs. lia. }
  { lia. }
  exists root. split; [done|]. split; [by rewrite build_huffman_tree_same|].
  do 3 (split; [done|]).
  rewrite (summed_total root Hfull Hsummed), <- Hs.
  apply table_sum_perm. by rewrite Hcounts, <- list_fmap_compose.
Qed.

Lemma huffman_tree_counts_witness :
  ∃ root, Huffman.build_huffman_tree sample_table = Done root
    ∧ Huffman2.build_huffman_tree sample_table = Done root
    ∧ full root ∧ summed root
    ∧ leaf_counts root
      ≡ₚ (λ i, (nat_to_byte i, entry sample_table i))
         <$> symbols_below sample_table 256
    ∧ weight root = table_sum sample_table.
Proof.
  apply (huffman_tree_counts sample_table).
  - reflexivity.
  - refine (bool_decide_unpack _ _). vm_compute. exact I.
  - vm_compute. split; reflexivity.
Defined.

(** X5 ([build_huffman_tree] on its heap, both files): the tree is a Huffman
    tree.  For a table of 256 counts whose sum is positive and fits 64 bits,
    no full tree with the same leaves has a smaller weighted path length, the
    sum over the leaves of count times depth, which is the number of code
    bits a file with these counts takes. *)
Theorem huffman_tree_least_cost (f : list Z) :
  length f = 256%nat → Forall (λ x, 0 ≤ x) f → 0 < table_sum f < 2 ^ 64 →
  ∃ root, Huffman.build_huffman_tree f = Done root
    ∧ Huffman2.build_huffman_tree f = Done root
    ∧ leaf_counts root
      ≡ₚ (λ i, (nat_to_byte i, entry f i)) <$> symbols_below f 256
    ∧ ∀ t, full t → leaf_counts t ≡ₚ leaf_counts root →
        path_cost root ≤ path_cost t.
Proof.
  intros Hlen Hnn Hsum.
  destruct (built_tree_least f Hlen Hnn Hsum) as (root & Hb & _ & Hcounts & Hleast).
  exists root. split; [done|]. split; [by rewrite build_huffman_tree_same|].
  by split.
Qed.

Lemma huffman_tree_least_cost_witness :
  ∃ root, Huffman.build_huffman_tree sample_table = Done root
    ∧ Huffman2.build_huffman_tree sample_table = Done root
    ∧ leaf_counts root
      ≡ₚ (λ i, (nat_to_byte i, entry sample_table i))
         <$> symbols_below sample_table 256
    ∧ ∀ t, full t → leaf_counts t ≡ₚ leaf_counts root →
        path_cost root ≤ path_cost t.
Proof.
  apply (huffman_tree_least_cost sample_table).
  - reflexivity.
  - refine (bool_decide_unpack _ _). vm_compute. exact I.
  - vm_compute. split; reflexivity.
Defined.

(** ** The code table of [generate_codes] *)

(** X6 ([generate_codes] and [generate_codes_recursive] on a built tree):
    with [n] bytes of nonzero count, a code has at least one bit and fewer
    than [max 2 n] bits, so at most 255; the path buffer of 512 characters
    is never filled. *)
Theorem code_lengths_bounded (f : list Z) (i : nat)
    (codes0 : list (option cstring)) :
  length f = 256%nat → length codes0 = 256%nat →
  (i < 256)%nat → 0 < entry f i →
  ∃ root codes,
    Huffman.build_huffman_tree f = Done root
    ∧ Huffman.generate_codes root codes0 = Done codes
    ∧ ∀ k s, codes !! k = Some (Some s) →
        (1 ≤ length s)%nat
        ∧ (length s < 2 `max` length (symbols_below f 256))%nat
        ∧ (length s ≤ 255)%nat.
Proof.
  intros Hlen Hlen0 Hi Hpos.
  assert (i ∈ symbols_below f 256) as Hin by (by apply elem_of_symbols_below).
  destruct (build_huffman_tree_spec f Hlen)
    as (root & Hb & Hfull & Hchars & Hone & Htwo).
  { intros Hnil. rewrite Hnil in Hin. by apply elem_of_nil in Hin. }
  pose proof (length_symbols_below f 256) as Hn.
  exists root.
  destruct (symbols_cases (symbols_below f 256)) as [Hnil|[[v Hv]|Hmany]].
  - rewrite Hnil in Hin. by apply elem_of_nil in Hin.
  - rewrite (Hone v Hv) in *. unfold leaf_of at 2. rewrite generate_codes_leaf by done.
    eexists. split; [done|]. split; [done|].
    intros k s Hk. rewrite Hv. simpl.
    destruct (decide (k = byte_index (nat_to_byte v))) as [->|Hne].
    + rewrite list_lookup_insert_eq in Hk
        by (rewrite length_replicate; apply byte_index_lt).
      simplify_eq. simpl. lia.
    + rewrite list_lookup_insert_ne in Hk by done.
      apply lookup_replicate in Hk as [? _]. done.
  - specialize (Htwo Hmany).
    pose proof (height_lt_leaves root Hfull) as Hh.
    rewrite Hchars, length_fmap in Hh.
    rewrite generate_codes_inner by (done || lia).
    eexists. split; [done|]. split; [done|].
    intros k s Hk. apply assign_Some in Hk as [Hk|(ch & -> & He)].
    { apply lookup_replicate in Hk as [? _]. done. }
    pose proof (code_paths_depth _ _ _ He) as Hd.
    pose proof (code_paths_longer _ _ _ Htwo He) as Hl.
    simpl in *. lia.
Qed.

Lemma code_lengths_bounded_witness :
  ∃ root codes,
    Huffman.build_huffman_tree sample_table = Done root
    ∧ Huffman.generate_codes root (replicate 256 None) = Done codes
    ∧ ∀ k s, codes !! k = Some (Some s) →
        (1 ≤ length s)%nat
        ∧ (length s < 2 `max` length (symbols_below sample_table 256))%nat
        ∧ (length s ≤ 255)%nat.
Proof.
  apply (code_lengths_bounded sample_table 97 (replicate 256 None)).
  - reflexivity.
  - reflexivity.
  - lia.
  - reflexivity.
Defined.

(** ** The bit writer and the bit reader *)

(** X7 ([bitwriter_create], [bitwriter_write_bit],
    [bitwriter_write_bits_from_string], [bitwriter_flush], both files):
    written through a fresh writer and flushed, a string leaves its bits in
    the file eight to a byte, the first bit of each group in the most
    significant position and the last byte filled up with zeros; a character
    other than '1' counts as 0.  [n] characters take [(n + 7) / 8] bytes. *)
Theorem bitwriter_packs_msb_first (fp : list byte) (bits : cstring) :
  Huffman.bitwriter_flush
    (Huffman.bitwriter_write_bits_from_string (Huffman.bitwriter_create fp) bits)
  = fp ++ pack_msb (char_bit <$> bits)
  ∧ Huffman2.bitwriter_flush
      (Huffman2.bitwriter_write_bits_from_string (Huffman2.bitwriter_create fp)
         bits)
    = fp ++ pack_msb (char_bit <$> bits)
  ∧ length (pack_msb (char_bit <$> bits)) = ((length bits + 7) / 8)%nat.
Proof.
  destruct (bitwriter_packs (char_bit <$> bits) fp) as [H1 H2].
  rewrite length_fmap in H2. rewrite <- bitwriter_write_bits_char in H1.
  split; [done|]. split; [exact H1|done].
Qed.

(** X8 ([bitreader_create], [bitreader_read_bit]): the calls on a fresh
    reader hand out the bits of the file byte by byte, each byte from its
    least significant bit up, and return 0 after the last bit of the last
    byte and not before.  The reader of huffman2.c is the same function. *)
Theorem bitreader_reads_lsb_first (n : nat) (fp : list byte) :
  read_bits n (Huffman.bitreader_create fp) = take n (fp ≫= lsb_bits)
  ∧ length (read_bits n (Huffman.bitreader_create fp))
    = (n `min` (8 * length fp))%nat
  ∧ Huffman2.bitreader_create fp = Huffman.bitreader_create fp
  ∧ ∀ br, Huffman2.bitreader_read_bit br = Huffman.bitreader_read_bit br.
Proof.
  rewrite bitreader_lsb_first. split; [done|].
  split; [|by split].
  rewrite length_take. f_equal.
  induction fp as [|b fp IH]; [done|].
  rewrite bind_cons, length_app, IH. simpl. lia.
Qed.

(** X9 (the writer read back by the reader): the bits of a string that went
    through the writer come back from the reader with every group of eight
    in reverse order, the padding of the last group first. *)
Theorem bitreader_reverses_bitwriter (n : nat) (bits : cstring) :
  read_bits n
    (Huffman.bitreader_create
       (Huffman.bitwriter_flush
          (Huffman.bitwriter_write_bits_from_string
             (Huffman.bitwriter_create []) bits)))
  = take n (bit_value <$> lsb_view (char_bit <$> bits)).
Proof.
  destruct (bitwriter_packs (char_bit <$> bits) []) as [H1 _].
  rewrite <- bitwriter_write_bits_char in H1. rewrite H1.
  by rewrite bitreader_lsb_first, app_nil_l, lsb_bits_pack_msb.
Qed.

(** ** [compress_file] and [decompress_file] *)

(** X10 ([compress_file], both files): on a nonempty input of fewer than
    2^64 bytes the call returns 1 and prints nothing, and the file it writes
    is the header of 2056 bytes, holding the length and the table of counts,
    followed by the codes of the bytes of the input in the order of the
    input, packed most significant bit first, the last byte filled up with
    zeros. *)
Theorem compress_file_output (host : byte_order) (b : list byte) :
  b ≠ [] → Z.of_nat (length b) < 2 ^ 64 →
  ∃ f root codes blob,
    Huffman.count_pass b (replicate 256 0) 0 = Done (f, Z.of_nat (length b))
    ∧ Huffman.build_huffman_tree f = Done root
    ∧ Huffman.generate_codes root (replicate 256 None) = Done codes
    ∧ blob = blob_header host (Z.of_nat (length b)) f
             ++ pack_msb (char_bit <$> code_bits codes b)
    ∧ Huffman.compress_file host b
      = Done {| ret := 1; output := Some blob; stderr := [] |}
    ∧ Huffman2.compress_file host b
      = Done {| ret := 1; output := Some blob; stderr := [] |}
    ∧ length blob = (2056 + (length (code_bits codes b) + 7) / 8)%nat.
Proof.
  intros Hne Hfit.
  destruct (compress_file_exact host b Hne Hfit)
    as (f & root & codes & Hcount & Hlen & _ & _ & _ & Hbuild & _ & _ & Hgen
        & _ & _ & Hc).
  exists f, root, codes. eexists. split; [exact Hcount|]. split; [exact Hbuild|].
  split; [exact Hgen|]. split; [reflexivity|]. split; [exact Hc|].
  split; [by rewrite compress_file_same|].
  rewrite length_app, length_blob_header by done.
  destruct (bitwriter_packs (char_bit <$> code_bits codes b) []) as [_ ->].
  by rewrite length_fmap.
Qed.

Lemma compress_file_output_witness :
  ∃ f root codes blob,
    Huffman.count_pass sample_abracadabra (replicate 256 0) 0
    = Done (f, Z.of_nat (length sample_abracadabra))
    ∧ Huffman.build_huffman_tree f = Done root
    ∧ Huffman.generate_codes root (replicate 256 None) = Done codes
    ∧ blob = blob_header LittleEndian (Z.of_nat (length sample_abracadabra)) f
             ++ pack_msb (char_bit <$> code_bits codes sample_abracadabra)
    ∧ Huffman.compress_file LittleEndian sample_abracadabra
      = Done {| ret := 1; output := Some blob; stderr := [] |}
    ∧ Huffman2.compress_file LittleEndian sample_abracadabra
      = Done {| ret := 1; output := Some blob; stderr := [] |}
    ∧ length blob
      = (2056 + (length (code_bits codes sample_abracadabra) + 7) / 8)%nat.
Proof.
  apply (compress_file_output LittleEndian sample_abracadabra).
  - discriminate.
  - reflexivity.
Defined.

(** X11 ([decompress_file] with the decoding loop and [bitreader_read_bit],
    both files): the decoder is the inverse of the code table, for a stream
    packed least significant bit first.  After the header of a nonempty file
    of fewer than 2^64 bytes, any stream whose bytes, taken apart from their
    least significant bits, begin with the codes of the bytes of the file is
    decoded to the file, with the return value 1.  Such is the stream of
    [compress_file] once each of its groups of eight bits is mirrored. *)
Theorem decompress_file_reads_lsb_first (host : byte_order) (b : list byte) :
  b ≠ [] → Z.of_nat (length b) < 2 ^ 64 →
  ∃ f root codes,
    Huffman.count_pass b (replicate 256 0) 0 = Done (f, Z.of_nat (length b))
    ∧ Huffman.build_huffman_tree f = Done root
    ∧ Huffman.generate_codes root (replicate 256 None) = Done codes
    ∧ (∀ stream junk,
         stream ≫= lsb_bits
         = (bit_value <$> (char_bit <$> code_bits codes b)) ++ junk →
         Huffman.decompress_file host
           (blob_header host (Z.of_nat (length b)) f ++ stream)
         = Done {| ret := 1; output := Some b; stderr := [] |}
         ∧ Huffman2.decompress_file host
             (blob_header host (Z.of_nat (length b)) f ++ stream)
           = Done {| ret := 1; output := Some b; stderr := [] |})
    ∧ Huffman.decompress_file host
        (blob_header host (Z.of_nat (length b)) f
         ++ pack_msb (lsb_view (char_bit <$> code_bits codes b)))
      = Done {| ret := 1; output := Some b; stderr := [] |}.
Proof.
  intros Hne Hfit.
  destruct (compress_file_exact host b Hne Hfit)
    as (f & root & codes & Hcount & Hlen & Hf & Hocc & _ & Hbuild & Hfull
        & Hchars & Hgen & _ & Hall & _).
  exists f, root, codes. split; [exact Hcount|]. split; [exact Hbuild|].
  split; [exact Hgen|].
  assert (∀ stream junk,
            stream ≫= lsb_bits
            = (bit_value <$> (char_bit <$> code_bits codes b)) ++ junk →
            Huffman.decompress_file host
              (blob_header host (Z.of_nat (length b)) f ++ stream)
            = Done {| ret := 1; output := Some b; stderr := [] |}) as Hdec.
  { intros stream junk Hs.
    exact (decompress_file_lsb host b f root codes stream junk Hne Hfit Hlen Hf
             Hocc Hbuild Hfull Hchars Hgen Hall Hs). }
  split.
  - intros stream junk Hs. split; [by eapply Hdec|].
    rewrite decompress_file_same. by eapply Hdec.
  - destruct (lsb_view_twice (char_bit <$> code_bits codes b)) as [k Hk].
    apply (Hdec _ (bit_value <$> replicate k false)).
    by rewrite lsb_bits_pack_msb, Hk, fmap_app.
Qed.

Lemma decompress_file_reads_lsb_first_witness :
  ∃ f root codes,
    Huffman.count_pass sample_ab (replicate 256 0) 0
    = Done (f, Z.of_nat (length sample_ab))
    ∧ Huffman.build_huffman_tree f = Done root
    ∧ Huffman.generate_codes root (replicate 256 None) = Done codes
    ∧ (∀ stream junk,
         stream ≫= lsb_bits
         = (bit_value <$> (char_bit <$> code_bits codes sample_ab)) ++ junk →
         Huffman.decompress_file LittleEndian
           (blob_header LittleEndian (Z.of_nat (length sample_ab)) f ++ stream)
         = Done {| ret := 1; output := Some sample_ab; stderr := [] |}
         ∧ Huffman2.decompress_file LittleEndian
             (blob_header LittleEndian (Z.of_nat (length sample_ab)) f ++ stream)
           = Done {| ret := 1; output := Some sample_ab; stderr := [] |})
    ∧ Huffman.decompress_file LittleEndian
        (blob_header LittleEndian (Z.of_nat (length sample_ab)) f
         ++ pack_msb (lsb_view (char_bit <$> code_bits codes sample_ab)))
      = Done {| ret := 1; output := Some sample_ab; stderr := [] |}.
Proof.
  apply (decompress_file_reads_lsb_first LittleEndian sample_ab).
  - discriminate.
  - reflexivity.
Defined.

(** X12 ([compress_file] of huffman.c with its tree and its code table): on
    an input of fewer than 2^64 bytes in which two different bytes occur,
    the number of code bits written is the weighted path length of the tree,
    and no full tree with the same leaves would take fewer bits. *)
Theorem compress_file_fewest_bits (host : byte_order) (b : list byte)
    (c1 c2 : byte) :
  c1 ∈ b → c2 ∈ b → c1 ≠ c2 → Z.of_nat (length b) < 2 ^ 64 →
  ∃ f root codes,
    Huffman.count_pass b (replicate 256 0) 0 = Done (f, Z.of_nat (length b))
    ∧ Huffman.build_huffman_tree f = Done root
    ∧ Huffman.generate_codes root (replicate 256 None) = Done codes
    ∧ Huffman.compress_file host b
      = Done {| ret := 1;
                output := Some (blob_header host (Z.of_nat (length b)) f
                                ++ pack_msb (char_bit <$> code_bits codes b));
                stderr := [] |}
    ∧ Z.of_nat (length (code_bits codes b)) = path_cost root
    ∧ ∀ t, full t → leaf_counts t ≡ₚ leaf_counts root →
        Z.of_nat (length (code_bits codes b)) ≤ path_cost t.
Proof.
  intros H1 H2 Hne Hfit.
  assert (b ≠ []) as Hb by (intros ->; by apply elem_of_nil in H1).
  destruct (compress_file_exact host b Hb Hfit)
    as (f & root & codes & Hcount & Hlen & Hf & Hocc & Hsum & Hbuild & Hfull
        & Hchars & Hgen & _ & Hall & Hc).
  assert (Forall (λ x, 0 ≤ x) f) as Hnn.
  { eapply Forall_impl; [exact Hf|]. intros x Hx. unfold in_u64 in Hx. simpl. lia. }
  destruct (built_tree_least f Hlen Hnn) as (root' & Hb' & _ & Hcounts & Hleast).
  { rewrite Hsum. pose proof (nil_length_inv b). split; [|done].
    destruct (length b); [by destruct Hb; auto|lia]. }
  rewrite Hbuild in Hb'. injection Hb' as <-.
  assert (∀ c, c ∈ b → byte_index c ∈ symbols_below f 256) as Hsym.
  { intros c Hin. apply elem_of_symbols_below. split; [apply byte_index_lt|].
    rewrite Hocc. pose proof (occurrences_elem c b Hin). lia. }
  pose proof (two_symbols f _ _ (Hsym c1 H1) (Hsym c2 H2)
                (λ E, Hne (byte_index_inj _ _ E))) as Hmany.
  assert (is_leaf root = false) as Hleaf.
  { destruct (is_leaf root) eqn:E; [|done].
    pose proof (leaf_is_single root Hfull E) as Hone.
    rewrite Hchars, length_fmap in Hone. lia. }
  pose proof (code_bits_path_cost b f root codes Hlen Hocc Hfull Hleaf Hchars
                Hcounts Hgen Hall) as Hbits.
  exists f, root, codes. split; [exact Hcount|]. split; [exact Hbuild|].
  split; [exact Hgen|]. split; [exact Hc|]. split; [exact Hbits|].
  intros t Ht Hp. rewrite Hbits. by apply Hleast.
Qed.

Lemma compress_file_fewest_bits_witness :
  ∃ f root codes,
    Huffman.count_pass sample_abracadabra (replicate 256 0) 0
    = Done (f, Z.of_nat (length sample_abracadabra))
    ∧ Huffman.build_huffman_tree f = Done root
    ∧ Huffman.generate_codes root (replicate 256 None) = Done codes
    ∧ Huffman.compress_file LittleEndian sample_abracadabra
      = Done {| ret := 1;
                output :=
                  Some (blob_header LittleEndian
                          (Z.of_nat (length sample_abracadabra)) f
                        ++ pack_msb
                             (char_bit <$> code_bits codes sample_abracadabra));
                stderr := [] |}
    ∧ Z.of_nat (length (code_bits codes sample_abracadabra)) = path_cost root
    ∧ ∀ t, full t → leaf_counts t ≡ₚ leaf_counts root →
        Z.of_nat (length (code_bits codes sample_abracadabra)) ≤ path_cost t.
Proof.
  apply (compress_file_fewest_bits LittleEndian sample_abracadabra "a" "b").
  - refine (bool_decide_unpack _ _). vm_compute. exact I.
  - refine (bool_decide_unpack _ _). vm_compute. exact I.
  - discriminate.
  - reflexivity.
Defined.

(** X13 ([compress_file] followed by [decompress_file], both files): a file
    that repeats one byte, fewer than 2^64 times, survives the round trip:
    [compress_file] returns 1, and [decompress_file] returns 1 and turns the
    blob back into the file. *)
Theorem round_trip_one_symbol (host : byte_order) (v : byte) (n : nat) :
  Z.of_nat (S n) < 2 ^ 64 →
  ∃ blob,
    Huffman.compress_file host (replicate (S n) v)
    = Done {| ret := 1; output := Some blob; stderr := [] |}
    ∧ Huffman.decompress_file host blob
      = Done {| ret := 1; output := Some (replicate (S n) v); stderr := [] |}
    ∧ Huffman2.compress_file host (replicate (S n) v)
      = Done {| ret := 1; output := Some blob; stderr := [] |}
    ∧ Huffman2.decompress_file host blob
      = Done {| ret := 1; output := Some (replicate (S n) v); stderr := [] |}.
Proof.
  intros Hfit.
  destruct (round_trip_single_symbol host v n Hfit) as (blob & Hc & Hd).
  exists blob. split; [exact Hc|]. split; [exact Hd|].
  split.
  - rewrite compress_file_same; [exact Hc|]. by rewrite length_replicate.
  - rewrite decompress_file_same. exact Hd.
Qed.

Lemma round_trip_one_symbol_witness :
  ∃ blob,
    Huffman.compress_file LittleEndian (replicate 3 "a"%byte)
    = Done {| ret := 1; output := Some blob; stderr := [] |}
    ∧ Huffman.decompress_file LittleEndian blob
      = Done {| ret := 1; output := Some (replicate 3 "a"%byte); stderr := [] |}
    ∧ Huffman2.compress_file LittleEndian (replicate 3 "a"%byte)
      = Done {| ret := 1; output := Some blob; stderr := [] |}
    ∧ Huffman2.decompress_file LittleEndian blob
      = Done {| ret := 1; output := Some (replicate 3 "a"%byte); stderr := [] |}.
Proof.
  apply (round_trip_one_symbol LittleEndian "a"%byte 2).
  reflexivity.
Defined.

(** X14 ([decompress_file], both files): a header that announces bytes but
    whose table has no count above zero is refused.  The call returns 0,
    prints "Error rebuilding Huffman tree" and opens no output file,
    whatever follows the header. *)
Theorem decompress_refuses_empty_table (host : byte_order) (blob : list byte) :
  (2056 ≤ length blob)%nat →
  symbols_below (header_table host blob) 256 = [] →
  0 < header_total host blob →
  Huffman.decompress_file host blob
  = Done {| ret := 0; output := None; stderr := [TreeRebuildFailed] |}
  ∧ Huffman2.decompress_file host blob
    = Done {| ret := 0; output := None; stderr := [TreeRebuildFailed] |}.
Proof.
  intros Hlen Hs Hpos.
  destruct (header_read host blob Hlen) as (_ & _ & Hlf & _ & _).
  assert (Huffman.decompress_file host blob
          = Done {| ret := 0; output := None; stderr := [TreeRebuildFailed] |})
    as Hd.
  { rewrite (decompress_file_body host blob Hlen).
    rewrite decode_body_empty by (done || lia).
    by rewrite bool_decide_eq_true_2. }
  split; [exact Hd|]. rewrite decompress_file_same. exact Hd.
Qed.

Lemma decompress_refuses_empty_table_witness :
  Huffman.decompress_file LittleEndian
    (blob_header LittleEndian 5 (replicate 256 0))
  = Done {| ret := 0; output := None; stderr := [TreeRebuildFailed] |}
  ∧ Huffman2.decompress_file LittleEndian
      (blob_header LittleEndian 5 (replicate 256 0))
    = Done {| ret := 0; output := None; stderr := [TreeRebuildFailed] |}.
Proof.
  apply (decompress_refuses_empty_table LittleEndian
           (blob_header LittleEndian 5 (replicate 256 0))).
  - vm_compute. lia.
  - reflexivity.
  - reflexivity.
Defined.

(** X15 ([compress_file] of huffman.c, with everything it calls): the call
    returns on every input, however long.  No NULL pointer is dereferenced,
    no access leaves the heap array, the table of codes or the path buffer,
    and every loop ends.  Either the input had no byte to count and nothing
    is written, or the header is written and the call returns 1 with nothing
    printed or 0 after "no code for character". *)
Theorem compress_file_returns (host : byte_order) (b : list byte) :
  ∃ r, Huffman.compress_file host b = Done r
    ∧ (r = {| ret := 0; output := None; stderr := [EmptyInput] |}
       ∨ ∃ f total bits,
           Huffman.count_pass b (replicate 256 0) 0 = Done (f, total)
           ∧ output r = Some (blob_header host total f ++ bits)
           ∧ ((ret r = 1 ∧ stderr r = [])
              ∨ (ret r = 0 ∧ ∃ uc, stderr r = [NoCodeFor uc]))).
Proof.
  destruct (compress_file_cases host b)
    as (f & total & Hcount & _ & _ & _ & Hempty & Hmore).
  destruct (decide (symbols_below f 256 = [])) as [Hs|Hs].
  - eexists. split; [exact (Hempty Hs)|]. by left.
  - destruct (Hmore Hs) as (bits & stopped & Hc).
    eexists. split; [exact Hc|]. right. exists f, total, bits.
    split; [exact Hcount|]. split; [done|].
    destruct stopped as [uc|]; [right|left]; eauto.
Qed.

(** ** Showing the codes (huffman2.c) *)

(** X16 ([build_and_show_codes_for_input] and [print_codes] of huffman2.c):
    for a file that cannot be opened only the message is printed, and for an
    empty file only "File is empty.".  For a nonempty file of fewer than
    2^64 bytes the heading is followed by one line for every byte that
    occurs in the file, in increasing order of the bytes, each with the code
    that [compress_file] uses for the byte. *)
Theorem show_codes_lists_the_table (b : list byte) :
  b ≠ [] → Z.of_nat (length b) < 2 ^ 64 →
  Huffman2.build_and_show_codes_for_input None = Done Huffman2.CannotOpenInput
  ∧ Huffman2.build_and_show_codes_for_input (Some [])
    = Done (Huffman2.Printed [Huffman2.FileIsEmpty])
  ∧ ∃ f root codes,
      Huffman2.count_pass b (replicate 256 0) 0 = Done (f, Z.of_nat (length b))
      ∧ Huffman2.build_huffman_tree f = Done root
      ∧ Huffman2.generate_codes root (replicate 256 None) = Done codes
      ∧ Huffman2.build_and_show_codes_for_input (Some b)
        = Done (Huffman2.Printed
                  (Huffman2.CodesHeading
                   :: ((λ i, Huffman2.code_line i (code_of codes (nat_to_byte i)))
                       <$> symbols_below f 256))).
Proof.
  intros Hne Hfit. split; [reflexivity|]. split; [reflexivity|].
  destruct (compress_file_exact LittleEndian b Hne Hfit)
    as (f & root & codes & Hcount & Hlen & _ & Hocc & _ & Hbuild & _ & _ & Hgen
        & _ & _ & _).
  assert (symbols_below f 256 ≠ []) as Hs.
  { intros Hnil. apply Hne. apply nil_length_inv.
    destruct b as [|c b']; [done|]. exfalso.
    assert (byte_index c ∈ symbols_below f 256) as Hin.
    { apply elem_of_symbols_below. split; [apply byte_index_lt|].
      rewrite Hocc. simpl. rewrite decide_True by done. lia. }
    rewrite Hnil in Hin. by apply elem_of_nil in Hin. }
  destruct (codes_domain f root (replicate 256 None) codes Hlen
              (length_replicate 256 None) Hs Hbuild Hgen) as [Hlc Hdom].
  exists f, root, codes. split; [exact Hcount|].
  split; [by rewrite build_huffman_tree_same|].
  split; [by rewrite generate_codes_same|].
  unfold Huffman2.build_and_show_codes_for_input.
  change Huffman2.count_pass with Huffman.count_pass. rewrite Hcount. run_step.
  rewrite decide_False.
  2:{ intros Hz. apply Hne. apply nil_length_inv. lia. }
  rewrite build_huffman_tree_same, Hbuild by done. run_step.
  rewrite generate_codes_same, Hgen. run_step.
  by rewrite (print_codes_table f codes Hlc Hdom).
Qed.

Lemma show_codes_lists_the_table_witness :
  Huffman2.build_and_show_codes_for_input None = Done Huffman2.CannotOpenInput
  ∧ Huffman2.build_and_show_codes_for_input (Some [])
    = Done (Huffman2.Printed [Huffman2.FileIsEmpty])
  ∧ ∃ f root codes,
      Huffman2.count_pass sample_ab (replicate 256 0) 0
      = Done (f, Z.of_nat (length sample_ab))
      ∧ Huffman2.build_huffman_tree f = Done root
      ∧ Huffman2.generate_codes root (replicate 256 None) = Done codes
      ∧ Huffman2.build_and_show_codes_for_input (Some sample_ab)
        = Done (Huffman2.Printed
                  (Huffman2.CodesHeading
                   :: ((λ i, Huffman2.code_line i (code_of codes (nat_to_byte i)))
                       <$> symbols_below f 256))).
Proof.
  apply (show_codes_lists_the_table sample_ab).
  - discriminate.
  - reflexivity.
Defined.
